(** * The llx executor (llx/llx_v1.go): a shallow embedding and its properties

    The executor evaluates a compiled program, a list of chunks addressed by
    1-based integer refs, against a resource provider.  Results are cached per
    ref, dependencies between refs are recorded in a call graph, and results
    of entrypoints and datapoints are handed to a callback.

    Go pointers to executors and to the maps captured by block closures are
    addresses into a store; every operation of the executor is a computation
    over that store which can also panic or run out of fuel. *)

From Stdlib Require Import ZArith Lia.
From stdpp Require Import base option list gmap sets strings sorting pretty.

Open Scope Z_scope.

(** ** Errors

    The dynamic types of Go's [error] that the executor tells apart. *)

#[warnings="-register-all"] Inductive error :=
| errors_New (msg : string)              (* errors.New(msg) *)
| lumi_NotReadyError                     (* lumi.NotReadyError{} *)
| multierror_Error (errs : list error).  (* *multierror.Error *)

(** [err.(lumi.NotReadyError)] *)
Definition isNotReadyError (err : error) : bool :=
  match err with lumi_NotReadyError => true | _ => false end.

(** go-multierror's [Append(err, e)]: the result is always a
    [*multierror.Error]; a multi-error operand is flattened into it. *)
Definition multierror_flat (e : error) : list error :=
  match e with multierror_Error es => es | _ => [e] end.

Definition multierror_Append (err : option error) (e : error) : error :=
  match err with
  | None => multierror_Error (multierror_flat e)
  | Some (multierror_Error es) => multierror_Error (es ++ multierror_flat e)
  | Some err' => multierror_Error (err' :: multierror_flat e)
  end.

(** int32 wrap-around, for the places where the executor computes with
    refs. *)
Definition int32 (z : Z) : Z := (z + 2147483648) mod 4294967296 - 2147483648.

(** ** What the executor takes from other packages

    The [types] package, the payloads a value can hold, primitives and the
    provider's state are declared outside llx_v1.go. *)

Class ExternTypes := {
  types_Type : Type;                          (* types.Type *)
  types_Type_eq :: EqDecision types_Type;
  types_Nil : types_Type;
  types_Unset : types_Type;
  types_zero : types_Type;                    (* the zero value of types.Type *)
  types_Block : types_Type;
  types_Resource : string → types_Type;
  IsFunction : types_Type → bool;
  IsResource : types_Type → bool;
  lumi_ResourceType : Type;                   (* lumi.ResourceType *)
  Opaque_value : Type;                        (* any other payload *)
  Primitive : Type;                           (* llx.Primitive *)
  Primitive_Type : Primitive → types_Type;    (* types.Type(p.Type) *)
  RefV1 : Primitive → Z * bool;               (* p.RefV1() *)
  lumi_Runtime : Type;                        (* what *lumi.Runtime points to *)
}.

(** The order [Run] sorts refs in: larger refs first.  The keys of a map
    are distinct, so no two of the sorted refs are equal. *)
Definition ref_desc (x y : Z) : Prop := y ≤ x.

#[global] Instance ref_desc_dec : RelDecision ref_desc :=
  λ x y, decide (y ≤ x).

(** ** The call graph [CallsV1] *)

Module CallsV1.

(** [map[int32][]int32]; the mutex only serialises the two methods. *)
Abbreviation t := (gmap Z (list Z)).

(** The scan [for k := range calls { if calls[k] == v { return true } }]. *)
Fixpoint contains (calls : list Z) (v : Z) : bool :=
  match calls with
  | [] => false
  | x :: rest => if decide (x = v) then true else contains rest v
  end.

(** [Store]: the flag says whether the connection already existed. *)
Definition Store (k v : Z) (c : t) : bool * t :=
  match c !! k with
  | None => (false, <[k := [] ++ [v]]> c)
  | Some calls =>
      if contains calls v then (true, c)
      else (false, <[k := calls ++ [v]]> c)
  end.

(** [Load]: a missing key yields the nil slice and [false]. *)
Definition Load (k : Z) (c : t) : list Z * bool :=
  match c !! k with
  | Some v => (v, true)
  | None => ([], false)
  end.

(** No edge list names a ref twice. *)
Definition dedup (c : t) : Prop :=
  ∀ k l, c !! k = Some l → NoDup l.

(** The graphs an executor can hold: [NewExecutorV1] starts from the
    empty map and only [Store] writes to it. *)
Inductive built : t → Prop :=
| built_empty : built ∅
| built_Store k v c : built c → built (Store k v c).2.

(** The number of times [v] occurs in a slice. *)
Definition occurrences (v : Z) (l : list Z) : nat :=
  length (filter (λ x, x = v) l).

End CallsV1.

(** ** Values, programs and the executor's state *)

Section data.
Context `{ET : ExternTypes}.

(** What the [interface{}] field [Value] of a [RawData] holds when it is
    not nil.  A block's field map is a Go map, hence a reference: the
    address of the closure that owns it. *)
Inductive payload :=
| Resource_value (r : lumi_ResourceType)
| Block_value (m : nat)
| Other_value (o : Opaque_value).

Record RawData := {
  Typ : types_Type;
  Value : option payload;
  Error : option error;
}.

Record RawResult := {
  Data : option RawData;      (* *RawData *)
  CodeID : string;
}.

Record stepCache := {
  Result : option RawData;    (* *RawData *)
  IsStatic : bool;
}.

Record Function := {
  DeprecatedV5Binding : Z;
  Args : list (option Primitive);
}.

Inductive Chunk_Call :=
| Chunk_PRIMITIVE
| Chunk_FUNCTION
| Chunk_PROPERTY
| Chunk_unknown (n : Z).

Record Chunk := {
  Call : Chunk_Call;
  Id : string;
  Chunk_Primitive : option Primitive;
  Chunk_Function : option Function;
}.

#[warnings="-register-all"] Inductive CodeV1 := {
  Code : list (option Chunk);
  Entrypoints : list Z;
  Datapoints : list Z;
  Checksums : gmap Z string;
  Functions : list (option CodeV1);
  SingleValue : bool;
}.

(** The three callbacks an executor can hold: the one its caller passed
    to [NewExecutorV1], the one [Unregister] installs, and the closure
    [runBlock] builds, with the variables it captures. *)
Inductive ResultCallback :=
| caller_callback
| decommissioned_callback
| block_callback (parent : nat) (fun_ : CodeV1) (bind : option RawData)
                 (ref : Z) (closure : nat).

(** The two variables of [runBlock] that its closure updates. *)
Record blockClosure := {
  blockResult : gmap string (option RawData);
  anyError : option error;
}.

Inductive Runtime_ptr := nil_runtime | the_runtime.

Record LeiseExecutorV1 := {
  exec_id : string;
  watcherIds : gset string;
  blockExecutors : list nat;
  runtime : Runtime_ptr;
  code : CodeV1;
  entrypoints : gset Z;
  callbackPoints : gmap Z string;
  callback : ResultCallback;
  cache : gmap Z (option stepCache);
  stepTracker : gmap Z (option stepCache);
  calls : gmap Z (list Z);
  starts : list Z;
  props : gmap string (option Primitive);
}.

(** The store: executors and closures by address, the provider, and the
    results handed to caller-supplied callbacks, oldest first, each with
    the address of the executor that delivered it. *)
Record World := {
  executors : gmap nat LeiseExecutorV1;
  closures : gmap nat blockClosure;
  provider : lumi_Runtime;
  delivered : list (nat * RawResult);
}.

Definition set_callback (cb : ResultCallback) (e : LeiseExecutorV1) :=
  {| exec_id := exec_id e; watcherIds := watcherIds e;
     blockExecutors := blockExecutors e; runtime := runtime e;
     code := code e; entrypoints := entrypoints e;
     callbackPoints := callbackPoints e; callback := cb;
     cache := cache e; stepTracker := stepTracker e; calls := calls e;
     starts := starts e; props := props e |}.

Definition set_cache (m : gmap Z (option stepCache)) (e : LeiseExecutorV1) :=
  {| exec_id := exec_id e; watcherIds := watcherIds e;
     blockExecutors := blockExecutors e; runtime := runtime e;
     code := code e; entrypoints := entrypoints e;
     callbackPoints := callbackPoints e; callback := callback e;
     cache := m; stepTracker := stepTracker e; calls := calls e;
     starts := starts e; props := props e |}.

Definition set_stepTracker (m : gmap Z (option stepCache)) (e : LeiseExecutorV1) :=
  {| exec_id := exec_id e; watcherIds := watcherIds e;
     blockExecutors := blockExecutors e; runtime := runtime e;
     code := code e; entrypoints := entrypoints e;
     callbackPoints := callbackPoints e; callback := callback e;
     cache := cache e; stepTracker := m; calls := calls e;
     starts := starts e; props := props e |}.

Definition set_calls (m : gmap Z (list Z)) (e : LeiseExecutorV1) :=
  {| exec_id := exec_id e; watcherIds := watcherIds e;
     blockExecutors := blockExecutors e; runtime := runtime e;
     code := code e; entrypoints := entrypoints e;
     callbackPoints := callbackPoints e; callback := callback e;
     cache := cache e; stepTracker := stepTracker e; calls := m;
     starts := starts e; props := props e |}.

Definition set_blockExecutors (l : list nat) (e : LeiseExecutorV1) :=
  {| exec_id := exec_id e; watcherIds := watcherIds e;
     blockExecutors := l; runtime := runtime e;
     code := code e; entrypoints := entrypoints e;
     callbackPoints := callbackPoints e; callback := callback e;
     cache := cache e; stepTracker := stepTracker e; calls := calls e;
     starts := starts e; props := props e |}.

Definition set_executors (m : gmap nat LeiseExecutorV1) (w : World) :=
  {| executors := m; closures := closures w; provider := provider w;
     delivered := delivered w |}.

Definition set_closures (m : gmap nat blockClosure) (w : World) :=
  {| executors := executors w; closures := m; provider := provider w;
     delivered := delivered w |}.

Definition set_provider (p : lumi_Runtime) (w : World) :=
  {| executors := executors w; closures := closures w; provider := p;
     delivered := delivered w |}.

Definition set_delivered (l : list (nat * RawResult)) (w : World) :=
  {| executors := executors w; closures := closures w;
     provider := provider w; delivered := l |}.

(** *** Computations over the store *)

Inductive outcome (A : Type) :=
| Ok (a : A) (w : World)
| Panic (msg : string)
| OutOfFuel.
Global Arguments Ok {A} a w.
Global Arguments Panic {A} msg.
Global Arguments OutOfFuel {A}.

Definition M (A : Type) : Type := World → outcome A.

Definition ret {A} (a : A) : M A := λ w, Ok a w.

Definition bind {A B} (m : M A) (k : A → M B) : M B :=
  λ w, match m w with
       | Ok a w' => k a w'
       | Panic msg => Panic msg
       | OutOfFuel => OutOfFuel
       end.

Definition panic {A} (msg : string) : M A := λ _, Panic msg.
Definition out_of_fuel {A} : M A := λ _, OutOfFuel.

(** [for _, x := range l { f(x) }] *)
Fixpoint for_each {A} (f : A → M unit) (l : list A) : M unit :=
  match l with
  | [] => ret tt
  | x :: rest => bind (f x) (λ _, for_each f rest)
  end.

(** Reading and updating the executor at address [c]. *)
Definition get_exec (c : nat) : M LeiseExecutorV1 :=
  λ w, match executors w !! c with
       | Some e => Ok e w
       | None => Panic "invalid memory address or nil pointer dereference"
       end.

Definition update_exec (c : nat) (f : LeiseExecutorV1 → LeiseExecutorV1) : M unit :=
  λ w, match executors w !! c with
       | Some e => Ok tt (set_executors (<[c := f e]> (executors w)) w)
       | None => Panic "invalid memory address or nil pointer dereference"
       end.

Definition get_closure (l : nat) : M blockClosure :=
  λ w, match closures w !! l with
       | Some b => Ok b w
       | None => Panic "invalid memory address or nil pointer dereference"
       end.

Definition put_closure (l : nat) (b : blockClosure) : M unit :=
  λ w, Ok tt (set_closures (<[l := b]> (closures w)) w).

(** Dereferencing a pointer that may be nil. *)
Definition deref {A} (p : option A) : M A :=
  match p with
  | Some a => ret a
  | None => panic "invalid memory address or nil pointer dereference"
  end.

End data.

Notation "'let*' x ':=' m 'in' k" := (bind m (λ x, k))
  (at level 10, x pattern, m at level 100, k at level 200, only parsing).

(** ** The result cache [CacheV1]

    A [sync.Map] from refs to [*stepCache]; the step tracker has the same
    type and only ever holds nil pointers. *)

Module CacheV1.
Section CacheV1.
Context `{ET : ExternTypes}.

Definition Store (k : Z) (v : option stepCache)
    (c : gmap Z (option stepCache)) : gmap Z (option stepCache) :=
  <[k := v]> c.

Definition Load (k : Z) (c : gmap Z (option stepCache)) : option stepCache * bool :=
  match c !! k with
  | Some v => (v, true)
  | None => (None, false)
  end.

End CacheV1.
End CacheV1.

(** ** Functions of the package that live in other files

    They receive the executor (its address) where the Go functions receive
    [c]; the provider's two methods only see the provider. *)

Class Collab `{ET : ExternTypes} := {
  resolveValue : nat → option Primitive → Z → M (option RawData * Z * option error);
  runBoundFunctionV1 : nat → RawData → Chunk → Z → M (option RawData * Z * option error);
  handleGlobalV1 :
    string → option (nat → Function → Z → M (option RawData * Z * option error)) * bool;
  args2resourceargsV1 :
    nat → Z → list (option Primitive) → M (list (option payload) * Z * option error);
  runtime_CreateResource :
    string → list (option payload) → lumi_Runtime →
    (option lumi_ResourceType * option error) * lumi_Runtime;
  runtime_Unregister : string → lumi_Runtime → option error * lumi_Runtime;
  errorResult : error → string → RawResult;
  errorResultMsg : string → string → RawResult;
  emptyFunction : Function;
  uuid_NewV4 : M string;
  Chunk_Call_String : Chunk_Call → string;
}.

Section executor.
Context `{CO : Collab}.

Definition slice_index {A} (l : list A) (i : Z) : option A :=
  if decide (i < 0) then None else l !! Z.to_nat i.

(** [strconv.FormatInt(int64(ref), 10)] *)
Definition FormatInt (ref : Z) : string := pretty ref.

Definition cache_Store (c : nat) (k : Z) (v : stepCache) : M unit :=
  update_exec c (λ e, set_cache (CacheV1.Store k (Some v) (cache e)) e).

Definition calls_Store (c : nat) (k v : Z) : M bool :=
  let* e := get_exec c in
  let r := CallsV1.Store k v (calls e) in
  let* _ := update_exec c (set_calls r.2) in
  ret r.1.

(** A call on the provider behind [c.runtime]. *)
Definition on_runtime {A} (c : nat) (f : lumi_Runtime → A * lumi_Runtime) : M A :=
  let* e := get_exec c in
  match runtime e with
  | nil_runtime => panic "invalid memory address or nil pointer dereference"
  | the_runtime => λ w, let r := f (provider w) in Ok r.1 (set_provider r.2 w)
  end.

Definition createResource (c : nat) (name : string) (f : Function) (ref : Z)
    : M (option RawData * Z * option error) :=
  let* (args, rref, err) := args2resourceargsV1 c ref (Args f) in
  if bool_decide (err ≠ None ∨ rref ≠ 0) then ret (None, rref, err)
  else
    let* (resource, err) := on_runtime c (runtime_CreateResource name args) in
    match err with
    | Some err =>
        let* _ :=
          if isNotReadyError err then ret tt
          else cache_Store c ref
                 {| Result := Some {| Typ := types_Resource name;
                                      Value := None; Error := Some err |};
                    IsStatic := true |} in
        ret (None, 0, Some err)
    | None =>
        let res := {| Result := Some {| Typ := types_Resource name;
                                        Value := Resource_value <$> resource;
                                        Error := None |};
                      IsStatic := true |} in
        let* _ := cache_Store c ref res in
        ret (Result res, 0, None)
    end.

Definition runGlobalFunction (c : nat) (chunk : Chunk) (f : Function) (ref : Z)
    : M (option RawData * Z * option error) :=
  let (h, ok) := handleGlobalV1 (Id chunk) in
  if ok then
    match h with
    | None =>
        ret (None, 0,
             Some (errors_New ("found function " +:+ Id chunk +:+
               " but no handler. this should not happen and points to an implementation error")))
    | Some h =>
        let* (res, dref, err) := h c f ref in
        let* _ := match res with
                  | Some _ => cache_Store c ref {| Result := res; IsStatic := false |}
                  | None => ret tt
                  end in
        ret (res, dref, err)
    end
  else createResource c (Id chunk) f ref.

Definition connectRef (c : nat) (src dst : Z) : M (option RawData * Z * option error) :=
  let* exists_ := calls_Store c src dst in
  if exists_ : bool then ret (None, 0, None)
  else ret (None, src, None).

Definition runFunction (c : nat) (chunk : Chunk) (ref : Z)
    : M (option RawData * Z * option error) :=
  let f := default emptyFunction (Chunk_Function chunk) in
  if decide (DeprecatedV5Binding f = 0) then runGlobalFunction c chunk f ref
  else
    let* e := get_exec c in
    let (res, ok) := CacheV1.Load (DeprecatedV5Binding f) (cache e) in
    if negb ok then connectRef c (DeprecatedV5Binding f) ref
    else
      let* res := deref res in
      let* result := deref (Result res) in
      match Error result with
      | Some err =>
          let* _ := cache_Store c ref {| Result := Result res; IsStatic := false |} in
          ret (None, 0, Some err)
      | None => runBoundFunctionV1 c result chunk ref
      end.

Definition runChunk (c : nat) (chunk : Chunk) (ref : Z)
    : M (option RawData * Z * option error) :=
  match Call chunk with
  | Chunk_PRIMITIVE =>
      let* (res, dref, err) := resolveValue c (Chunk_Primitive chunk) ref in
      let* _ :=
        match res, err with
        | Some _, _ => cache_Store c ref {| Result := res; IsStatic := false |}
        | None, Some err =>
            cache_Store c ref
              {| Result := Some {| Typ := types_zero; Value := None; Error := Some err |};
                 IsStatic := false |}
        | None, None => ret tt
        end in
      ret (res, dref, err)
  | Chunk_FUNCTION => runFunction c chunk ref
  | Chunk_PROPERTY =>
      let* e := get_exec c in
      match props e !! Id chunk with
      | None =>
          ret (None, 0, Some (errors_New ("cannot find property '" +:+ Id chunk +:+ "'")))
      | Some property =>
          let* (res, dref, err) := resolveValue c property ref in
          if bool_decide (dref ≠ 0 ∨ err ≠ None) then ret (res, dref, err)
          else
            let* _ := cache_Store c ref {| Result := res; IsStatic := false |} in
            ret (res, dref, err)
      end
  | Chunk_unknown _ =>
      ret (None, 0,
           Some (errors_New ("Tried to run a chunk which has an unknown type: " +:+
                             Chunk_Call_String (Call chunk))))
  end.

Definition runRef (c : nat) (ref : Z) : M (option RawData * Z * option error) :=
  let* e := get_exec c in
  match slice_index (Code (code e)) (int32 (ref - 1)) with
  | None => panic "index out of range"
  | Some None =>
      ret (None, 0,
           Some (errors_New ("Called a chunk that doesn't exist, ref = " +:+ FormatInt ref)))
  | Some (Some chunk) => runChunk c chunk ref
  end.

(** *** The chain walk

    One iteration of the loop of [runChain] either ends the walk
    ([return] and [break]) or names the ref of the next iteration. *)

Inductive loop_ctl :=
| loop_done
| loop_next (nextRef : Z) (remaining : list Z).

(** Where the walk goes when the chunk named no next ref: to the first
    ref registered against the current one, the others joining the end
    of the queue; else to the head of the queue; else nowhere. *)
Definition next_in_chain (nextRefs remaining : list Z) : loop_ctl :=
  match nextRefs with
  | next :: rest => loop_next next (remaining ++ rest)
  | [] =>
      match remaining with
      | [] => loop_done
      | next :: rest => loop_next next rest
      end
  end.

(** The end of an iteration: "get the next reference, if we are not
    directed anywhere". *)
Definition advance (c : nat) (curRef nextRef : Z) (remaining : list Z) : M loop_ctl :=
  if decide (nextRef = 0) then
    let* e := get_exec c in
    ret (next_in_chain (CallsV1.Load curRef (calls e)).1 remaining)
  else ret (loop_next nextRef remaining).

(** What the walk does with an error that came without a result.
    [c.callback(r)] is taken as a parameter here: it is defined below,
    together with the loop. *)
Definition deliver_error (invoke : nat → RawResult → M unit)
    (c : nat) (curRef : Z) (err : error) : M unit :=
  let* e := get_exec c in
  match callbackPoints e !! curRef with
  | Some codeID => invoke c (errorResult err codeID)
  | None => ret tt
  end.

Definition cache_error (c : nat) (curRef : Z) (err : error) : M unit :=
  let* e := get_exec c in
  match (CacheV1.Load curRef (cache e)).1 with
  | None =>
      cache_Store c curRef
        {| Result := Some {| Typ := types_Unset; Value := None; Error := Some err |};
           IsStatic := false |}
  | Some _ => ret tt
  end.

Definition runChain_visit (invoke : nat → RawResult → M unit)
    (c : nat) (curRef : Z) (remaining : list Z) : M loop_ctl :=
  let* e := get_exec c in
  let (cached, ok) := CacheV1.Load curRef (cache e) in
  let* (res, nextRef, err) :=
    if ok then
      let* cached := deref cached in
      ret (Result cached, 0, None)
    else runRef c curRef in
  if bool_decide (res = None ∧ nextRef = 0 ∧ err = None) then ret loop_done
  else
    let* _ :=
      match res, err with
      | Some r, _ =>
          let* e := get_exec c in
          match callbackPoints e !! curRef with
          | Some codeID => invoke c {| Data := Some r; CodeID := codeID |}
          | None => ret tt
          end
      | None, Some err =>
          let* _ := deliver_error invoke c curRef err in
          if isNotReadyError err then ret tt else cache_error c curRef err
      | None, None => ret tt
      end in
    advance c curRef nextRef remaining.

(** One iteration: the ref is marked in the step tracker, then visited. *)
Definition runChain_body (invoke : nat → RawResult → M unit)
    (c : nat) (curRef : Z) (remaining : list Z) : M loop_ctl :=
  let* _ := update_exec c
              (λ e, set_stepTracker (CacheV1.Store curRef None (stepTracker e)) e) in
  runChain_visit invoke c curRef remaining.

(** *** Forward propagation *)

Definition triggerChain_body (invoke : nat → RawResult → M unit)
    (chain : nat → Z → M unit) (c : nat) (ref : Z) (data : option RawData) : M unit :=
  let* e := get_exec c in
  let* _ :=
    match callbackPoints e !! ref with
    | Some codeID => invoke c {| Data := data; CodeID := codeID |}
    | None => ret tt
    end in
  let* e := get_exec c in
  let (nxt, ok) := CallsV1.Load ref (calls e) in
  if ok then
    match nxt with
    | [] => panic "internal state error: cannot trigger next call on chain because it points to a zero ref"
    | _ => for_each (chain c) nxt
    end
  else
    let* e := get_exec c in
    let codeID := default "" (callbackPoints e !! ref) in
    let (res, ok) := CacheV1.Load ref (cache e) in
    if negb ok then
      invoke c (errorResultMsg
                  ("exec> cannot find results to chunk reference " +:+ FormatInt ref) codeID)
    else
      let* res := deref res in
      invoke c {| Data := Result res; CodeID := codeID |}.

(** *** The closure of [runBlock] *)

(** [len(fun.Entrypoints) + len(fun.Datapoints)] *)
Definition expectedCnt (fun_ : CodeV1) : nat :=
  (length (Entrypoints fun_) + length (Datapoints fun_))%nat.

(** The entry the closure adds under "_": the receiver, when its type
    is a resource type and its payload casts to [lumi.ResourceType]. *)
Definition receiver_field (bind : option RawData) : option RawData :=
  match bind with
  | Some bd =>
      if IsResource (Typ bd) then
        match Value bd with
        | Some (Resource_value rr) =>
            Some {| Typ := Typ bd; Value := Some (Resource_value rr); Error := None |}
        | _ => None
        end
      else None
  | None => None
  end.

(** What one call of the closure does to its two captured variables,
    and whether it resolves the parent ref.  [None] is the panic of
    reading [res.Data.Error] through a nil [res.Data]. *)
Definition block_collect (fun_ : CodeV1) (bind : option RawData) (res : RawResult)
    (b : blockClosure) : option (blockClosure * bool) :=
  anyError' ←
    match blockResult b !! CodeID res with
    | Some _ => Some (anyError b)
    | None =>
        d ← Data res;
        Some (match Error d with
              | Some e => Some (multierror_Append (anyError b) e)
              | None => anyError b
              end)
    end;
  let blockResult' := <[CodeID res := Data res]> (blockResult b) in
  if decide (size blockResult' = expectedCnt fun_) then
    Some ({| blockResult := match receiver_field bind with
                            | Some rr => <["_" := Some rr]> blockResult'
                            | None => blockResult'
                            end;
             anyError := anyError' |}, true)
  else Some ({| blockResult := blockResult'; anyError := anyError' |}, false).

(** The closure's variables after the results [rs] have reached it one
    after the other. *)
Fixpoint block_deliveries (fun_ : CodeV1) (bind : option RawData)
    (rs : list RawResult) (b : blockClosure) : option blockClosure :=
  match rs with
  | [] => Some b
  | r :: rest =>
      match block_collect fun_ bind r b with
      | Some (b', _) => block_deliveries fun_ bind rest b'
      | None => None
      end
  end.

Definition block_callback_body (trigger : nat → Z → option RawData → M unit)
    (parent : nat) (fun_ : CodeV1) (bind : option RawData) (ref : Z) (closure : nat)
    (res : RawResult) : M unit :=
  if SingleValue fun_ then
    let* _ := cache_Store parent ref {| Result := Data res; IsStatic := false |} in
    trigger parent ref (Data res)
  else
    let* b := get_closure closure in
    let* (b', resolved) := deref (block_collect fun_ bind res b) in
    let* _ := put_closure closure b' in
    if resolved : bool then
      let data := {| Typ := types_Block; Value := Some (Block_value closure);
                     Error := anyError b' |} in
      let* _ := cache_Store parent ref {| Result := Some data; IsStatic := true |} in
      trigger parent ref (Some data)
    else ret tt.

(** *** The loop, the callback and [triggerChain]

    They call each other; the fuel bounds the loop iterations and the
    depth of the calls. *)
Fixpoint runChain_loop (n : nat) (c : nat) (nextRef : Z) (remaining : list Z)
    {struct n} : M unit :=
  if decide (nextRef = 0) then ret tt
  else
    match n with
    | O => out_of_fuel
    | S n' =>
        let* ctl := runChain_body (invoke_callback n') c nextRef remaining in
        match ctl with
        | loop_done => ret tt
        | loop_next nextRef' remaining' => runChain_loop n' c nextRef' remaining'
        end
    end
with invoke_callback (n : nat) (c : nat) (r : RawResult) {struct n} : M unit :=
  let* e := get_exec c in
  match callback e with
  | caller_callback => λ w, Ok tt (set_delivered (delivered w ++ [(c, r)]) w)
  | decommissioned_callback => ret tt
  | block_callback parent fun_ bind ref closure =>
      match n with
      | O => out_of_fuel
      | S n' => block_callback_body (triggerChain n') parent fun_ bind ref closure r
      end
  end
with triggerChain (n : nat) (c : nat) (ref : Z) (data : option RawData)
    {struct n} : M unit :=
  match n with
  | O => out_of_fuel
  | S n' =>
      triggerChain_body (invoke_callback n') (λ c' start, runChain_loop n' c' start [])
        c ref data
  end.

Definition runChain (n : nat) (c : nat) (start : Z) : M unit :=
  runChain_loop n c start [].

(** *** [Run] *)

(** The refs of the callback record, as
    [sort.Slice(refs, func(i, j int) bool { return refs[i] > refs[j] })]
    leaves them. *)
Definition sorted_refs (callbackPoints : gmap Z string) : list Z :=
  merge_sort ref_desc (map_to_list callbackPoints).*1.

(** The body of the loop of [Run]: a ref the step tracker holds is
    skipped. *)
Definition Run_ref (n c : nat) (ref : Z) : M unit :=
  let* e := get_exec c in
  if (CacheV1.Load ref (stepTracker e)).2 then ret tt else runChain n c ref.

Definition Run (n : nat) (c : nat) : M unit :=
  let* e := get_exec c in
  for_each (Run_ref n c) (sorted_refs (callbackPoints e)).

(** *** Construction *)

(** The two registration loops of [NewExecutorV1] over
    [code.Entrypoints] and [code.Datapoints]. *)
Fixpoint register_entrypoints (checksums : gmap Z string) (refs : list Z)
    (entrypoints : gset Z) (callbackPoints : gmap Z string)
    : error + gset Z * gmap Z string :=
  match refs with
  | [] => inr (entrypoints, callbackPoints)
  | ref :: rest =>
      let id := default "" (checksums !! ref) in
      if decide (id = "") then
        inl (errors_New "llx.executor> cannot execute with invalid ref ID in entrypoint")
      else if decide (ref < 1) then
        inl (errors_New "llx.executor> cannot execute with invalid ref number in entrypoint")
      else register_entrypoints checksums rest
             ({[ref]} ∪ entrypoints) (<[ref := id]> callbackPoints)
  end.

Fixpoint register_datapoints (checksums : gmap Z string) (refs : list Z)
    (callbackPoints : gmap Z string) : error + gmap Z string :=
  match refs with
  | [] => inr callbackPoints
  | ref :: rest =>
      let id := default "" (checksums !! ref) in
      if decide (id = "") then
        inl (errors_New "llx.executor> cannot execute with invalid ref ID in datapoint")
      else if decide (ref < 1) then
        inl (errors_New "llx.executor> cannot execute with invalid ref number in datapoint")
      else register_datapoints checksums rest (<[ref := id]> callbackPoints)
  end.

(** Placing a new executor in the store, at an unused address. *)
Definition alloc_exec (e : LeiseExecutorV1) : M nat :=
  λ w, let a := fresh (dom (executors w)) in
       Ok a (set_executors (<[a := e]> (executors w)) w).

Definition alloc_closure (b : blockClosure) : M nat :=
  λ w, let a := fresh (dom (closures w)) in
       Ok a (set_closures (<[a := b]> (closures w)) w).

(** [NewExecutorV1]; the executor enters the store once it is valid. *)
Definition NewExecutorV1 (code : option CodeV1) (runtime : Runtime_ptr)
    (props : gmap string (option Primitive)) (callback : ResultCallback)
    : M (option nat * option error) :=
  match runtime, code with
  | nil_runtime, _ =>
      ret (None, Some (errors_New "cannot exec leise without a runtime"))
  | _, None =>
      ret (None, Some (errors_New "cannot RunChunky without code"))
  | the_runtime, Some code =>
      let* id := uuid_NewV4 in
      match register_entrypoints (Checksums code) (Entrypoints code) ∅ ∅ with
      | inl err => ret (None, Some err)
      | inr (entrypoints, callbackPoints) =>
          match register_datapoints (Checksums code) (Datapoints code) callbackPoints with
          | inl err => ret (None, Some err)
          | inr callbackPoints =>
              if decide (size callbackPoints = 0%nat) then
                ret (None, Some (errors_New "llx.executor> no callback points found"))
              else
                let* res := alloc_exec
                  {| exec_id := id; watcherIds := ∅; blockExecutors := [];
                     runtime := runtime; code := code; entrypoints := entrypoints;
                     callbackPoints := callbackPoints; callback := callback;
                     cache := ∅; stepTracker := ∅; calls := ∅; starts := [];
                     props := props |} in
                ret (Some res, None)
          end
      end
  end.

(** *** Blocks *)

(** [for i := range args { executor.cache.Store(int32(i+1), ...) }] *)
Fixpoint seed_args (executor : nat) (i : nat) (args : list (option RawData)) : M unit :=
  match args with
  | [] => ret tt
  | a :: rest =>
      let* _ := cache_Store executor (int32 (Z.of_nat i + 1))
                  {| Result := a; IsStatic := true |} in
      seed_args executor (S i) rest
  end.

Definition runFunctionBlock (n : nat) (c : nat) (args : list (option RawData))
    (code : CodeV1) (cb : ResultCallback) : M (option error) :=
  let* e := get_exec c in
  let* (executor, err) := NewExecutorV1 (Some code) (runtime e) (props e) cb in
  match err with
  | Some err => ret (Some err)
  | None =>
      let* executor := deref executor in
      let* _ := update_exec c
                  (λ e, set_blockExecutors (blockExecutors e ++ [executor]) e) in
      let* _ := seed_args executor 0 args in
      let* _ := Run n executor in
      ret None
  end.

(** The loop of [runBlock] that resolves the arguments: it stops at the
    first argument that yields an error or a ref to run first. *)
Fixpoint resolve_args (c : nat) (ref : Z) (args : list (option Primitive))
    (fargs : list (option RawData))
    : M (list (option RawData) + option RawData * Z * option error) :=
  match args with
  | [] => ret (inl fargs)
  | arg :: rest =>
      let* (a, b, err) := resolveValue c arg ref in
      if bool_decide (err ≠ None ∨ b ≠ 0) then ret (inr (a, b, err))
      else resolve_args c ref rest (fargs ++ [a])
  end.

Definition runBlock (n : nat) (c : nat) (bind : option RawData)
    (functionRef : option Primitive) (args : list (option Primitive)) (ref : Z)
    : M (option RawData * Z * option error) :=
  let call : M (option RawData * Z * option error) :=
    let* functionRef := deref functionRef in
    if negb (IsFunction (Primitive_Type functionRef)) then
      ret (None, 0, Some (errors_New "called block with wrong function type"))
    else
      let (fref, ok) := RefV1 functionRef in
      if negb ok then
        ret (None, 0, Some (errors_New "cannot retrieve function reference on block call"))
      else
        let* e := get_exec c in
        match slice_index (Functions (code e)) (int32 (fref - 1)) with
        | None => panic "index out of range"
        | Some None => ret (None, 0, Some (errors_New "block function is nil"))
        | Some (Some fun_) =>
            let fargs := match bind with Some _ => [bind] | None => [] end in
            let* r := resolve_args c ref args fargs in
            match r with
            | inr early => ret early
            | inl fargs =>
                let* closure := alloc_closure {| blockResult := ∅; anyError := None |} in
                let* err := runFunctionBlock n c fargs fun_
                              (block_callback c fun_ bind ref closure) in
                ret (None, 0, err)
            end
        end in
  match bind with
  | Some b =>
      if bool_decide (Value b = None ∧ Typ b ≠ types_Nil) then
        ret (Some {| Typ := Typ b; Value := None; Error := None |}, 0, None)
      else call
  | None => call
  end.

(** *** Teardown *)

(** [c.watcherIds.Range(...)]: every key is visited, since the function
    passed to [Range] always returns true.  Each failure adds one error
    to the list. *)
Fixpoint cancel_watchers (c : nat) (keys : list string) (errorList : list error)
    : M (list error) :=
  match keys with
  | [] => ret errorList
  | key :: rest =>
      let* err := on_runtime c (runtime_Unregister key) in
      cancel_watchers c rest
        (match err with Some err => errorList ++ [err] | None => errorList end)
  end.

(** [for idx := range c.blockExecutors { ... }], with the teardown of
    one block passed in. *)
Fixpoint unregister_blocks (unregister : nat → M (option error))
    (blocks : list nat) (errorList : list error) : M (list error) :=
  match blocks with
  | [] => ret errorList
  | b :: rest =>
      let* err := unregister b in
      unregister_blocks unregister rest
        (match err with Some err => errorList ++ [err] | None => errorList end)
  end.

Fixpoint Unregister (n : nat) (c : nat) {struct n} : M (option error) :=
  match n with
  | O => out_of_fuel
  | S n' =>
      let* _ := update_exec c (set_callback decommissioned_callback) in
      let* e := get_exec c in
      let* errorList := unregister_blocks (Unregister n') (blockExecutors e) [] in
      let* e := get_exec c in
      let* errorList := cancel_watchers c (elements (watcherIds e)) errorList in
      if decide (0 < length errorList)%nat then
        ret (Some (errors_New "multiple errors unregistering"))
      else ret None
  end.

(** *** What a teardown is expected to reach *)

(** The watch keys of the executor at [c] and of the block executors
    below it, in the order [Unregister] walks them: the blocks first,
    then the executor's own watches. *)
Fixpoint teardown_keys (n : nat) (w : World) (c : nat) : list string :=
  match n with
  | O => []
  | S n' =>
      match executors w !! c with
      | Some e =>
          concat (teardown_keys n' w <$> blockExecutors e) ++ elements (watcherIds e)
      | None => []
      end
  end.

(** The executor at [c] and the block executors below it. *)
Fixpoint teardown_nodes (n : nat) (w : World) (c : nat) : list nat :=
  match n with
  | O => []
  | S n' =>
      match executors w !! c with
      | Some e => c :: concat (teardown_nodes n' w <$> blockExecutors e)
      | None => []
      end
  end.

(** Asking the provider to cancel each key in turn, whatever the
    answers: the errors it gave and the state it is left in. *)
Fixpoint cancel_all (keys : list string) (p : lumi_Runtime) : list error * lumi_Runtime :=
  match keys with
  | [] => ([], p)
  | key :: rest =>
      let r := runtime_Unregister key p in
      let rs := cancel_all rest r.2 in
      (match r.1 with Some err => err :: rs.1 | None => rs.1 end, rs.2)
  end.

(** The executor at [c] owns a tree of block executors of height below
    [h], all holding the provider. *)
Fixpoint owns_tree (w : World) (h : nat) (c : nat) : Prop :=
  match h with
  | O => False
  | S h' =>
      ∃ e, executors w !! c = Some e ∧ runtime e = the_runtime ∧
           Forall (owns_tree w h') (blockExecutors e)
  end.

(** The combined error the specification of teardown speaks of: all
    errors merged into one, as [multierror.Append] builds it in
    [runBlock]. *)
Definition merged (errs : list error) : option error :=
  foldl (λ acc err, Some (multierror_Append acc err)) None errs.

(** *** The remaining methods *)

(** [c.id + "\x00" + strconv.FormatInt(int64(ref), 10)] *)
Definition watcherUID (e : LeiseExecutorV1) (ref : Z) : string :=
  exec_id e +:+ String Ascii.zero "" +:+ FormatInt ref.

(** [NoRun].  Go visits the keys of [c.callbackPoints] in an order it
    does not specify: [order] is that order. *)
Definition NoRun (n : nat) (order : list Z) (c : nat) (err : error) : M unit :=
  for_each
    (λ ref,
       let* e := get_exec c in
       match callbackPoints e !! ref with
       | Some codeID => invoke_callback n c (errorResult err codeID)
       | None => ret tt
       end)
    order.

(** One iteration of the loop of [triggerChainError].  When no edge
    list is found for [cur] and refs are queued, the head of the queue
    is taken, and the test on the missing edge list that follows
    panics. *)
Definition triggerChainError_body (invoke : nat → RawResult → M unit)
    (c : nat) (cur : Z) (remaining : list Z) (err : error) : M loop_ctl :=
  let* e := get_exec c in
  let* _ :=
    match callbackPoints e !! cur with
    | Some codeID =>
        invoke c {| Data := Some {| Typ := types_zero; Value := None; Error := Some err |};
                    CodeID := codeID |}
    | None => ret tt
    end in
  let* e := get_exec c in
  let (nxt, ok) := CallsV1.Load cur (calls e) in
  match ok, remaining with
  | false, [] => ret loop_done
  | _, _ =>
      let remaining := if ok then remaining else tail remaining in
      match nxt with
      | [] => panic "internal state error: cannot trigger next call on chain because it points to a zero ref"
      | next :: rest => ret (loop_next next (remaining ++ rest))
      end
  end.

Fixpoint triggerChainError_loop (n : nat) (c : nat) (cur : Z) (remaining : list Z)
    (err : error) : M unit :=
  if decide (0 < cur) then
    match n with
    | O => out_of_fuel
    | S n' =>
        let* ctl := triggerChainError_body (invoke_callback n') c cur remaining err in
        match ctl with
        | loop_done => ret tt
        | loop_next cur' remaining' => triggerChainError_loop n' c cur' remaining' err
        end
    end
  else ret tt.

Definition triggerChainError (n : nat) (c : nat) (ref : Z) (err : error) : M unit :=
  triggerChainError_loop n c ref [] err.

End executor.

(** ** Vocabulary of the properties *)

Section vocabulary.
Context `{CO : Collab}.

(** The store once the walk has marked [curRef] in the step tracker. *)
Definition entered (c : nat) (curRef : Z) (e : LeiseExecutorV1) (w : World) : World :=
  set_executors
    (<[c := set_stepTracker (CacheV1.Store curRef None (stepTracker e)) e]> (executors w)) w.

(** The store once the caller's callback has received [err] for
    [curRef], if [curRef] is in the callback record. *)
Definition error_delivered (c : nat) (curRef : Z) (err : error)
    (e : LeiseExecutorV1) (w : World) : World :=
  match callbackPoints e !! curRef with
  | Some codeID => set_delivered (delivered w ++ [(c, errorResult err codeID)]) w
  | None => w
  end.

(** The store once the walk has cached [err] at [curRef], which it does
    only where the cache holds nothing. *)
Definition error_cached (c : nat) (curRef : Z) (err : error)
    (e : LeiseExecutorV1) (w : World) : World :=
  match (CacheV1.Load curRef (cache e)).1 with
  | None =>
      set_executors
        (<[c := set_cache
                  (CacheV1.Store curRef
                     (Some {| Result := Some {| Typ := types_Unset; Value := None;
                                                Error := Some err |};
                              IsStatic := false |}) (cache e)) e]> (executors w)) w
  | Some _ => w
  end.

(** What the field map holds, against the code IDs received so far:
    exactly those, or already more entries than the count the closure
    waits for. *)
Definition collected (fun_ : CodeV1) (ids : gset string) (b : blockClosure) : Prop :=
  dom (blockResult b) = ids ∨ (expectedCnt fun_ < size (blockResult b))%nat.

(** What a teardown may do to the store: the provider apart, nothing
    changes except that executors lose their callback. *)
Definition torn (w w' : World) : Prop :=
  closures w' = closures w ∧ delivered w' = delivered w ∧
  ∀ x, match executors w !! x with
       | Some e =>
           ∃ e', executors w' !! x = Some e' ∧
                 (e' = e ∨ e' = set_callback decommissioned_callback e)
       | None => executors w' !! x = None
       end.

Definition decommissioned (w : World) (x : nat) : Prop :=
  ∃ e, executors w !! x = Some e ∧ callback e = decommissioned_callback.

(** What a teardown has done once it returns: the provider was asked
    to cancel every one of [keys], in order, and each of [nodes] has
    lost its callback. *)
Definition teardown_post (w : World) (keys : list string) (nodes : list nat)
    (w' : World) : Prop :=
  torn w w' ∧
  provider w' = (cancel_all keys (provider w)).2 ∧
  Forall (decommissioned w') nodes.

Definition Unregister_returns (n : nat) (c : nat) (w : World) : Prop :=
  ∃ r w',
    Unregister n c w = Ok r w' ∧
    teardown_post w (teardown_keys n w c) (teardown_nodes n w c) w' ∧
    (r = None ↔ (cancel_all (teardown_keys n w c) (provider w)).1 = []) ∧
    (r = None ∨ r = Some (errors_New "multiple errors unregistering")).

(** No executor disappears, none changes its callback record, and no
    ref leaves a step tracker. *)
Definition keeps_tracker (w w' : World) : Prop :=
  ∀ c e, executors w !! c = Some e →
    ∃ e', executors w' !! c = Some e' ∧
          callbackPoints e' = callbackPoints e ∧
          dom (stepTracker e) ⊆ dom (stepTracker e').

Definition keeps {A} (m : M A) : Prop :=
  ∀ w a w', m w = Ok a w' → keeps_tracker w w'.

Definition tracked (c : nat) (ref : Z) (w : World) : Prop :=
  ∃ e, executors w !! c = Some e ∧ is_Some (stepTracker e !! ref).

(** The functions of the other files leave callback records and step
    trackers alone: in llx_v1.go only [NewExecutorV1] writes the first
    and only [runChain] the second. *)
Class Collab_keeps_tracker := {
  resolveValue_keeps c p ref : keeps (resolveValue c p ref);
  runBoundFunctionV1_keeps c bind chunk ref :
    keeps (runBoundFunctionV1 c bind chunk ref);
  handleGlobalV1_keeps id h ok c f ref :
    handleGlobalV1 id = (Some h, ok) → keeps (h c f ref);
  args2resourceargsV1_keeps c ref args : keeps (args2resourceargsV1 c ref args);
}.

(** An entrypoint or datapoint that [NewExecutorV1] accepts: it has a
    checksum and its ref is at least 1. *)
Definition valid_point (checksums : gmap Z string) (ref : Z) : Prop :=
  default "" (checksums !! ref) ≠ "" ∧ 1 ≤ ref.

(** The callback record [NewExecutorV1] builds from the refs it is
    given. *)
Definition record_of (checksums : gmap Z string) (refs : list Z) : gmap Z string :=
  foldl (λ points ref, <[ref := default "" (checksums !! ref)]> points) ∅ refs.

(** An executor only gains: its code, callback record, callback and
    properties stay; watches, block executors, cached refs, tracked refs
    and edges are added, never removed. *)
Definition exec_grows (e e' : LeiseExecutorV1) : Prop :=
  exec_id e' = exec_id e ∧ runtime e' = runtime e ∧ code e' = code e ∧
  entrypoints e' = entrypoints e ∧ callbackPoints e' = callbackPoints e ∧
  callback e' = callback e ∧ props e' = props e ∧ starts e' = starts e ∧
  watcherIds e ⊆ watcherIds e' ∧
  blockExecutors e `prefix_of` blockExecutors e' ∧
  dom (cache e) ⊆ dom (cache e') ∧
  dom (stepTracker e) ⊆ dom (stepTracker e') ∧
  ∀ k l, calls e !! k = Some l → ∃ l', calls e' !! k = Some l' ∧ l `prefix_of` l'.

(** The store only gains: executors and closures stay, executors grow,
    and what was delivered stays delivered. *)
Definition grows (w w' : World) : Prop :=
  (∀ c e, executors w !! c = Some e →
          ∃ e', executors w' !! c = Some e' ∧ exec_grows e e') ∧
  dom (closures w) ⊆ dom (closures w') ∧
  delivered w `prefix_of` delivered w'.

Definition monotone {A} (m : M A) : Prop :=
  ∀ w a w', m w = Ok a w' → grows w w'.

(** The functions of the other files only add to the store as well. *)
Class Collab_monotone := {
  resolveValue_monotone c p ref : monotone (resolveValue c p ref);
  runBoundFunctionV1_monotone c bind chunk ref :
    monotone (runBoundFunctionV1 c bind chunk ref);
  handleGlobalV1_monotone id h ok c f ref :
    handleGlobalV1 id = (Some h, ok) → monotone (h c f ref);
  args2resourceargsV1_monotone c ref args : monotone (args2resourceargsV1 c ref args);
  uuid_NewV4_monotone : monotone uuid_NewV4;
}.

(** The receiver does not end the call of a block at once: it is nil,
    or it is not a null value of a type other than Nil. *)
Definition calls_block (bind : option RawData) : Prop :=
  match bind with
  | Some b => ¬ (Value b = None ∧ Typ b ≠ types_Nil)
  | None => True
  end.

(** A chain of refs, each registered as the only dependent of the one
    before, the last with no dependent. *)
Fixpoint linear_chain (calls : gmap Z (list Z)) (ref : Z) (rest : list Z) : Prop :=
  0 < ref ∧
  match rest with
  | [] => calls !! ref = None
  | next :: rest' => calls !! ref = Some [next] ∧ linear_chain calls next rest'
  end.

(** The results [triggerChainError] and [NoRun] hand out for [refs]:
    one for each that is in the callback record. *)
Definition error_results (c : nat) (points : gmap Z string) (mk : string → RawResult)
    (refs : list Z) : list (nat * RawResult) :=
  omap (λ ref, (λ codeID, (c, mk codeID)) <$> points !! ref) refs.

End vocabulary.

(** ** A small provider to run the executor against

    Types are a handful of tags, resources are their names, the provider
    logs the calls it receives.  Creating "host" is not ready, creating
    "fail" fails for good, cancelling a watch whose key starts with '!'
    fails. *)

Module Demo.

Inductive type :=
| T_zero | T_unset | T_nil | T_block | T_int | T_function
| T_resource (name : string).

#[global] Instance type_eq : EqDecision type := ltac:(solve_decision).

Inductive primitive :=
| P_int (z : Z)
| P_function (fref : Z).

#[global] Instance types : ExternTypes := {|
  types_Type := type;
  types_Nil := T_nil;
  types_Unset := T_unset;
  types_zero := T_zero;
  types_Block := T_block;
  types_Resource := T_resource;
  IsFunction := λ t, match t with T_function => true | _ => false end;
  IsResource := λ t, match t with T_resource _ => true | _ => false end;
  lumi_ResourceType := string;
  Opaque_value := Z;
  Primitive := primitive;
  Primitive_Type := λ p, match p with P_int _ => T_int | P_function _ => T_function end;
  RefV1 := λ p, match p with P_function r => (r, true) | _ => (0, false) end;
  lumi_Runtime := list string;
|}.

Definition error_data (err : error) : RawData :=
  {| Typ := T_zero; Value := None; Error := Some err |}.

Definition int_data (z : Z) : RawData :=
  {| Typ := T_int; Value := Some (Other_value z); Error := None |}.

Definition resolve (c : nat) (p : option Primitive) (ref : Z)
    : M (option RawData * Z * option error) :=
  match p with
  | Some (P_int z) => ret (Some (int_data z), 0, None)
  | _ => ret (None, 0, Some (errors_New "cannot resolve"))
  end.

Definition create (name : string) (args : list (option payload)) (rt : list string)
    : (option string * option error) * list string :=
  (if decide (name = "host") then (None, Some lumi_NotReadyError)
   else if decide (name = "fail") then (None, Some (errors_New "boom"))
   else (Some name, None),
   rt ++ ["create " +:+ name]).

Definition cancel (key : string) (rt : list string) : option error * list string :=
  (if String.prefix "!" key then Some (errors_New ("cannot cancel " +:+ key))
   else None,
   rt ++ ["cancel " +:+ key]).

#[global] Instance collab : Collab := {|
  resolveValue := resolve;
  runBoundFunctionV1 := λ c bind chunk ref, ret (Some bind, 0, None);
  handleGlobalV1 := λ _, (None, false);
  args2resourceargsV1 := λ c ref args, ret ([], 0, None);
  runtime_CreateResource := create;
  runtime_Unregister := cancel;
  errorResult := λ err codeID, {| Data := Some (error_data err); CodeID := codeID |};
  errorResultMsg := λ msg codeID,
    {| Data := Some (error_data (errors_New msg)); CodeID := codeID |};
  emptyFunction := {| DeprecatedV5Binding := 0; Args := [] |};
  uuid_NewV4 := ret "00000000-0000-4000-8000-000000000000";
  Chunk_Call_String := λ call,
    match call with
    | Chunk_PRIMITIVE => "PRIMITIVE"
    | Chunk_FUNCTION => "FUNCTION"
    | Chunk_PROPERTY => "PROPERTY"
    | Chunk_unknown n => pretty n
    end;
|}.

Definition program (chunks : list (option Chunk)) (entry : list Z)
    (checksums : gmap Z string) : CodeV1 :=
  {| Code := chunks; Entrypoints := entry; Datapoints := [];
     Checksums := checksums; Functions := []; SingleValue := false |}.

Definition call (id : string) (binding : Z) : Chunk :=
  {| Call := Chunk_FUNCTION; Id := id; Chunk_Primitive := None;
     Chunk_Function := Some {| DeprecatedV5Binding := binding; Args := [] |} |}.

Definition property (name : string) : Chunk :=
  {| Call := Chunk_PROPERTY; Id := name; Chunk_Primitive := None;
     Chunk_Function := None |}.

Definition literal (z : Z) : Chunk :=
  {| Call := Chunk_PRIMITIVE; Id := ""; Chunk_Primitive := Some (P_int z);
     Chunk_Function := None |}.

(** An executor as [NewExecutorV1] leaves it, for a program whose
    entrypoints are the keys of [points]. *)
Definition executor (code : CodeV1) (points : gmap Z string) : LeiseExecutorV1 :=
  {| exec_id := "exec"; watcherIds := ∅; blockExecutors := [];
     runtime := the_runtime; code := code; entrypoints := dom points;
     callbackPoints := points; callback := caller_callback;
     cache := ∅; stepTracker := ∅; calls := ∅; starts := []; props := ∅ |}.

Definition world (e : LeiseExecutorV1) : World :=
  {| executors := {[ 0%nat := e ]}; closures := ∅; provider := [];
     delivered := [] |}.

(** ref 1 = host(), an entrypoint. *)
Definition host_executor : LeiseExecutorV1 :=
  executor (program [Some (call "host" 0)] [1] {[ 1 := "chk1" ]}) {[ 1 := "chk1" ]}.

Definition host_world : World := world host_executor.

(** ref 1 = 5, ref 2 = add() bound to ref 1, an entrypoint. *)
Definition add_program : CodeV1 :=
  program [Some (literal 5); Some (call "add" 1)] [2] {[ 2 := "chk2" ]}.

Definition add_executor : LeiseExecutorV1 :=
  executor add_program {[ 2 := "chk2" ]}.

(** The same executor once ref 1 has failed. *)
Definition failed_receiver : LeiseExecutorV1 :=
  set_cache {[ 1 := Some {| Result := Some (error_data (errors_New "boom"));
                            IsStatic := false |} ]} add_executor.

(** ref 1 = the property "x", an entrypoint; no property is bound. *)
Definition property_executor : LeiseExecutorV1 :=
  executor (program [Some (property "x")] [1] {[ 1 := "chk1" ]}) {[ 1 := "chk1" ]}.

Definition property_world : World := world property_executor.

(** ref 1 = fail(), an entrypoint. *)
Definition fail_executor : LeiseExecutorV1 :=
  executor (program [Some (call "fail" 0)] [1] {[ 1 := "chk1" ]}) {[ 1 := "chk1" ]}.

Definition fail_world : World := world fail_executor.

(** A block with two datapoints: ref 1 is the receiver, ref 2 = 7 with
    code ID "a", ref 3 = 8 with code ID "b". *)
Definition fields : CodeV1 :=
  {| Code := [None; Some (literal 7); Some (literal 8)]; Entrypoints := [];
     Datapoints := [2; 3]; Checksums := {[ 2 := "a"; 3 := "b" ]};
     Functions := []; SingleValue := false |}.

(** ref 1 = mount(), ref 2 = the block [fields] on ref 1, an entrypoint. *)
Definition block_executor : LeiseExecutorV1 :=
  executor
    {| Code := [Some (call "mount" 0); None]; Entrypoints := [2]; Datapoints := [];
       Checksums := {[ 2 := "chk2" ]}; Functions := [Some fields];
       SingleValue := false |}
    {[ 2 := "chk2" ]}.

Definition mount : RawData :=
  {| Typ := T_resource "mount"; Value := Some (Resource_value "mount");
     Error := None |}.

(** ref 1 = 5, an entrypoint, already resolved: the value is cached as
    static.  No ref depends on ref 1. *)
Definition resolved_executor : LeiseExecutorV1 :=
  set_cache {[ 1 := Some {| Result := Some (int_data 5); IsStatic := true |} ]}
    (executor (program [Some (literal 5)] [1] {[ 1 := "chk1" ]}) {[ 1 := "chk1" ]}).

(** ref 1 = 5, an entrypoint, resolved, and ref 2 registered against it. *)
Definition watched_executor : LeiseExecutorV1 :=
  set_calls {[ 1 := [2] ]}
    (set_cache {[ 1 := Some {| Result := Some (int_data 5); IsStatic := true |} ]}
       (executor (program [Some (literal 5); Some (call "add" 1)] [1] {[ 1 := "chk1" ]})
                 {[ 1 := "chk1" ]})).

(** An executor with two block executors, at addresses 1 and 2; the
    first holds a watch that cannot be cancelled, the second one that
    can. *)
Definition watching (key : string) (e : LeiseExecutorV1) : LeiseExecutorV1 :=
  {| exec_id := exec_id e; watcherIds := {[ key ]};
     blockExecutors := blockExecutors e; runtime := runtime e;
     code := code e; entrypoints := entrypoints e;
     callbackPoints := callbackPoints e; callback := callback e;
     cache := cache e; stepTracker := stepTracker e; calls := calls e;
     starts := starts e; props := props e |}.

Definition family : World :=
  {| executors :=
       {[ 0%nat := set_blockExecutors [1%nat; 2%nat] block_executor;
          1%nat := watching "!w1" (executor fields {[ 2 := "a"; 3 := "b" ]});
          2%nat := watching "w2" (executor fields {[ 2 := "a"; 3 := "b" ]}) ]};
     closures := ∅; provider := []; delivered := [] |}.

(** A receiver of type int whose payload is nil. *)
Definition null_int : RawData :=
  {| Typ := T_int; Value := None; Error := None |}.

(** ref 1 = 5, an entrypoint, resolved, with refs 2 and 3 registered
    against it. *)
Definition fanned_executor : LeiseExecutorV1 :=
  set_calls {[ 1 := [2; 3] ]} watched_executor.

(** [family] once it has been unregistered. *)
Definition family_torn : World :=
  {| executors :=
       {[ 0%nat := set_callback decommissioned_callback
                     (set_blockExecutors [1%nat; 2%nat] block_executor);
          1%nat := set_callback decommissioned_callback
                     (watching "!w1" (executor fields {[ 2 := "a"; 3 := "b" ]}));
          2%nat := set_callback decommissioned_callback
                     (watching "w2" (executor fields {[ 2 := "a"; 3 := "b" ]})) ]};
     closures := ∅; provider := ["cancel !w1"; "cancel w2"]; delivered := [] |}.

(** The same provider with two global functions: "now" has a handler
    that returns 0, "stub" is registered without a handler. *)
Definition globals : Collab := {|
  resolveValue := resolve;
  runBoundFunctionV1 := λ c bind chunk ref, ret (Some bind, 0, None);
  handleGlobalV1 := λ id,
    if decide (id = "now") then (Some (λ c f ref, ret (Some (int_data 0), 0, None)), true)
    else if decide (id = "stub") then (None, true)
    else (None, false);
  args2resourceargsV1 := λ c ref args, ret ([], 0, None);
  runtime_CreateResource := create;
  runtime_Unregister := cancel;
  errorResult := λ err codeID, {| Data := Some (error_data err); CodeID := codeID |};
  errorResultMsg := λ msg codeID,
    {| Data := Some (error_data (errors_New msg)); CodeID := codeID |};
  emptyFunction := {| DeprecatedV5Binding := 0; Args := [] |};
  uuid_NewV4 := ret "00000000-0000-4000-8000-000000000000";
  Chunk_Call_String := λ call,
    match call with
    | Chunk_PRIMITIVE => "PRIMITIVE"
    | Chunk_FUNCTION => "FUNCTION"
    | Chunk_PROPERTY => "PROPERTY"
    | Chunk_unknown n => pretty n
    end;
|}.

End Demo.

(** * Properties *)

(** ** The call graph *)

Lemma contains_spec (calls : list Z) (v : Z) :
  CallsV1.contains calls v = true ↔ v ∈ calls.
Proof.
  induction calls as [|x rest IH]; simpl.
  - split; [discriminate | intros H; inversion H].
  - destruct (decide (x = v)) as [->|Hne].
    + split; [intros _; left | reflexivity].
    + rewrite IH. split; [by right |].
      intros H. apply elem_of_cons in H as [->|H]; [done | exact H].
Qed.

Lemma contains_false (calls : list Z) (v : Z) :
  CallsV1.contains calls v = false ↔ v ∉ calls.
Proof.
  rewrite <- contains_spec. destruct (CallsV1.contains calls v); split; congruence.
Qed.

Lemma occurrences_not_in (v : Z) (l : list Z) :
  v ∉ l → CallsV1.occurrences v l = 0%nat.
Proof.
  unfold CallsV1.occurrences. induction l as [|x l IH]; intros Hv; [done |].
  apply not_elem_of_cons in Hv as [Hne Hv].
  rewrite filter_cons_False by congruence. by apply IH.
Qed.

Lemma occurrences_app (v : Z) (l k : list Z) :
  CallsV1.occurrences v (l ++ k) = (CallsV1.occurrences v l + CallsV1.occurrences v k)%nat.
Proof. unfold CallsV1.occurrences. by rewrite filter_app, length_app. Qed.

Lemma occurrences_NoDup (v : Z) (l : list Z) :
  NoDup l → v ∈ l → CallsV1.occurrences v l = 1%nat.
Proof.
  induction 1 as [|x l Hx Hl IH]; intros Hv; [inversion Hv |].
  unfold CallsV1.occurrences in *.
  destruct (decide (x = v)) as [->|Hne].
  - rewrite filter_cons_True by done. simpl. f_equal.
    by apply occurrences_not_in.
  - rewrite filter_cons_False by done. apply IH.
    apply elem_of_cons in Hv as [->|Hv]; [done | exact Hv].
Qed.

Lemma Store_dedup (k v : Z) (c : gmap Z (list Z)) :
  CallsV1.dedup c → CallsV1.dedup (CallsV1.Store k v c).2.
Proof.
  intros Hc. unfold CallsV1.Store.
  destruct (c !! k) as [calls|] eqn:Hk.
  - destruct (CallsV1.contains calls v) eqn:Hin; [exact Hc |].
    apply contains_false in Hin. simpl. intros k' l.
    destruct (decide (k = k')) as [<-|Hne].
    + rewrite lookup_insert_eq. intros [= <-].
      apply NoDup_app. split_and!; [by eapply Hc | | apply NoDup_singleton].
      intros x Hx Hx'. apply list_elem_of_singleton in Hx' as ->. done.
    + rewrite lookup_insert_ne by done. apply Hc.
  - simpl. intros k' l. destruct (decide (k = k')) as [<-|Hne].
    + rewrite lookup_insert_eq. intros [= <-]. apply NoDup_singleton.
    + rewrite lookup_insert_ne by done. apply Hc.
Qed.

Lemma built_dedup (c : gmap Z (list Z)) : CallsV1.built c → CallsV1.dedup c.
Proof.
  induction 1 as [|k v c _ IH].
  - intros k l Hk. by rewrite lookup_empty in Hk.
  - by apply Store_dedup.
Qed.

Lemma Store_present (k v : Z) (c : gmap Z (list Z)) (l : list Z) :
  c !! k = Some l → v ∈ l → CallsV1.Store k v c = (true, c).
Proof.
  intros Hk Hv. unfold CallsV1.Store. rewrite Hk.
  apply contains_spec in Hv. by rewrite Hv.
Qed.

Lemma Store_absent (k v : Z) (c : gmap Z (list Z)) :
  (∀ l, c !! k = Some l → v ∉ l) →
  CallsV1.Store k v c = (false, <[k := default [] (c !! k) ++ [v]]> c).
Proof.
  intros Hv. unfold CallsV1.Store.
  destruct (c !! k) as [calls|] eqn:Hk; [|done].
  specialize (Hv calls eq_refl). apply contains_false in Hv. by rewrite Hv.
Qed.

(** C3: [Connect(a,b)] is [CallsV1.Store a b] and [Edges(a)] is
    [CallsV1.Load a].  When the pair is already stored, [Store] returns
    true and leaves the graph as it is; when it is not, [Store] returns
    false and [a]'s edge list is the old one with [b] appended.  Hence, in
    any graph built by [Store] from the empty one, after two calls the
    second has returned true and [b] occurs exactly once among the edges
    of [a]. *)
Theorem Store_twice_one_edge (a b : Z) (c : gmap Z (list Z)) :
  CallsV1.built c →
  (∀ l, c !! a = Some l → b ∈ l → CallsV1.Store a b c = (true, c)) ∧
  ((∀ l, c !! a = Some l → b ∉ l) →
   CallsV1.Store a b c = (false, <[a := (CallsV1.Load a c).1 ++ [b]]> c) ∧
   CallsV1.Load a (CallsV1.Store a b c).2 = ((CallsV1.Load a c).1 ++ [b], true)) ∧
  (let c1 := (CallsV1.Store a b c).2 in
   CallsV1.Store a b c1 = (true, c1) ∧
   ∃ edges, CallsV1.Load a c1 = (edges, true) ∧ CallsV1.occurrences b edges = 1%nat).
Proof.
  intros Hbuilt. split_and!.
  - intros l Hl Hb. by eapply Store_present.
  - intros Hb. rewrite Store_absent by done.
    assert ((CallsV1.Load a c).1 = default [] (c !! a)) as ->.
    { unfold CallsV1.Load. by destruct (c !! a). }
    split; [done |]. simpl. unfold CallsV1.Load. by rewrite lookup_insert_eq.
  - simpl.
    assert (CallsV1.dedup (CallsV1.Store a b c).2) as Hd
      by (apply Store_dedup, built_dedup, Hbuilt).
    assert (∃ edges, (CallsV1.Store a b c).2 !! a = Some edges ∧ b ∈ edges)
      as (edges & Hedges & Hin).
    { unfold CallsV1.Store. destruct (c !! a) as [calls|] eqn:Ha.
      - destruct (CallsV1.contains calls b) eqn:Hc.
        + exists calls. split; [done | by apply contains_spec].
        + exists (calls ++ [b]). simpl. rewrite lookup_insert_eq.
          split; [done | set_solver].
      - exists ([] ++ [b]). simpl. rewrite lookup_insert_eq.
        split; [done | set_solver]. }
    split; [by eapply Store_present |].
    exists edges. unfold CallsV1.Load. rewrite Hedges. split; [done |].
    apply occurrences_NoDup; [by eapply Hd | done].
Qed.

Lemma Store_twice_one_edge_witness :
  let c := (CallsV1.Store 1 3 (CallsV1.Store 1 2 ∅).2).2 in
  let c1 := (CallsV1.Store 1 4 c).2 in
  CallsV1.built c ∧
  CallsV1.Store 1 4 c1 = (true, c1) ∧
  ∃ edges, CallsV1.Load 1 c1 = (edges, true) ∧ CallsV1.occurrences 4 edges = 1%nat.
Proof.
  assert (CallsV1.built (CallsV1.Store 1 3 (CallsV1.Store 1 2 ∅).2).2) as Hb
    by apply CallsV1.built_Store, CallsV1.built_Store, CallsV1.built_empty.
  split; [exact Hb |].
  apply (Store_twice_one_edge 1 4 (CallsV1.Store 1 3 (CallsV1.Store 1 2 ∅).2).2 Hb).
Defined.

(** ** Stepping through a computation *)

#[global] Arguments CallsV1.Store : simpl never.
#[global] Arguments CallsV1.Load : simpl never.
#[global] Arguments CacheV1.Store {_} _ _ _ : simpl never.
#[global] Arguments CacheV1.Load {_} _ _ : simpl never.
#[global] Arguments advance : simpl never.

Ltac exec_unfold :=
  unfold bind, ret, get_exec, update_exec, cache_Store, calls_Store, on_runtime,
    get_closure, put_closure, deref, panic.

(** Steps through the computation in the goal, reading the executor
    through the lookup [H]. *)
Ltac exec_run H :=
  repeat first [progress exec_unfold | rewrite H | progress simpl].

(** ** Bound calls *)

Section bound_calls.
Context `{CO : Collab}.

Lemma set_calls_id (e : LeiseExecutorV1) : set_calls (calls e) e = e.
Proof. by destruct e. Qed.

Lemma set_executors_id (w : World) : set_executors (executors w) w = w.
Proof. by destruct w. Qed.

Lemma update_exec_id (c : nat) (e : LeiseExecutorV1) (w : World) :
  executors w !! c = Some e →
  set_executors (<[c := e]> (executors w)) w = w.
Proof. intros H. rewrite insert_id by done. apply set_executors_id. Qed.

(** C5: a function chunk whose receiver ref has no cached value does not
    fail.  It stores the edge from the receiver ref to the current ref;
    if the edge is new the receiver ref comes back as the next ref to
    run, with no result and no error; if the edge was already there,
    nothing comes back (no result, no next ref, no error) and nothing
    has changed. *)
Theorem runChunk_unresolved_receiver (c : nat) (chunk : Chunk) (ref : Z)
    (e : LeiseExecutorV1) (w : World) :
  let receiver := DeprecatedV5Binding (default emptyFunction (Chunk_Function chunk)) in
  Call chunk = Chunk_FUNCTION →
  receiver ≠ 0 →
  executors w !! c = Some e →
  (CacheV1.Load receiver (cache e)).2 = false →
  ((∀ l, calls e !! receiver = Some l → ref ∉ l) →
   runChunk c chunk ref w =
     Ok (None, receiver, None)
        (set_executors
           (<[c := set_calls
                     (<[receiver := (CallsV1.Load receiver (calls e)).1 ++ [ref]]> (calls e))
                     e]> (executors w)) w)) ∧
  (∀ l, calls e !! receiver = Some l → ref ∈ l →
   runChunk c chunk ref w = Ok (None, 0, None) w).
Proof.
  intros receiver Hcall Hrecv He Hcache.
  assert (∀ r, CallsV1.Store receiver ref (calls e) = r →
    runChunk c chunk ref w =
      Ok (None, if r.1 then 0 else receiver, None)
         (set_executors (<[c := set_calls r.2 e]> (executors w)) w)) as Hrun.
  { intros r Hr. unfold runChunk. rewrite Hcall. unfold runFunction.
    fold receiver. destruct (decide (receiver = 0)) as [|_]; [done |].
    unfold bind at 1. unfold get_exec at 1. rewrite He.
    destruct (CacheV1.Load receiver (cache e)) as [res ok]. simpl in Hcache.
    subst ok. simpl. unfold connectRef. exec_run He. rewrite Hr.
    exec_run He. by destruct (r.1). }
  split.
  - intros Hnew. rewrite (Hrun _ (Store_absent _ _ _ Hnew)). simpl.
    do 4 f_equal. unfold CallsV1.Load. by destruct (calls e !! receiver).
  - intros l Hl Hin. rewrite (Hrun _ (Store_present _ _ _ _ Hl Hin)). simpl.
    by rewrite set_calls_id, update_exec_id.
Qed.

(** C6: a function chunk whose receiver ref has a cached value carrying
    an error stores that same result in the cache at its own ref and
    returns the same error.  Nothing else happens: the store afterwards
    is the one before with that single cache entry added, whatever the
    bound function would have done. *)
Theorem runChunk_receiver_error (c : nat) (chunk : Chunk) (ref : Z)
    (e : LeiseExecutorV1) (w : World) (res : stepCache) (result : RawData) (err : error) :
  let receiver := DeprecatedV5Binding (default emptyFunction (Chunk_Function chunk)) in
  Call chunk = Chunk_FUNCTION →
  receiver ≠ 0 →
  executors w !! c = Some e →
  CacheV1.Load receiver (cache e) = (Some res, true) →
  Result res = Some result →
  Error result = Some err →
  runChunk c chunk ref w =
    Ok (None, 0, Some err)
       (set_executors
          (<[c := set_cache
                    (<[ref := Some {| Result := Some result; IsStatic := false |}]> (cache e))
                    e]> (executors w)) w).
Proof.
  intros receiver Hcall Hrecv He Hcache Hres Herr.
  unfold runChunk. rewrite Hcall. unfold runFunction. fold receiver.
  destruct (decide (receiver = 0)) as [|_]; [done |].
  exec_run He. rewrite Hcache. exec_run He. rewrite Hres. exec_run He.
  rewrite Herr. by exec_run He.
Qed.

End bound_calls.

Lemma runChunk_unresolved_receiver_witness :
  runChunk 0 (Demo.call "add" 1) 2 (Demo.world Demo.add_executor) =
    Ok (None, 1, None)
       (set_executors {[ 0%nat := set_calls {[ 1 := [2] ]} Demo.add_executor ]}
          (Demo.world Demo.add_executor)) ∧
  runChunk 0 (Demo.call "add" 1) 2
      (Demo.world (set_calls {[ 1 := [2] ]} Demo.add_executor)) =
    Ok (None, 0, None) (Demo.world (set_calls {[ 1 := [2] ]} Demo.add_executor)).
Proof.
  split.
  - refine (proj1 (runChunk_unresolved_receiver 0 (Demo.call "add" 1) 2
      Demo.add_executor (Demo.world Demo.add_executor) eq_refl _ eq_refl eq_refl) _).
    + simpl. lia.
    + intros l Hl. vm_compute in Hl. discriminate.
  - refine (proj2 (runChunk_unresolved_receiver 0 (Demo.call "add" 1) 2
      (set_calls {[ 1 := [2] ]} Demo.add_executor)
      (Demo.world (set_calls {[ 1 := [2] ]} Demo.add_executor))
      eq_refl _ eq_refl eq_refl) [2] eq_refl _).
    + simpl. lia.
    + set_solver.
Defined.

Lemma runChunk_receiver_error_witness :
  runChunk 0 (Demo.call "add" 1) 2 (Demo.world Demo.failed_receiver) =
    Ok (None, 0, Some (errors_New "boom"))
       (set_executors
          (<[0%nat := set_cache
                (<[2 := Some {| Result := Some (Demo.error_data (errors_New "boom"));
                                IsStatic := false |}]> (cache Demo.failed_receiver))
                Demo.failed_receiver]> (executors (Demo.world Demo.failed_receiver)))
          (Demo.world Demo.failed_receiver)).
Proof.
  apply (runChunk_receiver_error 0 (Demo.call "add" 1) 2 Demo.failed_receiver
           (Demo.world Demo.failed_receiver)
           {| Result := Some (Demo.error_data (errors_New "boom")); IsStatic := false |}
           (Demo.error_data (errors_New "boom")) (errors_New "boom")).
  - reflexivity.
  - simpl. lia.
  - reflexivity.
  - reflexivity.
  - reflexivity.
  - reflexivity.
Defined.

(** ** Blocks *)

(** C10: when the receiver is not nil, holds a nil payload and has a type
    other than Nil, [runBlock] returns at once a null value of the
    receiver's type, with no next ref and no error.  The store is left as
    it was, so no child executor has been created and nothing of the
    sub-program has run; the function reference, the arguments and the
    fuel are not even looked at. *)
Theorem runBlock_null_receiver `{CO : Collab} (n c : nat) (bind : RawData)
    (functionRef : option Primitive) (args : list (option Primitive)) (ref : Z)
    (w : World) :
  Value bind = None →
  Typ bind ≠ types_Nil →
  runBlock n c (Some bind) functionRef args ref w =
    Ok (Some {| Typ := Typ bind; Value := None; Error := None |}, 0, None) w.
Proof.
  intros Hvalue Htype. unfold runBlock.
  rewrite bool_decide_eq_true_2 by done. reflexivity.
Qed.

Lemma runBlock_null_receiver_witness :
  runBlock 0 0 (Some Demo.null_int) None [] 2 (Demo.world Demo.add_executor) =
    Ok (Some Demo.null_int, 0, None) (Demo.world Demo.add_executor).
Proof.
  apply (runBlock_null_receiver 0 0 Demo.null_int None [] 2
           (Demo.world Demo.add_executor)).
  - reflexivity.
  - simpl. discriminate.
Defined.


(** ** The chain walk on a failing chunk *)

Section chain_errors.
Context `{CO : Collab}.

Lemma executors_error_delivered c curRef err e w :
  executors (error_delivered c curRef err e w) = executors w.
Proof. unfold error_delivered. by destruct (callbackPoints e !! curRef). Qed.

Lemma invoke_caller_callback (n c : nat) (r : RawResult) (e : LeiseExecutorV1) (w : World) :
  executors w !! c = Some e →
  callback e = caller_callback →
  invoke_callback n c r w = Ok tt (set_delivered (delivered w ++ [(c, r)]) w).
Proof. intros He Hcb. destruct n; simpl; exec_run He; by rewrite Hcb. Qed.

Lemma advance_Ok (c : nat) (curRef nextRef : Z) (remaining : list Z)
    (e : LeiseExecutorV1) (w : World) :
  executors w !! c = Some e →
  ∃ ctl, advance c curRef nextRef remaining w = Ok ctl w.
Proof.
  intros He. unfold advance. destruct (decide (nextRef = 0)); exec_run He; eauto.
Qed.

(** One iteration of the walk on a ref that is not cached and whose
    evaluation fails without a result, whatever callback the executor
    holds: the callback is called, the error is cached unless it is "not
    ready", and the walk moves on. *)
Lemma runChain_body_error (invoke : nat → RawResult → M unit) (c : nat)
    (curRef nextRef : Z) (remaining : list Z) (e : LeiseExecutorV1) (w w' : World)
    (err : error) :
  executors w !! c = Some e →
  (CacheV1.Load curRef (cache e)).2 = false →
  runRef c curRef (entered c curRef e w) = Ok (None, nextRef, Some err) w' →
  runChain_body invoke c curRef remaining w =
    (let* _ := deliver_error invoke c curRef err in
     let* _ := if isNotReadyError err then ret tt else cache_error c curRef err in
     advance c curRef nextRef remaining) w'.
Proof.
  intros He Hcache Hrun.
  unfold runChain_body, runChain_visit. exec_run He.
  rewrite lookup_insert_eq. simpl.
  destruct (CacheV1.Load curRef (cache e)) as [cached ok]. simpl in Hcache. subst ok.
  fold (entered c curRef e w). rewrite Hrun. simpl.
  rewrite bool_decide_eq_false_2 by (intros (_ & _ & [=])).
  destruct (deliver_error invoke c curRef err w'); [|done..].
  by destruct (isNotReadyError err).
Qed.

Lemma deliver_error_caller (n c : nat) (curRef : Z) (err : error)
    (e : LeiseExecutorV1) (w : World) :
  executors w !! c = Some e →
  callback e = caller_callback →
  deliver_error (invoke_callback n) c curRef err w =
    Ok tt (error_delivered c curRef err e w).
Proof.
  intros He Hcb. unfold deliver_error, error_delivered. exec_run He.
  destruct (callbackPoints e !! curRef); [|done].
  by apply invoke_caller_callback with e.
Qed.

Lemma cache_error_spec (c : nat) (curRef : Z) (err : error)
    (e : LeiseExecutorV1) (w : World) :
  executors w !! c = Some e →
  cache_error c curRef err w = Ok tt (error_cached c curRef err e w).
Proof.
  intros He. unfold cache_error, error_cached. exec_run He.
  destruct ((CacheV1.Load curRef (cache e)).1); [done |]. by exec_run He.
Qed.

(** The same iteration on an executor that holds its caller's callback. *)
Lemma runChain_body_error_caller (n c : nat) (curRef nextRef : Z) (remaining : list Z)
    (e e' : LeiseExecutorV1) (w w' : World) (err : error) :
  executors w !! c = Some e →
  (CacheV1.Load curRef (cache e)).2 = false →
  runRef c curRef (entered c curRef e w) = Ok (None, nextRef, Some err) w' →
  executors w' !! c = Some e' →
  callback e' = caller_callback →
  let w2 := error_delivered c curRef err e' w' in
  let w3 := if isNotReadyError err then w2 else error_cached c curRef err e' w2 in
  ∃ ctl, runChain_body (invoke_callback n) c curRef remaining w = Ok ctl w3.
Proof.
  intros He Hcache Hrun He' Hcb w2 w3.
  rewrite (runChain_body_error _ c curRef nextRef remaining e w w' err) by done.
  unfold bind at 1. rewrite (deliver_error_caller n c curRef err e' w') by done.
  fold w2.
  assert (executors w2 !! c = Some e') as He2
    by (subst w2; by rewrite executors_error_delivered).
  subst w3. destruct (isNotReadyError err).
  - unfold bind, ret. by apply advance_Ok with e'.
  - unfold bind at 1. rewrite (cache_error_spec c curRef err e' w2) by done.
    unfold error_cached. destruct ((CacheV1.Load curRef (cache e')).1) as [sc|].
    + by apply advance_Ok with e'.
    + eapply advance_Ok. simpl. apply lookup_insert_eq.
Qed.

(** Resource creation that fails: only a failure that is not "not
    ready" is cached, as a static error. *)
Lemma createResource_error (c : nat) (name : string) (f : Function) (ref : Z)
    (w wa : World) (args : list (option payload)) (ea : LeiseExecutorV1)
    (resource : option lumi_ResourceType) (err : error) (p : lumi_Runtime) :
  args2resourceargsV1 c ref (Args f) w = Ok (args, 0, None) wa →
  executors wa !! c = Some ea →
  runtime ea = the_runtime →
  runtime_CreateResource name args (provider wa) = ((resource, Some err), p) →
  createResource c name f ref w =
    Ok (None, 0, Some err)
       (if isNotReadyError err then set_provider p wa
        else set_executors
               (<[c := set_cache
                         (CacheV1.Store ref
                            (Some {| Result := Some {| Typ := types_Resource name;
                                                       Value := None;
                                                       Error := Some err |};
                                     IsStatic := true |}) (cache ea)) ea]>
                  (executors wa)) (set_provider p wa)).
Proof.
  intros Hargs Hea Hrt Hcreate. unfold createResource.
  unfold bind at 1. rewrite Hargs.
  rewrite bool_decide_eq_false_2 by (intros [?|?]; done).
  exec_run Hea. rewrite Hrt, Hcreate. simpl.
  destruct (isNotReadyError err); [done |]. by exec_run Hea.
Qed.

(** C1, as the executor has it: when the evaluation of a chunk returns
    a not-ready error and no result, the iteration of the chain walk
    calls the callback with the error if the ref is in the callback
    record, and moves on; it stores nothing in the result cache, and
    resource creation that is not ready stores nothing either.  On an
    executor that holds its caller's callback the executors are
    therefore as evaluation left them, and the error has been delivered
    exactly once when the ref is in the callback record, and only
    otherwise not at all. *)
Theorem runChain_not_ready (n c : nat) (curRef nextRef : Z) (remaining : list Z)
    (e e' : LeiseExecutorV1) (w w' : World) (err : error) :
  isNotReadyError err = true →
  (executors w !! c = Some e →
   (CacheV1.Load curRef (cache e)).2 = false →
   runRef c curRef (entered c curRef e w) = Ok (None, nextRef, Some err) w' →
   runChain_body (invoke_callback n) c curRef remaining w =
     (let* _ := deliver_error (invoke_callback n) c curRef err in
      advance c curRef nextRef remaining) w') ∧
  (executors w !! c = Some e →
   (CacheV1.Load curRef (cache e)).2 = false →
   runRef c curRef (entered c curRef e w) = Ok (None, nextRef, Some err) w' →
   executors w' !! c = Some e' →
   callback e' = caller_callback →
   ∃ ctl w3,
     runChain_body (invoke_callback n) c curRef remaining w = Ok ctl w3 ∧
     executors w3 = executors w' ∧
     closures w3 = closures w' ∧
     provider w3 = provider w' ∧
     delivered w3 =
       delivered w' ++
       match callbackPoints e' !! curRef with
       | Some codeID => [(c, errorResult err codeID)]
       | None => []
       end) ∧
  (∀ name f wa args resource p,
     args2resourceargsV1 c curRef (Args f) w = Ok (args, 0, None) wa →
     executors wa !! c = Some e' →
     runtime e' = the_runtime →
     runtime_CreateResource name args (provider wa) = ((resource, Some err), p) →
     createResource c name f curRef w = Ok (None, 0, Some err) (set_provider p wa)).
Proof.
  intros Hnr. split_and!.
  - intros He Hcache Hrun.
    rewrite (runChain_body_error _ c curRef nextRef remaining e w w' err) by done.
    rewrite Hnr. unfold bind, ret.
    by destruct (deliver_error (invoke_callback n) c curRef err w').
  - intros He Hcache Hrun He' Hcb.
    destruct (runChain_body_error_caller n c curRef nextRef remaining e e' w w' err)
      as [ctl Hbody]; [done..|].
    rewrite Hnr in Hbody. exists ctl, (error_delivered c curRef err e' w').
    split; [exact Hbody |]. unfold error_delivered.
    destruct (callbackPoints e' !! curRef); simpl; by rewrite ?app_nil_r.
  - intros name f wa args resource p Hargs Hea Hrt Hcreate.
    rewrite (createResource_error c name f curRef w wa args e' resource err p) by done.
    by rewrite Hnr.
Qed.

(** C2, as the executor has it: when the evaluation of a chunk fails
    with an error that is not "not ready" and no result, the iteration
    of the chain walk calls the callback with the error if the ref is in
    the callback record, caches the error where the cache holds nothing,
    and moves on.  On an executor that holds its caller's callback the
    error has been delivered exactly once when the ref is in the
    callback record, and the cache holds an entry at that ref: the entry
    evaluation left there, if any, and otherwise an error value of type
    Unset that is not marked static.  The entry is marked static where
    resource creation wrote it. *)
Theorem runChain_hard_error (n c : nat) (curRef nextRef : Z) (remaining : list Z)
    (e e' : LeiseExecutorV1) (w w' : World) (err : error) :
  isNotReadyError err = false →
  (executors w !! c = Some e →
   (CacheV1.Load curRef (cache e)).2 = false →
   runRef c curRef (entered c curRef e w) = Ok (None, nextRef, Some err) w' →
   runChain_body (invoke_callback n) c curRef remaining w =
     (let* _ := deliver_error (invoke_callback n) c curRef err in
      let* _ := cache_error c curRef err in
      advance c curRef nextRef remaining) w') ∧
  (executors w !! c = Some e →
   (CacheV1.Load curRef (cache e)).2 = false →
   runRef c curRef (entered c curRef e w) = Ok (None, nextRef, Some err) w' →
   executors w' !! c = Some e' →
   callback e' = caller_callback →
   ∃ ctl w3 e3,
     runChain_body (invoke_callback n) c curRef remaining w = Ok ctl w3 ∧
     executors w3 !! c = Some e3 ∧
     cache e3 !! curRef =
       Some (match cache e' !! curRef with
             | Some (Some cached) => Some cached
             | _ => Some {| Result := Some {| Typ := types_Unset; Value := None;
                                              Error := Some err |};
                            IsStatic := false |}
             end) ∧
     delivered w3 =
       delivered w' ++
       match callbackPoints e' !! curRef with
       | Some codeID => [(c, errorResult err codeID)]
       | None => []
       end) ∧
  (∀ name f wa args resource p,
     args2resourceargsV1 c curRef (Args f) w = Ok (args, 0, None) wa →
     executors wa !! c = Some e' →
     runtime e' = the_runtime →
     runtime_CreateResource name args (provider wa) = ((resource, Some err), p) →
     ∃ w3 e3,
       createResource c name f curRef w = Ok (None, 0, Some err) w3 ∧
       executors w3 !! c = Some e3 ∧
       cache e3 !! curRef =
         Some (Some {| Result := Some {| Typ := types_Resource name; Value := None;
                                         Error := Some err |};
                       IsStatic := true |})).
Proof.
  intros Hnr. split_and!.
  - intros He Hcache Hrun.
    rewrite (runChain_body_error _ c curRef nextRef remaining e w w' err) by done.
    by rewrite Hnr.
  - intros He Hcache Hrun He' Hcb.
    destruct (runChain_body_error_caller n c curRef nextRef remaining e e' w w' err)
      as [ctl Hbody]; [done..|].
    rewrite Hnr in Hbody.
    assert (delivered (error_delivered c curRef err e' w') =
            delivered w' ++
            match callbackPoints e' !! curRef with
            | Some codeID => [(c, errorResult err codeID)]
            | None => []
            end) as Hd.
    { unfold error_delivered.
      destruct (callbackPoints e' !! curRef); simpl; by rewrite ?app_nil_r. }
    unfold error_cached in *. unfold CacheV1.Load in *.
    destruct (cache e' !! curRef) as [[cached|]|] eqn:Hc; simpl in *.
    + exists ctl, (error_delivered c curRef err e' w'), e'.
      split_and!; [exact Hbody | | done | done].
      by rewrite executors_error_delivered.
    + eexists ctl, _, _. split_and!; [exact Hbody | apply lookup_insert_eq | | done].
      simpl. unfold CacheV1.Store. apply lookup_insert_eq.
    + eexists ctl, _, _. split_and!; [exact Hbody | apply lookup_insert_eq | | done].
      simpl. unfold CacheV1.Store. apply lookup_insert_eq.
  - intros name f wa args resource p Hargs Hea Hrt Hcreate.
    rewrite (createResource_error c name f curRef w wa args e' resource err p) by done.
    rewrite Hnr. eexists _, _. split_and!; [done | apply lookup_insert_eq |].
    simpl. unfold CacheV1.Store. apply lookup_insert_eq.
Qed.

End chain_errors.

(** The claim C1 as stated fails on the code: creating "host" is not
    ready, and the chain walk at the entrypoint ref 1 hands the not-ready
    error to the callback. *)
Lemma not_ready_reaches_callback :
  (∃ w', runRef 0 1 (entered 0 1 Demo.host_executor Demo.host_world) =
           Ok (None, 0, Some lumi_NotReadyError) w') ∧
  ∃ w', runChain 1 0 1 Demo.host_world = Ok tt w' ∧
        delivered w' = [(0%nat, errorResult lumi_NotReadyError "chk1")].
Proof.
  split; eexists; [|split]; vm_compute; reflexivity.
Qed.

Lemma runChain_not_ready_witness :
  ∃ ctl w3,
    runChain_body (invoke_callback 0) 0 1 [] Demo.host_world = Ok ctl w3 ∧
    executors w3 = executors (entered 0 1 Demo.host_executor Demo.host_world) ∧
    closures w3 = ∅ ∧
    provider w3 = ["create host"] ∧
    delivered w3 = [(0%nat, errorResult lumi_NotReadyError "chk1")].
Proof.
  refine (proj1 (proj2 (runChain_not_ready 0 0 1 0 [] Demo.host_executor
            (set_stepTracker {[ 1 := None ]} Demo.host_executor) Demo.host_world
            (set_provider ["create host"] (entered 0 1 Demo.host_executor Demo.host_world))
            lumi_NotReadyError eq_refl)) _ _ _ _ _);
    vm_compute; reflexivity.
Defined.

(** The claim C2 as stated fails on the code: the property "x" is not
    bound, and the error the chain walk caches at ref 1 is not marked
    static. *)
Lemma bad_property_not_static :
  (∃ w', runRef 0 1 (entered 0 1 Demo.property_executor Demo.property_world) =
           Ok (None, 0, Some (errors_New "cannot find property 'x'")) w') ∧
  ∃ w' e',
    runChain 1 0 1 Demo.property_world = Ok tt w' ∧
    executors w' !! 0%nat = Some e' ∧
    cache e' !! 1 =
      Some (Some {| Result := Some {| Typ := types_Unset; Value := None;
                                      Error := Some (errors_New "cannot find property 'x'") |};
                    IsStatic := false |}).
Proof.
  split; [eexists; vm_compute; reflexivity |].
  eexists _, _. split_and!; vm_compute; reflexivity.
Qed.

Lemma runChain_hard_error_witness :
  ∃ ctl w3 e3,
    runChain_body (invoke_callback 0) 0 1 [] Demo.property_world = Ok ctl w3 ∧
    executors w3 !! 0%nat = Some e3 ∧
    cache e3 !! 1 =
      Some (Some {| Result := Some {| Typ := types_Unset; Value := None;
                                      Error := Some (errors_New "cannot find property 'x'") |};
                    IsStatic := false |}) ∧
    delivered w3 = [(0%nat, errorResult (errors_New "cannot find property 'x'") "chk1")].
Proof.
  refine (proj1 (proj2 (runChain_hard_error 0 0 1 0 [] Demo.property_executor
            (set_stepTracker {[ 1 := None ]} Demo.property_executor) Demo.property_world
            (entered 0 1 Demo.property_executor Demo.property_world)
            (errors_New "cannot find property 'x'") eq_refl)) _ _ _ _ _);
    vm_compute; reflexivity.
Defined.


(** ** Forward propagation *)

Section trigger.
Context `{CO : Collab}.

(** C8, as the executor has it: one [triggerChain] on a ref of the
    callback record first hands the reported value to the callback,
    once.  When refs are registered against the ref it then only walks
    them, each from a chain walk of its own.  When none is registered
    it calls the callback a second time: with the value cached at the
    ref, or with an error result when nothing is cached. *)
Theorem triggerChain_deliveries (n c : nat) (ref : Z) (data : option RawData)
    (e : LeiseExecutorV1) (w : World) (codeID : string) :
  executors w !! c = Some e →
  callback e = caller_callback →
  callbackPoints e !! ref = Some codeID →
  let first := (c, {| Data := data; CodeID := codeID |}) in
  (∀ nxt, CallsV1.Load ref (calls e) = (nxt, true) → nxt ≠ [] →
     triggerChain (S n) c ref data w =
       for_each (runChain n c) nxt (set_delivered (delivered w ++ [first]) w)) ∧
  (∀ res, CallsV1.Load ref (calls e) = ([], false) →
     CacheV1.Load ref (cache e) = (Some res, true) →
     triggerChain (S n) c ref data w =
       Ok tt (set_delivered
                (delivered w ++ [first; (c, {| Data := Result res; CodeID := codeID |})]) w)) ∧
  (CallsV1.Load ref (calls e) = ([], false) →
   CacheV1.Load ref (cache e) = (None, false) →
   triggerChain (S n) c ref data w =
     Ok tt (set_delivered
              (delivered w ++
               [first;
                (c, errorResultMsg
                      ("exec> cannot find results to chunk reference " +:+ FormatInt ref)
                      codeID)]) w)).
Proof.
  intros He Hcb Hpoint first.
  assert (∀ r v, executors v = executors w →
            invoke_callback n c r v = Ok tt (set_delivered (delivered v ++ [(c, r)]) v))
    as Hinvoke.
  { intros r v Hv. apply invoke_caller_callback with e; [by rewrite Hv | done]. }
  split_and!.
  - intros nxt Hnxt Hne. simpl. unfold triggerChain_body. exec_run He.
    rewrite Hpoint, Hinvoke by done. exec_run He. rewrite Hnxt.
    destruct nxt; [done | reflexivity].
  - intros res Hnxt Hres. simpl. unfold triggerChain_body. exec_run He.
    rewrite Hpoint, Hinvoke by done. exec_run He. rewrite Hnxt. exec_run He.
    rewrite Hres. exec_run He. rewrite Hpoint, Hinvoke by done. simpl.
    by rewrite <- app_assoc.
  - intros Hnxt Hres. simpl. unfold triggerChain_body. exec_run He.
    rewrite Hpoint, Hinvoke by done. exec_run He. rewrite Hnxt. exec_run He.
    rewrite Hres. exec_run He. rewrite Hpoint, Hinvoke by done. simpl.
    by rewrite <- app_assoc.
Qed.

End trigger.

(** The claim C8 as stated fails on the code: ref 1 is in the callback
    record, its value 5 is cached as static and no ref is registered
    against it; one [triggerChain] reporting that value calls the callback
    twice with it. *)
Lemma trigger_delivers_twice :
  let r := (0%nat, {| Data := Some (Demo.int_data 5); CodeID := "chk1" |}) in
  cache Demo.resolved_executor !! 1 =
    Some (Some {| Result := Some (Demo.int_data 5); IsStatic := true |}) ∧
  ∃ w', triggerChain 1 0 1 (Some (Demo.int_data 5)) (Demo.world Demo.resolved_executor) =
          Ok tt w' ∧
        delivered w' = [r; r].
Proof.
  split; [reflexivity |]. eexists. split; vm_compute; reflexivity.
Qed.

(** The same on a ref that was left not ready: ref 1 = host() holds no
    cached value, and a provider that reports the value through
    [triggerChain] has it delivered, followed by an error result. *)
Example trigger_after_not_ready :
  ∃ w', triggerChain 1 0 1 (Some Demo.mount) Demo.host_world = Ok tt w' ∧
        delivered w' =
          [(0%nat, {| Data := Some Demo.mount; CodeID := "chk1" |});
           (0%nat, errorResultMsg "exec> cannot find results to chunk reference 1" "chk1")].
Proof. eexists. split; vm_compute; reflexivity. Qed.

Lemma triggerChain_deliveries_witness :
  let first := (0%nat, {| Data := Some (Demo.int_data 5); CodeID := "chk1" |}) in
  triggerChain 2 0 1 (Some (Demo.int_data 5)) (Demo.world Demo.watched_executor) =
    for_each (runChain 1 0) [2]
      (set_delivered [first] (Demo.world Demo.watched_executor)).
Proof.
  refine (proj1 (triggerChain_deliveries 1 0 1 (Some (Demo.int_data 5))
            Demo.watched_executor (Demo.world Demo.watched_executor) "chk1"
            eq_refl eq_refl eq_refl) [2] eq_refl _).
  discriminate.
Defined.

(** ** Block aggregation *)

Section blocks.
Context `{CO : Collab}.

Lemma size_insert_le {V} (k : string) (v : V) (m : gmap string V) :
  (size m ≤ size (<[k := v]> m))%nat.
Proof.
  destruct (m !! k) eqn:Hk.
  - rewrite map_size_insert_Some; [done | by eexists].
  - rewrite map_size_insert_None by done. lia.
Qed.

Lemma block_collect_collected fun_ bind r b b' resolved ids :
  collected fun_ ids b →
  block_collect fun_ bind r b = Some (b', resolved) →
  collected fun_ ({[CodeID r]} ∪ ids) b' ∧
  (resolved = true → size ({[CodeID r]} ∪ ids) = expectedCnt fun_).
Proof.
  intros Hinv Hcollect. unfold block_collect in Hcollect.
  destruct (match blockResult b !! CodeID r with Some _ => _ | None => _ end)
    as [err|]; simpl in Hcollect; [|done].
  pose proof (size_insert_le (CodeID r) (Data r) (blockResult b)) as Hle.
  destruct (decide (size (<[CodeID r := Data r]> (blockResult b)) = expectedCnt fun_))
    as [Hsize|Hsize]; injection Hcollect as <- <-.
  - destruct Hinv as [Hdom|Hmore]; [|lia].
    assert (dom (<[CodeID r := Data r]> (blockResult b)) = {[CodeID r]} ∪ ids) as Hdom'
      by (rewrite dom_insert_L; by rewrite Hdom).
    split; [|intros _; by rewrite <- Hdom', size_dom].
    unfold collected. simpl. destruct (receiver_field bind) as [rr|]; [|by left].
    destruct (<[CodeID r := Data r]> (blockResult b) !! "_") as [x|] eqn:Hu.
    + left. rewrite dom_insert_L, Hdom'.
      assert ("_" ∈ dom (<[CodeID r := Data r]> (blockResult b))) as Hin
        by (apply elem_of_dom; by eexists).
      rewrite Hdom' in Hin. apply subseteq_union_1_L.
      by apply singleton_subseteq_l.
    + right. rewrite map_size_insert_None by done. lia.
  - split; [|done]. unfold collected. simpl.
    destruct Hinv as [Hdom|Hmore]; [left | right; lia].
    rewrite dom_insert_L. by rewrite Hdom.
Qed.

Lemma block_deliveries_collected fun_ bind rs b b' ids :
  collected fun_ ids b →
  block_deliveries fun_ bind rs b = Some b' →
  collected fun_ (list_to_set (CodeID <$> rs) ∪ ids) b'.
Proof.
  revert b ids. induction rs as [|r rs IH]; intros b ids Hinv Hrun; simpl in Hrun.
  - injection Hrun as <-. by rewrite fmap_nil, list_to_set_nil, (left_id_L ∅ (∪)).
  - destruct (block_collect fun_ bind r b) as [[b1 resolved]|] eqn:Hc; [|done].
    apply (block_collect_collected _ _ _ _ _ _ ids Hinv) in Hc as [Hinv1 _].
    specialize (IH _ _ Hinv1 Hrun).
    rewrite fmap_cons, list_to_set_cons.
    rewrite (comm_L (∪) {[CodeID r]}), <- (assoc_L (∪)).
    exact IH.
Qed.

(** C7: for a block that does not yield a single value, the closure
    resolves the parent ref only when the number of distinct code IDs
    received so far equals the number of entrypoints plus datapoints of
    the sub-program.  A code ID received again overwrites its entry and
    counts once: the count compared is the one before the call, and its
    error is not merged a second time.  When the closure resolves, the
    field map also holds the receiver under "_" if the receiver is a
    resource, and the callback of the child executor stores the block
    value (the field map with the accumulated error) in the parent's
    cache as static and then triggers the forward chain on the parent
    ref; otherwise it only records the result. *)
Theorem block_aggregation (fun_ : CodeV1) (bind : option RawData) :
  SingleValue fun_ = false →
  (∀ rs r b b',
     block_deliveries fun_ bind rs {| blockResult := ∅; anyError := None |} = Some b →
     block_collect fun_ bind r b = Some (b', true) →
     size (list_to_set (CodeID <$> (rs ++ [r])) : gset string) = expectedCnt fun_) ∧
  (∀ r b b' resolved,
     is_Some (blockResult b !! CodeID r) →
     block_collect fun_ bind r b = Some (b', resolved) →
     anyError b' = anyError b ∧
     (resolved = true ↔ size (blockResult b) = expectedCnt fun_) ∧
     (CodeID r ≠ "_" → blockResult b' !! CodeID r = Some (Data r)) ∧
     (resolved = false → blockResult b' = <[CodeID r := Data r]> (blockResult b))) ∧
  (∀ r b b' resolved d e,
     blockResult b !! CodeID r = None →
     Data r = Some d →
     Error d = Some e →
     block_collect fun_ bind r b = Some (b', resolved) →
     anyError b' = Some (multierror_Append (anyError b) e)) ∧
  (∀ r b b',
     block_collect fun_ bind r b = Some (b', true) →
     blockResult b' =
       match receiver_field bind with
       | Some rr => <["_" := Some rr]> (<[CodeID r := Data r]> (blockResult b))
       | None => <[CodeID r := Data r]> (blockResult b)
       end) ∧
  (∀ bd rr,
     bind = Some bd →
     IsResource (Typ bd) = true →
     Value bd = Some (Resource_value rr) →
     receiver_field bind =
       Some {| Typ := Typ bd; Value := Some (Resource_value rr); Error := None |}) ∧
  (∀ n x parent ref cl r ex ep b b' resolved w,
     executors w !! x = Some ex →
     callback ex = block_callback parent fun_ bind ref cl →
     closures w !! cl = Some b →
     executors w !! parent = Some ep →
     block_collect fun_ bind r b = Some (b', resolved) →
     let w1 := set_closures (<[cl := b']> (closures w)) w in
     let data := {| Typ := types_Block; Value := Some (Block_value cl);
                    Error := anyError b' |} in
     invoke_callback (S n) x r w =
       if resolved then
         triggerChain n parent ref (Some data)
           (set_executors
              (<[parent := set_cache
                             (CacheV1.Store ref
                                (Some {| Result := Some data; IsStatic := true |})
                                (cache ep)) ep]> (executors w)) w1)
       else Ok tt w1).
Proof.
  intros Hsingle. split_and!.
  - intros rs r b b' Hrun Hcollect.
    assert (collected fun_ (list_to_set (CodeID <$> rs) ∪ ∅) b) as Hinv.
    { eapply block_deliveries_collected; [|exact Hrun]. left. simpl. apply dom_empty_L. }
    destruct (block_collect_collected _ _ _ _ _ _ _ Hinv Hcollect) as [_ Hsize].
    rewrite fmap_app, list_to_set_app_L. simpl.
    rewrite (right_id_L ∅ (∪)) in *. rewrite (comm_L (∪)).
    by apply Hsize.
  - intros r b b' resolved [old Hold] Hcollect. unfold block_collect in Hcollect.
    rewrite Hold in Hcollect. simpl in Hcollect.
    assert (size (<[CodeID r := Data r]> (blockResult b)) = size (blockResult b)) as Hsame
      by (apply map_size_insert_Some; by eexists).
    rewrite Hsame in Hcollect.
    destruct (decide (size (blockResult b) = expectedCnt fun_)) as [Hsize|Hsize];
      injection Hcollect as <- <-; simpl.
    + split_and!; [done | done | | done].
      intros Hne. destruct (receiver_field bind).
      * rewrite lookup_insert_ne by done. apply lookup_insert_eq.
      * apply lookup_insert_eq.
    + split_and!; [done | split; done | | done].
      intros _. apply lookup_insert_eq.
  - intros r b b' resolved d e Hnew Hd He Hcollect. unfold block_collect in Hcollect.
    rewrite Hnew, Hd in Hcollect. simpl in Hcollect. rewrite He in Hcollect.
    by destruct (decide _); injection Hcollect as <- <-.
  - intros r b b' Hcollect. unfold block_collect in Hcollect.
    destruct (match blockResult b !! CodeID r with Some _ => _ | None => _ end)
      as [err|]; simpl in Hcollect; [|done].
    destruct (decide _); [|done]. injection Hcollect as <-. simpl.
    by destruct (receiver_field bind).
  - intros bd rr -> Hres Hvalue. simpl. by rewrite Hres, Hvalue.
  - intros n x parent ref cl r ex ep b b' resolved w Hx Hcb Hcl Hp Hcollect w1 data.
    simpl. exec_run Hx. rewrite Hcb. unfold block_callback_body. rewrite Hsingle.
    exec_run Hx. rewrite Hcl, Hcollect. simpl.
    destruct resolved; [|done]. by exec_run Hp.
Qed.

End blocks.

Lemma block_aggregation_witness :
  let a := {| Data := Some (Demo.int_data 7); CodeID := "a" |} in
  let b := {| Data := Some (Demo.int_data 8); CodeID := "b" |} in
  size (list_to_set (CodeID <$> ([b; b] ++ [a])) : gset string) = expectedCnt Demo.fields.
Proof.
  intros a b.
  refine (proj1 (block_aggregation Demo.fields (Some Demo.mount) eq_refl) [b; b] a
            {| blockResult := {[ "b" := Some (Demo.int_data 8) ]}; anyError := None |}
            {| blockResult := {[ "_" := Some Demo.mount; "a" := Some (Demo.int_data 7);
                                 "b" := Some (Demo.int_data 8) ]};
               anyError := None |} _ _);
    vm_compute; reflexivity.
Defined.

(** The block [Demo.fields] called on a resource: [runBlock] creates one
    block executor and runs it; its two datapoints reach the closure,
    the second resolves ref 2 of the parent to the block value, cached
    as static, whose field map holds both fields and the receiver.  The
    trigger that follows hands the block value to the parent's callback
    twice, as no ref is registered against ref 2. *)
Example runBlock_fields :
  ∃ w' parent,
    runBlock 4 0 (Some Demo.mount) (Some (Demo.P_function 1)) [] 2
      (Demo.world Demo.block_executor) = Ok (None, 0, None) w' ∧
    (let r := (0%nat, {| Data := Some {| Typ := types_Block; Value := Some (Block_value 0);
                                         Error := None |};
                         CodeID := "chk2" |}) in
     delivered w' = [r; r]) ∧
    executors w' !! 0%nat = Some parent ∧
    blockExecutors parent = [1%nat] ∧
    cache parent !! 2 =
      Some (Some {| Result := Some {| Typ := types_Block; Value := Some (Block_value 0);
                                      Error := None |};
                    IsStatic := true |}) ∧
    closures w' !! 0%nat =
      Some {| blockResult := {[ "_" := Some Demo.mount; "a" := Some (Demo.int_data 7);
                                "b" := Some (Demo.int_data 8) ]};
              anyError := None |}.
Proof. eexists _, _. split_and!; vm_compute; reflexivity. Qed.

(** ** Teardown *)

Section teardown.
Context `{CO : Collab}.

Lemma torn_refl w : torn w w.
Proof.
  split_and!; [done..|]. intros x. destruct (executors w !! x); eauto.
Qed.

Lemma torn_trans w1 w2 w3 : torn w1 w2 → torn w2 w3 → torn w1 w3.
Proof.
  intros (Hc1 & Hd1 & H1) (Hc2 & Hd2 & H2).
  split_and!; [congruence..|]. intros x. specialize (H1 x). specialize (H2 x).
  destruct (executors w1 !! x) as [e1|].
  - destruct H1 as (e2 & He2 & Hrel1). rewrite He2 in H2.
    destruct H2 as (e3 & He3 & Hrel2). exists e3. split; [done |].
    destruct Hrel1 as [->| ->], Hrel2 as [->| ->]; auto.
  - by rewrite H1 in H2.
Qed.

Lemma torn_set_provider w p : torn w (set_provider p w).
Proof.
  split_and!; [done..|]. intros x. simpl. destruct (executors w !! x); eauto.
Qed.

Lemma torn_lookup w w' x e :
  torn w w' → executors w !! x = Some e →
  ∃ e', executors w' !! x = Some e' ∧
        blockExecutors e' = blockExecutors e ∧ watcherIds e' = watcherIds e ∧
        runtime e' = runtime e ∧
        (callback e = decommissioned_callback → callback e' = decommissioned_callback).
Proof.
  intros (_ & _ & H) He. specialize (H x). rewrite He in H.
  destruct H as (e' & He' & [->| ->]); eauto 10.
Qed.

Lemma torn_decommissioned w w' x : torn w w' → decommissioned w x → decommissioned w' x.
Proof.
  intros Ht (e & He & Hcb).
  destruct (torn_lookup _ _ _ _ Ht He) as (e' & He' & _ & _ & _ & Hcb').
  exists e'. auto.
Qed.

Lemma torn_owns_tree w w' h c : torn w w' → owns_tree w h c → owns_tree w' h c.
Proof.
  intros Ht. revert c. induction h as [|h IH]; intros c; [done |].
  simpl. intros (e & He & Hrt & Hall).
  destruct (torn_lookup _ _ _ _ Ht He) as (e' & He' & Hb & _ & Hrt' & _).
  exists e'. split_and!; [done | congruence |]. rewrite Hb.
  eapply Forall_impl; [exact Hall | auto].
Qed.

Lemma torn_teardown_keys w w' n c :
  torn w w' → teardown_keys n w' c = teardown_keys n w c.
Proof.
  intros Ht. revert c. induction n as [|n IH]; intros c; [done |]. simpl.
  destruct (executors w !! c) as [e|] eqn:He.
  - destruct (torn_lookup _ _ _ _ Ht He) as (e' & -> & -> & -> & _).
    do 2 f_equal. apply list_fmap_ext. auto.
  - destruct Ht as (_ & _ & H). specialize (H c). by rewrite He in H; rewrite H.
Qed.

Lemma torn_teardown_nodes w w' n c :
  torn w w' → teardown_nodes n w' c = teardown_nodes n w c.
Proof.
  intros Ht. revert c. induction n as [|n IH]; intros c; [done |]. simpl.
  destruct (executors w !! c) as [e|] eqn:He.
  - destruct (torn_lookup _ _ _ _ Ht He) as (e' & -> & -> & _).
    do 2 f_equal. apply list_fmap_ext. auto.
  - destruct Ht as (_ & _ & H). specialize (H c). by rewrite He in H; rewrite H.
Qed.

Lemma cancel_all_app keys1 keys2 p :
  cancel_all (keys1 ++ keys2) p =
    ((cancel_all keys1 p).1 ++ (cancel_all keys2 (cancel_all keys1 p).2).1,
     (cancel_all keys2 (cancel_all keys1 p).2).2).
Proof.
  revert p. induction keys1 as [|key keys1 IH]; intros p; simpl.
  - by destruct (cancel_all keys2 p).
  - rewrite IH. simpl. by destruct (runtime_Unregister key p).1.
Qed.

Lemma cancel_watchers_spec c keys errorList e w :
  executors w !! c = Some e →
  runtime e = the_runtime →
  cancel_watchers c keys errorList w =
    Ok (errorList ++ (cancel_all keys (provider w)).1)
       (set_provider (cancel_all keys (provider w)).2 w).
Proof.
  intros He Hrt. revert errorList w He.
  induction keys as [|key keys IH]; intros errorList w He; simpl.
  - rewrite app_nil_r. by destruct w.
  - exec_run He. rewrite Hrt. simpl. rewrite IH by done. simpl.
    destruct (runtime_Unregister key (provider w)).1; [|done].
    by rewrite <- app_assoc.
Qed.

Lemma concat_fmap_torn {A} (f : World → nat → list A) w w' (l : list nat) :
  (∀ c, f w' c = f w c) → concat (f w' <$> l) = concat (f w <$> l).
Proof. intros H. f_equal. apply list_fmap_ext. auto. Qed.

Lemma unregister_blocks_spec (n : nat) :
  (∀ c w, owns_tree w n c → Unregister_returns n c w) →
  ∀ blocks errorList w,
    Forall (owns_tree w n) blocks →
    ∃ errorList' w',
      unregister_blocks (Unregister n) blocks errorList w = Ok errorList' w' ∧
      teardown_post w (concat (teardown_keys n w <$> blocks))
        (concat (teardown_nodes n w <$> blocks)) w' ∧
      (errorList' = [] ↔
       errorList = [] ∧
       (cancel_all (concat (teardown_keys n w <$> blocks)) (provider w)).1 = []).
Proof.
  intros IH blocks. induction blocks as [|b blocks IHblocks]; intros errorList w Hall.
  - exists errorList, w. simpl. split_and!; [done | | tauto].
    split_and!; [apply torn_refl | done | constructor].
  - apply Forall_cons in Hall as [Hb Hall].
    destruct (IH b w Hb) as (r & w1 & Hrun & (Ht1 & Hp1 & Hn1) & Hr & _).
    assert (Forall (owns_tree w1 n) blocks) as Hall1
      by (eapply Forall_impl; [exact Hall | intros x; by apply torn_owns_tree]).
    destruct (IHblocks
                (match r with Some err => errorList ++ [err] | None => errorList end)
                w1 Hall1)
      as (errorList' & w' & Hloop & (Ht & Hp & Hn) & Herrs).
    exists errorList', w'. simpl. unfold bind at 1. rewrite Hrun.
    rewrite (concat_fmap_torn (teardown_keys n) w w1) in Hp, Herrs
      by (intros; by apply torn_teardown_keys).
    rewrite (concat_fmap_torn (teardown_nodes n) w w1) in Hn
      by (intros; by apply torn_teardown_nodes).
    split_and!; [exact Hloop | | ].
    + split_and!.
      * by eapply torn_trans.
      * rewrite cancel_all_app. simpl. by rewrite <- Hp1.
      * apply Forall_app. split; [|exact Hn].
        eapply Forall_impl; [exact Hn1 | intros x; by apply torn_decommissioned].
    + rewrite cancel_all_app. simpl. rewrite <- Hp1. rewrite Herrs.
      destruct r as [err|].
      * split.
        -- intros [Habs _]. by destruct errorList.
        -- intros [_ Habs]. apply app_eq_nil in Habs as [Habs _].
           apply Hr in Habs. done.
      * assert ((cancel_all (teardown_keys n w b) (provider w)).1 = []) as ->
          by by apply Hr.
        done.
Qed.

Lemma Unregister_spec (n : nat) (c : nat) (w : World) :
  owns_tree w n c → Unregister_returns n c w.
Proof.
  revert c w. induction n as [|n IH]; intros c w; [done |].
  intros (e & He & Hrt & Hall).
  set (e0 := set_callback decommissioned_callback e).
  set (w0 := set_executors (<[c := e0]> (executors w)) w).
  assert (torn w w0) as Ht0.
  { split_and!; [done..|]. intros x. simpl. destruct (decide (x = c)) as [->|Hne].
    - rewrite He, lookup_insert_eq. eauto.
    - rewrite lookup_insert_ne by done. destruct (executors w !! x); eauto. }
  assert (executors w0 !! c = Some e0) as He0 by apply lookup_insert_eq.
  assert (Forall (owns_tree w0 n) (blockExecutors e0)) as Hall0
    by (eapply Forall_impl; [exact Hall | intros x; by apply torn_owns_tree]).
  destruct (unregister_blocks_spec n IH (blockExecutors e0) [] w0 Hall0)
    as (errs1 & w1 & Hloop & (Ht1 & Hp1 & Hn1) & Herrs1).
  destruct (torn_lookup _ _ _ _ Ht1 He0) as (e1 & He1 & Hb1 & Hw1 & Hrt1 & Hcb1).
  rewrite (concat_fmap_torn (teardown_keys n) w w0) in Hp1, Herrs1
    by (intros; by apply torn_teardown_keys).
  rewrite (concat_fmap_torn (teardown_nodes n) w w0) in Hn1
    by (intros; by apply torn_teardown_nodes).
  unfold Unregister_returns. simpl. rewrite He. fold e0.
  exec_run He. fold e0 w0. rewrite lookup_insert_eq. simpl.
  change (blockExecutors e) with (blockExecutors e0). rewrite Hloop. simpl.
  rewrite He1. simpl.
  rewrite (cancel_watchers_spec c _ _ e1 w1) by (done || (rewrite Hrt1; exact Hrt)).
  simpl.
  rewrite Hw1. change (watcherIds e0) with (watcherIds e).
  change (blockExecutors e0) with (blockExecutors e) in *.
  set (keys1 := concat (teardown_keys n w <$> blockExecutors e)) in *.
  set (keys2 := elements (watcherIds e)).
  rewrite cancel_all_app. simpl. change (provider w0) with (provider w) in *.
  rewrite <- Hp1.
  set (errs2 := (cancel_all keys2 (provider w1)).1).
  assert (teardown_post w (keys1 ++ keys2)
            (c :: concat (teardown_nodes n w <$> blockExecutors e))
            (set_provider (cancel_all keys2 (provider w1)).2 w1)) as Hpost.
  { split_and!.
    - eapply torn_trans; [exact Ht0 |]. eapply torn_trans; [exact Ht1 |].
      apply torn_set_provider.
    - rewrite cancel_all_app. simpl. by rewrite <- Hp1.
    - constructor.
      + exists e1. split; [done | by apply Hcb1].
      + eapply Forall_impl; [exact Hn1 |]. intros x.
        apply torn_decommissioned, torn_set_provider. }
  destruct (decide (0 < length (errs1 ++ errs2))%nat) as [Hlen|Hlen];
    (eexists _, _; split; [reflexivity |]).
  - split_and!; [exact Hpost | | by right].
    split; [done |]. intros Hnil. apply app_eq_nil in Hnil as [Hnil1 Hnil2].
    rewrite length_app in Hlen. fold errs2 in Hnil2. rewrite Hnil2 in Hlen.
    assert (errs1 = []) as -> by (by apply Herrs1). simpl in Hlen. lia.
  - split_and!; [exact Hpost | | by left].
    split; [|done]. intros _. rewrite length_app in Hlen.
    assert (errs1 = []) as Hnil1 by (destruct errs1; [done | simpl in Hlen; lia]).
    assert (errs2 = []) as Hnil2
      by (destruct errs2; [done | rewrite length_cons in Hlen; lia]).
    fold errs2. rewrite Hnil2. apply Herrs1 in Hnil1 as [_ ->]. done.
Qed.

Lemma teardown_nodes_self n w c : owns_tree w n c → c ∈ teardown_nodes n w c.
Proof.
  destruct n as [|n]; [done |]. simpl. intros (e & -> & _). apply list_elem_of_here.
Qed.

Lemma merged_snoc errs err :
  merged (errs ++ [err]) = Some (multierror_Append (merged errs) err).
Proof. unfold merged. by rewrite foldl_app. Qed.

Lemma merged_is_multierror errs err : merged errs ≠ Some (errors_New err).
Proof.
  destruct errs as [|e errs _] using rev_ind; [done |].
  rewrite merged_snoc. unfold multierror_Append.
  by destruct (merged errs) as [[]|].
Qed.

(** C9, as the executor has it: on an executor that owns a tree of
    block executors, [Unregister] returns.  Afterwards the executor and
    every block executor below it hold the no-op callback, so a result
    that still arrives changes nothing; the provider has been asked to
    cancel every watch of the tree, in order, whatever the earlier
    answers were; and the value returned is the one fixed error
    "multiple errors unregistering" exactly when at least one
    cancellation failed, and nil otherwise.  The errors themselves are
    not part of what is returned. *)
Theorem Unregister_best_effort (n : nat) (c : nat) (w : World) :
  owns_tree w n c →
  ∃ r w',
    Unregister n c w = Ok r w' ∧
    (∀ m res, invoke_callback m c res w' = Ok tt w') ∧
    Forall (decommissioned w') (teardown_nodes n w c) ∧
    provider w' = (cancel_all (teardown_keys n w c) (provider w)).2 ∧
    closures w' = closures w ∧
    delivered w' = delivered w ∧
    (r = Some (errors_New "multiple errors unregistering") ↔
     (cancel_all (teardown_keys n w c) (provider w)).1 ≠ []) ∧
    (r = None ↔ (cancel_all (teardown_keys n w c) (provider w)).1 = []).
Proof.
  intros Hown.
  destruct (Unregister_spec n c w Hown)
    as (r & w' & Hrun & ((Hcl & Hdl & Ht) & Hp & Hnodes) & Hnone & Hr).
  exists r, w'. split_and!; [done | | done | done | done | done | | done].
  - intros m res.
    assert (decommissioned w' c) as (e' & He' & Hcb).
    { eapply Forall_forall; [exact Hnodes | by apply teardown_nodes_self]. }
    destruct m; simpl; exec_run He'; by rewrite Hcb.
  - rewrite <- Hnone. destruct Hr as [->| ->]; split; done.
Qed.

End teardown.

(** The claim C9 as stated fails on the code: the first block executor
    of [Demo.family] holds a watch that cannot be cancelled.  [Unregister]
    returns an error that holds none of the errors met, and that no
    merging of errors produces. *)
Lemma Unregister_error_not_merged :
  (∃ w', Unregister 2 0 Demo.family =
           Ok (Some (errors_New "multiple errors unregistering")) w') ∧
  (cancel_all (teardown_keys 2 Demo.family 0) (provider Demo.family)).1 =
    [errors_New "cannot cancel !w1"] ∧
  ∀ errs, merged errs ≠ Some (errors_New "multiple errors unregistering").
Proof.
  split_and!.
  - eexists. vm_compute. reflexivity.
  - vm_compute. reflexivity.
  - intros errs. apply merged_is_multierror.
Qed.

Lemma family_owns_tree : owns_tree Demo.family 2 0.
Proof.
  eexists. split_and!; [reflexivity | reflexivity |].
  repeat constructor; (eexists; split_and!; [reflexivity | reflexivity | constructor]).
Defined.

Lemma Unregister_best_effort_witness :
  ∃ r w',
    Unregister 2 0 Demo.family = Ok r w' ∧
    (∀ m res, invoke_callback m 0 res w' = Ok tt w') ∧
    Forall (decommissioned w') [0; 1; 2]%nat ∧
    provider w' = ["cancel !w1"; "cancel w2"] ∧
    closures w' = ∅ ∧
    delivered w' = [] ∧
    (r = Some (errors_New "multiple errors unregistering") ↔
     [errors_New "cannot cancel !w1"] ≠ []) ∧
    (r = None ↔ [errors_New "cannot cancel !w1"] = []).
Proof.
  exact (Unregister_best_effort 2 0 Demo.family family_owns_tree).
Defined.

(** ** The step tracker *)

Section tracker.
Context `{CO : Collab}.

Lemma keeps_tracker_refl w : keeps_tracker w w.
Proof. intros c e He. eauto. Qed.

Lemma keeps_tracker_trans w1 w2 w3 :
  keeps_tracker w1 w2 → keeps_tracker w2 w3 → keeps_tracker w1 w3.
Proof.
  intros H12 H23 c e1 He1.
  destruct (H12 c e1 He1) as (e2 & He2 & Hp2 & Hd2).
  destruct (H23 c e2 He2) as (e3 & He3 & Hp3 & Hd3).
  exists e3. split_and!; [done | congruence | by etrans].
Qed.

Lemma bind_Ok {A B} (m : M A) (k : A → M B) (w w' : World) (b : B) :
  bind m k w = Ok b w' → ∃ a w1, m w = Ok a w1 ∧ k a w1 = Ok b w'.
Proof. unfold bind. destruct (m w) as [a w1| |]; [eauto | done..]. Qed.

Lemma keeps_ret {A} (a : A) : keeps (ret a).
Proof. intros w a' w' [= _ <-]. apply keeps_tracker_refl. Qed.

Lemma keeps_panic {A} msg : keeps (@panic _ A msg).
Proof. intros w a w' [=]. Qed.

Lemma keeps_out_of_fuel {A} : keeps (@out_of_fuel _ A).
Proof. intros w a w' [=]. Qed.

Lemma keeps_bind {A B} (m : M A) (k : A → M B) :
  keeps m → (∀ a, keeps (k a)) → keeps (bind m k).
Proof.
  intros Hm Hk w b w' Hrun. unfold bind in Hrun.
  destruct (m w) as [a w1| |] eqn:Hmw; [|done..].
  eapply keeps_tracker_trans; [by eapply Hm | by eapply Hk].
Qed.

Lemma keeps_get_exec c : keeps (get_exec c).
Proof.
  intros w a w' Hrun. unfold get_exec in Hrun.
  destruct (executors w !! c); [|done]. injection Hrun as _ <-.
  apply keeps_tracker_refl.
Qed.

Lemma keeps_get_closure l : keeps (get_closure l).
Proof.
  intros w a w' Hrun. unfold get_closure in Hrun.
  destruct (closures w !! l); [|done]. injection Hrun as _ <-.
  apply keeps_tracker_refl.
Qed.

Lemma keeps_put_closure l b : keeps (put_closure l b).
Proof. intros w a w' [= _ <-]. intros c e He. eauto. Qed.

Lemma keeps_deref {A} (p : option A) : keeps (deref p).
Proof. destruct p; [apply keeps_ret | apply keeps_panic]. Qed.

Lemma keeps_update_exec c (f : LeiseExecutorV1 → LeiseExecutorV1) :
  (∀ e, callbackPoints (f e) = callbackPoints e ∧
        dom (stepTracker e) ⊆ dom (stepTracker (f e))) →
  keeps (update_exec c f).
Proof.
  intros Hf w a w' Hrun. unfold update_exec in Hrun.
  destruct (executors w !! c) as [e|] eqn:He; [|done]. injection Hrun as _ <-.
  intros x ex Hx. simpl. destruct (decide (x = c)) as [->|Hne].
  - rewrite lookup_insert_eq. exists (f e).
    assert (ex = e) as -> by congruence. destruct (Hf e). done.
  - rewrite lookup_insert_ne by done. eauto.
Qed.

Lemma keeps_cache_Store c k v : keeps (cache_Store c k v).
Proof. apply keeps_update_exec. done. Qed.

Lemma keeps_calls_Store c k v : keeps (calls_Store c k v).
Proof.
  unfold calls_Store. apply keeps_bind; [apply keeps_get_exec | intros e].
  apply keeps_bind; [by apply keeps_update_exec | intros _; apply keeps_ret].
Qed.

Lemma keeps_mark c curRef :
  keeps (update_exec c
           (λ e, set_stepTracker (CacheV1.Store curRef None (stepTracker e)) e)).
Proof.
  apply keeps_update_exec. intros e. split; [done |]. simpl.
  unfold CacheV1.Store. rewrite dom_insert_L. apply union_subseteq_r.
Qed.

Lemma keeps_on_runtime {A} c (f : lumi_Runtime → A * lumi_Runtime) :
  keeps (on_runtime c f).
Proof.
  unfold on_runtime. apply keeps_bind; [apply keeps_get_exec | intros e].
  destruct (runtime e); [apply keeps_panic |].
  intros w a w' [= _ <-]. intros x ex Hx. eauto.
Qed.

Lemma keeps_for_each {A} (f : A → M unit) (l : list A) :
  (∀ x, keeps (f x)) → keeps (for_each f l).
Proof.
  intros Hf. induction l as [|x l IH]; simpl; [apply keeps_ret |].
  apply keeps_bind; [apply Hf | intros _; apply IH].
Qed.

End tracker.

Ltac keeps_step :=
  match goal with
  | |- keeps (bind _ _) => apply keeps_bind; [|intros ?]
  | |- keeps (ret _) => apply keeps_ret
  | |- keeps (λ w, Ok _ w) => apply keeps_ret
  | |- keeps (panic _) => apply keeps_panic
  | |- keeps out_of_fuel => apply keeps_out_of_fuel
  | |- keeps (get_exec _) => apply keeps_get_exec
  | |- keeps (get_closure _) => apply keeps_get_closure
  | |- keeps (put_closure _ _) => apply keeps_put_closure
  | |- keeps (deref _) => apply keeps_deref
  | |- keeps (cache_Store _ _ _) => apply keeps_cache_Store
  | |- keeps (calls_Store _ _ _) => apply keeps_calls_Store
  | |- keeps (on_runtime _ _) => apply keeps_on_runtime
  | |- keeps (resolveValue _ _ _) => apply resolveValue_keeps
  | |- keeps (runBoundFunctionV1 _ _ _ _) => apply runBoundFunctionV1_keeps
  | |- keeps (args2resourceargsV1 _ _ _) => apply args2resourceargsV1_keeps
  | |- keeps (match ?x with _ => _ end) => destruct x eqn:?
  end.

Section tracker_chain.
Context `{CK : Collab_keeps_tracker}.

Lemma keeps_createResource c name f ref : keeps (createResource c name f ref).
Proof. unfold createResource. repeat keeps_step. Qed.

Lemma keeps_runGlobalFunction c chunk f ref : keeps (runGlobalFunction c chunk f ref).
Proof.
  unfold runGlobalFunction. destruct (handleGlobalV1 (Id chunk)) as [h ok] eqn:Hh.
  destruct ok; [|apply keeps_createResource].
  destruct h as [h|]; [|apply keeps_ret].
  apply keeps_bind; [by eapply handleGlobalV1_keeps | intros ?].
  repeat keeps_step.
Qed.

Lemma keeps_runFunction c chunk ref : keeps (runFunction c chunk ref).
Proof.
  unfold runFunction, connectRef.
  destruct (decide _); [apply keeps_runGlobalFunction |].
  repeat keeps_step.
Qed.

Lemma keeps_runChunk c chunk ref : keeps (runChunk c chunk ref).
Proof.
  unfold runChunk. destruct (Call chunk); [| apply keeps_runFunction | |];
    repeat keeps_step.
Qed.

Lemma keeps_runRef c ref : keeps (runRef c ref).
Proof.
  unfold runRef. keeps_step; [keeps_step |].
  destruct (slice_index _ _) as [[chunk|]|];
    [apply keeps_runChunk | apply keeps_ret | apply keeps_panic].
Qed.

Lemma keeps_advance c curRef nextRef remaining :
  keeps (advance c curRef nextRef remaining).
Proof. unfold advance. repeat keeps_step. Qed.

Lemma keeps_runChain_visit invoke c curRef remaining :
  (∀ c r, keeps (invoke c r)) → keeps (runChain_visit invoke c curRef remaining).
Proof.
  intros Hinvoke. unfold runChain_visit.
  apply keeps_bind; [apply keeps_get_exec | intros e].
  destruct (CacheV1.Load curRef (cache e)) as [cached ok].
  apply keeps_bind.
  { destruct ok; [repeat keeps_step | apply keeps_runRef]. }
  intros [[res nextRef] err].
  destruct (bool_decide _); [apply keeps_ret |].
  apply keeps_bind; [|intros _; apply keeps_advance].
  unfold deliver_error, cache_error.
  destruct res as [r|], err as [er|];
    repeat first [apply Hinvoke | keeps_step].
Qed.

Lemma keeps_runChain_body invoke c curRef remaining :
  (∀ c r, keeps (invoke c r)) → keeps (runChain_body invoke c curRef remaining).
Proof.
  intros Hinvoke. unfold runChain_body.
  apply keeps_bind; [apply keeps_mark | intros _].
  by apply keeps_runChain_visit.
Qed.

Lemma keeps_triggerChain_body invoke chain c ref data :
  (∀ c r, keeps (invoke c r)) → (∀ c start, keeps (chain c start)) →
  keeps (triggerChain_body invoke chain c ref data).
Proof.
  intros Hinvoke Hchain. unfold triggerChain_body.
  apply keeps_bind; [apply keeps_get_exec | intros e].
  apply keeps_bind.
  { destruct (callbackPoints e !! ref); [apply Hinvoke | apply keeps_ret]. }
  intros _. apply keeps_bind; [apply keeps_get_exec | intros e'].
  destruct (CallsV1.Load ref (calls e')) as [nxt ok]. destruct ok.
  - destruct nxt; [apply keeps_panic | by apply keeps_for_each].
  - apply keeps_bind; [apply keeps_get_exec | intros e''].
    destruct (CacheV1.Load ref (cache e'')) as [res ok]. destruct ok; simpl.
    + apply keeps_bind; [apply keeps_deref | intros ?]. apply Hinvoke.
    + apply Hinvoke.
Qed.

Lemma keeps_block_callback_body trigger parent fun_ bind ref closure res :
  (∀ c ref data, keeps (trigger c ref data)) →
  keeps (block_callback_body trigger parent fun_ bind ref closure res).
Proof.
  intros Htrigger. unfold block_callback_body.
  destruct (SingleValue fun_).
  - apply keeps_bind; [apply keeps_cache_Store | intros _; apply Htrigger].
  - apply keeps_bind; [apply keeps_get_closure | intros b].
    apply keeps_bind; [apply keeps_deref | intros [b' resolved]].
    apply keeps_bind; [apply keeps_put_closure | intros _].
    destruct resolved; [|apply keeps_ret].
    apply keeps_bind; [apply keeps_cache_Store | intros _; apply Htrigger].
Qed.

(** The loop, the callback and the trigger, whatever the fuel. *)
Lemma keeps_chain (n : nat) :
  (∀ c nextRef remaining, keeps (runChain_loop n c nextRef remaining)) ∧
  (∀ c r, keeps (invoke_callback n c r)) ∧
  (∀ c ref data, keeps (triggerChain n c ref data)).
Proof.
  induction n as [|n (IHloop & IHinvoke & IHtrigger)].
  - split_and!.
    + intros c nextRef remaining. simpl.
      destruct (decide _); [apply keeps_ret | apply keeps_out_of_fuel].
    + intros c r. simpl. apply keeps_bind; [apply keeps_get_exec | intros e].
      destruct (callback e); [|apply keeps_ret | apply keeps_out_of_fuel].
      intros w a w' [= _ <-]. intros x ex Hx. eauto.
    + intros c ref data. apply keeps_out_of_fuel.
  - assert (∀ c r, keeps (invoke_callback (S n) c r)) as Hinvoke.
    { intros c r. simpl. apply keeps_bind; [apply keeps_get_exec | intros e].
      destruct (callback e); [|apply keeps_ret |].
      - intros w a w' [= _ <-]. intros x ex Hx. eauto.
      - by apply keeps_block_callback_body. }
    split_and!; [|exact Hinvoke|].
    + intros c nextRef remaining. simpl.
      destruct (decide _); [apply keeps_ret |].
      apply keeps_bind; [by apply keeps_runChain_body | intros ctl].
      destruct ctl; [apply keeps_ret | apply IHloop].
    + intros c ref data. simpl. apply keeps_triggerChain_body; [done |].
      intros c' start. apply IHloop.
Qed.

Lemma keeps_runChain n c start : keeps (runChain n c start).
Proof. apply keeps_chain. Qed.

(** Every iteration of the walk marks the ref it enters. *)
Lemma runChain_loop_marks (n c : nat) (nextRef : Z) (remaining : list Z) (w w' : World) :
  nextRef ≠ 0 →
  runChain_loop n c nextRef remaining w = Ok tt w' →
  ∃ e', executors w' !! c = Some e' ∧ is_Some (stepTracker e' !! nextRef).
Proof.
  intros Hne Hrun. destruct n as [|n]; simpl in Hrun;
    destruct (decide (nextRef = 0)) as [|_]; [done.. |].
  apply bind_Ok in Hrun as (ctl & w2 & Hbody & Hrest).
  unfold runChain_body in Hbody.
  apply bind_Ok in Hbody as ([] & w1 & Hmark & Hvisit).
  unfold update_exec in Hmark.
  destruct (executors w !! c) as [e|] eqn:He; [|done]. injection Hmark as <-.
  assert (keeps_tracker
            (set_executors
               (<[c := set_stepTracker (CacheV1.Store nextRef None (stepTracker e)) e]>
                  (executors w)) w) w') as Hk.
  { eapply keeps_tracker_trans.
    - eapply keeps_runChain_visit; [apply keeps_chain | exact Hvisit].
    - destruct ctl; [injection Hrest as <-; apply keeps_tracker_refl |].
      eapply (proj1 (keeps_chain n)). exact Hrest. }
  destruct (Hk c _ (lookup_insert_eq _ _ _)) as (e' & He' & _ & Hdom).
  exists e'. split; [done |]. apply elem_of_dom, Hdom. simpl.
  unfold CacheV1.Store. rewrite dom_insert_L. apply elem_of_union_l.
  by apply elem_of_singleton.
Qed.

Lemma keeps_tracked c ref w w' : keeps_tracker w w' → tracked c ref w → tracked c ref w'.
Proof.
  intros Hk (e & He & Href). destruct (Hk c e He) as (e' & He' & _ & Hdom).
  exists e'. split; [done |]. by apply elem_of_dom, Hdom, elem_of_dom.
Qed.

Lemma Load_tracked (ref : Z) (e : LeiseExecutorV1) :
  (CacheV1.Load ref (stepTracker e)).2 = true ↔ is_Some (stepTracker e !! ref).
Proof.
  unfold CacheV1.Load. destruct (stepTracker e !! ref); simpl.
  - split; [by eexists | done].
  - split; [done | by intros [? ?]].
Qed.

Lemma Run_ref_tracks n c ref w w' :
  Run_ref n c ref w = Ok tt w' →
  keeps_tracker w w' ∧ (ref ≠ 0 → tracked c ref w').
Proof.
  intros Hrun. unfold Run_ref in Hrun.
  apply bind_Ok in Hrun as (e & w1 & Hget & Hrun).
  unfold get_exec in Hget. destruct (executors w !! c) as [e0|] eqn:He; [|done].
  injection Hget as -> ->.
  destruct ((CacheV1.Load ref (stepTracker e)).2) eqn:Hload.
  - injection Hrun as <-. split; [apply keeps_tracker_refl |].
    intros _. exists e. split; [done | by apply Load_tracked].
  - split; [by eapply keeps_runChain |].
    intros Hne. by eapply runChain_loop_marks.
Qed.

Lemma for_each_Run_ref_tracks n c refs w w' :
  for_each (Run_ref n c) refs w = Ok tt w' →
  keeps_tracker w w' ∧ ∀ ref, ref ∈ refs → ref ≠ 0 → tracked c ref w'.
Proof.
  revert w. induction refs as [|ref refs IH]; intros w Hrun; simpl in Hrun.
  - injection Hrun as <-. split; [apply keeps_tracker_refl |].
    intros ref Hin. by apply elem_of_nil in Hin.
  - apply bind_Ok in Hrun as ([] & w1 & Hfirst & Hrest).
    apply Run_ref_tracks in Hfirst as [Hk1 Ht1].
    apply IH in Hrest as [Hk Ht].
    split; [by eapply keeps_tracker_trans |].
    intros x Hin Hne. apply elem_of_cons in Hin as [->|Hin]; [|by apply Ht].
    eapply keeps_tracked; [exact Hk | by apply Ht1].
Qed.

Lemma for_each_Run_ref_skips m c refs e w :
  executors w !! c = Some e →
  (∀ ref, ref ∈ refs → ref ≠ 0 → is_Some (stepTracker e !! ref)) →
  for_each (Run_ref m c) refs w = Ok tt w.
Proof.
  intros He. induction refs as [|ref refs IH]; intros Ht; simpl; [done |].
  assert (Run_ref m c ref w = Ok tt w) as Hfirst.
  { unfold Run_ref. exec_run He.
    destruct ((CacheV1.Load ref (stepTracker e)).2) eqn:Hload; [done |].
    destruct (decide (ref = 0)) as [->|Hne].
    - unfold runChain. by destruct m.
    - assert ((CacheV1.Load ref (stepTracker e)).2 = true) as Habs
        by (apply Load_tracked, Ht; [apply list_elem_of_here | done]).
      congruence. }
  unfold bind. rewrite Hfirst. apply IH.
  intros x Hin. apply Ht. by apply list_elem_of_further.
Qed.

Lemma Run_unfold n c e w :
  executors w !! c = Some e →
  Run n c w = for_each (Run_ref n c) (sorted_refs (callbackPoints e)) w.
Proof. intros He. unfold Run. by exec_run He. Qed.

Lemma sorted_refs_spec (points : gmap Z string) :
  (∀ ref, ref ∈ sorted_refs points ↔ is_Some (points !! ref)) ∧
  NoDup (sorted_refs points) ∧
  StronglySorted ref_desc (sorted_refs points).
Proof.
  assert (sorted_refs points ≡ₚ (map_to_list points).*1) as Hperm
    by apply merge_sort_Permutation.
  split_and!.
  - intros ref. rewrite Hperm. rewrite list_elem_of_fmap. split.
    + intros ([k v] & -> & Hin). apply elem_of_map_to_list in Hin. by eexists.
    + intros [v Hv]. exists (ref, v). split; [done | by apply elem_of_map_to_list].
  - rewrite Hperm. apply NoDup_fst_map_to_list.
  - apply StronglySorted_merge_sort.
    + intros x y z. unfold ref_desc. lia.
    + intros x y. unfold ref_desc. lia.
Qed.

(** C4: [Run] goes through the refs of the callback record, each once,
    larger refs first, and starts a chain walk at every ref that the
    step tracker does not hold.  Every iteration of a chain walk marks
    the ref it enters.  So once [Run] has returned, the step tracker
    holds every ref of the callback record, and a second [Run] on the
    same executor returns at once with the store, and so the results
    delivered, as the first left them. *)
Theorem Run_twice (n c : nat) (e : LeiseExecutorV1) (w w' : World) :
  executors w !! c = Some e →
  Run n c w = Ok tt w' →
  let refs := sorted_refs (callbackPoints e) in
  ((∀ ref, ref ∈ refs ↔ is_Some (callbackPoints e !! ref)) ∧
   NoDup refs ∧ StronglySorted ref_desc refs) ∧
  Run n c w = for_each (Run_ref n c) refs w ∧
  (∀ m ref remaining v v',
     ref ≠ 0 → runChain_loop m c ref remaining v = Ok tt v' → tracked c ref v') ∧
  (∃ e', executors w' !! c = Some e' ∧
         callbackPoints e' = callbackPoints e ∧
         ∀ ref, is_Some (callbackPoints e !! ref) → ref ≠ 0 →
                is_Some (stepTracker e' !! ref)) ∧
  ∀ m, Run m c w' = Ok tt w'.
Proof.
  intros He Hrun refs.
  destruct (sorted_refs_spec (callbackPoints e)) as (Hin & Hnodup & Hsorted).
  pose proof (Run_unfold n c e w He) as Hunfold.
  rewrite Hunfold in Hrun.
  apply for_each_Run_ref_tracks in Hrun as [Hk Ht].
  destruct (Hk c e He) as (e' & He' & Hcp & _).
  assert (∀ ref, is_Some (callbackPoints e !! ref) → ref ≠ 0 →
                 is_Some (stepTracker e' !! ref)) as Hall.
  { intros ref Href Hne. destruct (Ht ref) as (e2 & He2 & Htr); [by apply Hin | done |].
    congruence. }
  split_and!; [done.. | | |].
  - intros m ref remaining v v'. apply runChain_loop_marks.
  - by exists e'.
  - intros m. rewrite (Run_unfold m c e' w' He'), Hcp.
    apply for_each_Run_ref_skips with e'; [done |].
    intros ref Href Hne. apply Hall; [by apply Hin | done].
Qed.

End tracker_chain.

Lemma Demo_keeps_tracker : Collab_keeps_tracker (CO := Demo.collab).
Proof.
  split.
  - intros c p ref. simpl. unfold Demo.resolve.
    destruct p as [[]|]; apply keeps_ret.
  - intros c bind chunk ref. apply keeps_ret.
  - intros id h ok c f ref [=].
  - intros c ref args. apply keeps_ret.
Qed.

Lemma Run_twice_witness :
  ∃ w',
    Run 3 0 (Demo.world Demo.add_executor) = Ok tt w' ∧
    delivered w' = [(0%nat, {| Data := Some (Demo.int_data 5); CodeID := "chk2" |})] ∧
    ∀ m, Run m 0 w' = Ok tt w'.
Proof.
  eexists. split; [vm_compute; reflexivity |]. split; [reflexivity |].
  refine (proj2 (proj2 (proj2 (proj2
            (Run_twice 3 0 Demo.add_executor (Demo.world Demo.add_executor) _
               (CK := Demo_keeps_tracker) eq_refl _))))).
  vm_compute. reflexivity.
Defined.

(** * Further properties of llx_v1.go *)

(** ** The two maps *)




Lemma Store_edges (a b k : Z) (c : gmap Z (list Z)) :
  (k ≠ a → CallsV1.Load k (CallsV1.Store a b c).2 = CallsV1.Load k c) ∧
  (∃ edges, CallsV1.Load a (CallsV1.Store a b c).2 = (edges, true) ∧ b ∈ edges).
Proof.
  split.
  - intros Hne. unfold CallsV1.Load, CallsV1.Store.
    destruct (c !! a) as [calls|]; [destruct (CallsV1.contains calls b)|]; simpl;
      by rewrite ?lookup_insert_ne.
  - unfold CallsV1.Load, CallsV1.Store.
    destruct (c !! a) as [calls|] eqn:Ha.
    + destruct (CallsV1.contains calls b) eqn:Hb; simpl.
      * rewrite Ha. exists calls. split; [done | by apply contains_spec].
      * rewrite lookup_insert_eq. eexists. split; [done |].
        apply elem_of_app. right. apply list_elem_of_here.
    + simpl. rewrite lookup_insert_eq. eexists. split; [done |]. apply list_elem_of_here.
Qed.



(** X3: a graph built by [Store] from the empty map has no empty edge
    list: whenever [Load] finds the key, the slice it returns holds at
    least one ref.  The test [len(nxt) == 0] under which [triggerChain]
    and [triggerChainError] panic on a found key cannot succeed on
    such a graph. *)
Theorem built_edges_not_empty (k : Z) (c : gmap Z (list Z)) (nxt : list Z) :
  CallsV1.built c →
  CallsV1.Load k c = (nxt, true) →
  nxt ≠ [].
Proof.
  intros Hbuilt. revert k nxt.
  induction Hbuilt as [|a b c _ IH]; intros k nxt Hload.
  - unfold CallsV1.Load in Hload. by rewrite lookup_empty in Hload.
  - destruct (decide (k = a)) as [->|Hne].
    + destruct (Store_edges a b a c) as (_ & edges & Hedges & Hin).
      rewrite Hedges in Hload. injection Hload as <-. intros ->.
      by apply elem_of_nil in Hin.
    + destruct (Store_edges a b k c) as (Hother & _).
      rewrite Hother in Hload by done. by eapply IH.
Qed.

Lemma built_edges_not_empty_witness :
  CallsV1.built (CallsV1.Store 1 2 ∅).2 ∧
  CallsV1.Load 1 (CallsV1.Store 1 2 ∅).2 = ([2], true) ∧
  [2] ≠ [].
Proof.
  assert (CallsV1.built (CallsV1.Store 1 2 ∅).2) as Hb
    by apply CallsV1.built_Store, CallsV1.built_empty.
  split_and!; [exact Hb | reflexivity |].
  exact (built_edges_not_empty 1 (CallsV1.Store 1 2 ∅).2 [2] Hb eq_refl).
Defined.

(** ** The order of [Run] *)

(** X4: the order in which [Run] goes through the callback record does
    not depend on the order in which Go hands out the keys of the map:
    sorting any arrangement of the keys gives the same list, in which
    each ref is strictly larger than all that follow. *)
Theorem sorted_refs_any_order (points : gmap Z string) (order : list Z) :
  order ≡ₚ (map_to_list points).*1 →
  merge_sort ref_desc order = sorted_refs points ∧
  StronglySorted (λ x y, y < x) (sorted_refs points).
Proof.
  intros Hperm.
  assert (Transitive ref_desc) as Htrans by (intros x y z; unfold ref_desc; lia).
  assert (Total ref_desc) as Htotal by (intros x y; unfold ref_desc; lia).
  assert (AntiSymm (=) ref_desc) as Hanti by (intros x y; unfold ref_desc; lia).
  split.
  - apply (StronglySorted_unique ref_desc).
    + by apply StronglySorted_merge_sort.
    + by apply StronglySorted_merge_sort.
    + unfold sorted_refs. by rewrite !merge_sort_Permutation.
  - assert (NoDup (sorted_refs points)) as Hnodup.
    { unfold sorted_refs. rewrite merge_sort_Permutation. apply NoDup_fst_map_to_list. }
    assert (StronglySorted ref_desc (sorted_refs points)) as Hsorted
      by by apply StronglySorted_merge_sort.
    induction Hsorted as [|x l Hl IH Hx]; [constructor |].
    apply NoDup_cons in Hnodup as [Hnotin Hnodup].
    constructor; [by apply IH |].
    apply Forall_forall. intros y Hy.
    rewrite Forall_forall in Hx. specialize (Hx y Hy). unfold ref_desc in Hx.
    assert (x ≠ y) by (intros ->; done). lia.
Qed.

Lemma sorted_refs_any_order_witness :
  merge_sort ref_desc [2; 7; 5] = sorted_refs {[ 5 := "a"; 2 := "b"; 7 := "c" ]} ∧
  StronglySorted (λ x y, y < x) (sorted_refs {[ 5 := "a"; 2 := "b"; 7 := "c" ]}).
Proof.
  apply (sorted_refs_any_order {[ 5 := "a"; 2 := "b"; 7 := "c" ]} [2; 7; 5]).
  vm_compute. apply (bool_decide_unpack _). vm_compute. exact I.
Defined.

(** ** Construction *)

Section construction.
Context `{CO : Collab}.

Lemma valid_point_dec (checksums : gmap Z string) (ref : Z) :
  Decision (valid_point checksums ref).
Proof. unfold valid_point. apply _. Qed.

Lemma register_entrypoints_valid checksums refs entrypoints points :
  Forall (valid_point checksums) refs →
  register_entrypoints checksums refs entrypoints points =
    inr (list_to_set refs ∪ entrypoints,
         foldl (λ points ref, <[ref := default "" (checksums !! ref)]> points) points refs).
Proof.
  intros Hvalid. revert entrypoints points.
  induction Hvalid as [|ref refs [Hid Href] _ IH]; intros entrypoints points; simpl.
  - by rewrite (left_id_L ∅ (∪)).
  - destruct (decide (default "" (checksums !! ref) = "")); [done |].
    destruct (decide (ref < 1)); [lia |].
    rewrite IH. do 2 f_equal.
    by rewrite (assoc_L (∪)), (comm_L (∪) (list_to_set refs) {[ref]}).
Qed.

Lemma register_entrypoints_invalid checksums refs entrypoints points :
  ¬ Forall (valid_point checksums) refs →
  ∃ err, register_entrypoints checksums refs entrypoints points = inl err.
Proof.
  revert entrypoints points.
  induction refs as [|ref refs IH]; intros entrypoints points Hinvalid; simpl.
  - destruct Hinvalid. constructor.
  - destruct (decide (default "" (checksums !! ref) = "")); [eauto |].
    destruct (decide (ref < 1)); [eauto |].
    apply IH. intros Hrest. apply Hinvalid. constructor; [|done].
    split; [done | lia].
Qed.

Lemma register_datapoints_valid checksums refs points :
  Forall (valid_point checksums) refs →
  register_datapoints checksums refs points =
    inr (foldl (λ points ref, <[ref := default "" (checksums !! ref)]> points) points refs).
Proof.
  intros Hvalid. revert points.
  induction Hvalid as [|ref refs [Hid Href] _ IH]; intros points; simpl; [done |].
  destruct (decide (default "" (checksums !! ref) = "")); [done |].
  destruct (decide (ref < 1)); [lia |]. by rewrite IH.
Qed.

Lemma register_datapoints_invalid checksums refs points :
  ¬ Forall (valid_point checksums) refs →
  ∃ err, register_datapoints checksums refs points = inl err.
Proof.
  revert points. induction refs as [|ref refs IH]; intros points Hinvalid; simpl.
  - destruct Hinvalid. constructor.
  - destruct (decide (default "" (checksums !! ref) = "")); [eauto |].
    destruct (decide (ref < 1)); [eauto |].
    apply IH. intros Hrest. apply Hinvalid. constructor; [|done].
    split; [done | lia].
Qed.

Lemma record_of_lookup checksums refs ref codeID :
  record_of checksums refs !! ref = Some codeID ↔
  ref ∈ refs ∧ default "" (checksums !! ref) = codeID.
Proof.
  induction refs as [|x refs IH] using rev_ind.
  - unfold record_of. simpl. rewrite lookup_empty. split; [done |].
    intros [Hin _]. by apply elem_of_nil in Hin.
  - unfold record_of in *. rewrite foldl_app. simpl. rewrite elem_of_app.
    destruct (decide (ref = x)) as [->|Hne].
    + rewrite lookup_insert_eq. split.
      * intros [= <-]. split; [right; apply list_elem_of_here | done].
      * by intros [_ ->].
    + rewrite lookup_insert_ne by done. rewrite IH. split.
      * intros [Hin Hc]. auto.
      * intros [[Hin|Hin] Hc]; [done |].
        apply list_elem_of_singleton in Hin. done.
Qed.

Lemma record_of_app checksums refs1 refs2 :
  foldl (λ points ref, <[ref := default "" (checksums !! ref)]> points)
    (record_of checksums refs1) refs2 = record_of checksums (refs1 ++ refs2).
Proof. unfold record_of. by rewrite foldl_app. Qed.

Lemma record_of_empty checksums refs :
  size (record_of checksums refs) = 0%nat ↔ refs = [].
Proof.
  split; [|by intros ->].
  intros Hsize. apply map_size_empty_iff in Hsize.
  destruct refs as [|ref refs]; [done |].
  assert (is_Some (record_of checksums (ref :: refs) !! ref)) as [codeID Hc].
  { exists (default "" (checksums !! ref)). apply record_of_lookup.
    split; [apply list_elem_of_here | done]. }
  by rewrite Hsize, lookup_empty in Hc.
Qed.

(** X5: [NewExecutorV1] accepts a program in which every entrypoint and
    datapoint has a checksum and a ref of at least 1, and there is at
    least one of them.  The executor it returns sits at an address that
    was free; its callback record maps every one of those refs, and no
    other, to its checksum, so no ref of the record is below 1 and no
    code ID is empty; its cache, step tracker, call graph and list of
    block executors are empty. *)
Theorem NewExecutorV1_accepts (program : CodeV1)
    (properties : gmap string (option Primitive))
    (cb : ResultCallback) (id : string) (w w1 : World) :
  let refs := Entrypoints program ++ Datapoints program in
  uuid_NewV4 w = Ok id w1 →
  Forall (valid_point (Checksums program)) refs →
  refs ≠ [] →
  ∃ a e,
    NewExecutorV1 (Some program) the_runtime properties cb w =
      Ok (Some a, None) (set_executors (<[a := e]> (executors w1)) w1) ∧
    executors w1 !! a = None ∧
    (∀ ref codeID,
       callbackPoints e !! ref = Some codeID ↔
       ref ∈ refs ∧ Checksums program !! ref = Some codeID) ∧
    (∀ ref codeID, callbackPoints e !! ref = Some codeID → 1 ≤ ref ∧ codeID ≠ "") ∧
    entrypoints e = list_to_set (Entrypoints program) ∧
    code e = program ∧ callback e = cb ∧ props e = properties ∧ exec_id e = id ∧
    cache e = ∅ ∧ stepTracker e = ∅ ∧ calls e = ∅ ∧ blockExecutors e = [].
Proof.
  intros refs Huuid Hvalid Hne.
  assert (Forall (valid_point (Checksums program)) (Entrypoints program) ∧
          Forall (valid_point (Checksums program)) (Datapoints program)) as [Hentry Hdata]
    by by apply Forall_app.
  assert (∀ ref codeID,
            record_of (Checksums program) refs !! ref = Some codeID ↔
            ref ∈ refs ∧ Checksums program !! ref = Some codeID) as Hrecord.
  { intros ref codeID. rewrite record_of_lookup. split.
    - intros [Hin Hc]. split; [done |].
      rewrite Forall_forall in Hvalid. destruct (Hvalid ref Hin) as [Hid _].
      destruct (Checksums program !! ref); simpl in *; [by subst | done].
    - intros [Hin Hc]. split; [done |]. by rewrite Hc. }
  exists (fresh (dom (executors w1))),
    {| exec_id := id; watcherIds := ∅; blockExecutors := []; runtime := the_runtime;
       code := program; entrypoints := list_to_set (Entrypoints program);
       callbackPoints := record_of (Checksums program) refs; callback := cb;
       cache := ∅; stepTracker := ∅; calls := ∅; starts := [];
       props := properties |}.
  split_and!; [| | exact Hrecord | | reflexivity..].
  - unfold NewExecutorV1. unfold bind at 1. rewrite Huuid.
    rewrite register_entrypoints_valid by done.
    rewrite register_datapoints_valid by done.
    fold (record_of (Checksums program) (Entrypoints program)).
    rewrite record_of_app. fold refs.
    destruct (decide (size (record_of (Checksums program) refs) = 0%nat)) as [Hsize|_].
    { by apply record_of_empty in Hsize. }
    unfold bind, alloc_exec, ret. simpl. do 3 f_equal.
    by rewrite (right_id_L ∅ (∪)).
  - apply not_elem_of_dom, is_fresh.
  - intros ref codeID Hc. simpl in Hc. apply Hrecord in Hc as [Hin Hc].
    rewrite Forall_forall in Hvalid. destruct (Hvalid ref Hin) as [Hid Href].
    rewrite Hc in Hid. done.
Qed.

(** X6: [NewExecutorV1] rejects everything else, and then no executor
    is created: without a runtime or without code it returns an error
    and leaves the store as it is; with an entrypoint or datapoint that
    has no checksum or a ref below 1, or with none at all, it returns an
    error and the executors are those there were. *)
Theorem NewExecutorV1_rejects (program : option CodeV1) (rt : Runtime_ptr)
    (properties : gmap string (option Primitive)) (cb : ResultCallback) (w : World) :
  (rt = nil_runtime →
   NewExecutorV1 program rt properties cb w =
     Ok (None, Some (errors_New "cannot exec leise without a runtime")) w) ∧
  (rt = the_runtime → program = None →
   NewExecutorV1 program rt properties cb w =
     Ok (None, Some (errors_New "cannot RunChunky without code")) w) ∧
  (∀ cd id w1,
     rt = the_runtime → program = Some cd →
     uuid_NewV4 w = Ok id w1 →
     ¬ Forall (valid_point (Checksums cd)) (Entrypoints cd ++ Datapoints cd) ∨
     Entrypoints cd ++ Datapoints cd = [] →
     ∃ err, NewExecutorV1 program rt properties cb w = Ok (None, Some err) w1).
Proof.
  split_and!.
  - intros ->. by destruct program.
  - by intros -> ->.
  - intros cd id w1 -> -> Huuid Hbad.
    unfold NewExecutorV1. unfold bind at 1. rewrite Huuid.
    destruct (decide (Forall (valid_point (Checksums cd)) (Entrypoints cd)))
      as [Hentry|Hentry].
    + rewrite register_entrypoints_valid by done.
      destruct (decide (Forall (valid_point (Checksums cd)) (Datapoints cd)))
        as [Hdata|Hdata].
      * rewrite register_datapoints_valid by done.
        fold (record_of (Checksums cd) (Entrypoints cd)). rewrite record_of_app.
        destruct Hbad as [Hbad|Hbad].
        { destruct Hbad. by apply Forall_app. }
        rewrite Hbad. simpl. eauto.
      * destruct (register_datapoints_invalid (Checksums cd) (Datapoints cd)
                    (foldl (λ points ref, <[ref := default "" (Checksums cd !! ref)]> points)
                       ∅ (Entrypoints cd)) Hdata) as [err ->].
        eauto.
    + destruct (register_entrypoints_invalid (Checksums cd) (Entrypoints cd) ∅ ∅ Hentry)
        as [err ->].
      eauto.
Qed.

End construction.

Lemma NewExecutorV1_accepts_witness :
  ∃ a e,
    NewExecutorV1 (Some Demo.fields) the_runtime ∅ caller_callback
        (Demo.world Demo.add_executor) =
      Ok (Some a, None)
         (set_executors (<[a := e]> (executors (Demo.world Demo.add_executor)))
            (Demo.world Demo.add_executor)) ∧
    executors (Demo.world Demo.add_executor) !! a = None ∧
    (∀ ref codeID,
       callbackPoints e !! ref = Some codeID ↔
       ref ∈ [2; 3] ∧ Checksums Demo.fields !! ref = Some codeID) ∧
    (∀ ref codeID, callbackPoints e !! ref = Some codeID → 1 ≤ ref ∧ codeID ≠ "") ∧
    entrypoints e = ∅ ∧
    code e = Demo.fields ∧ callback e = caller_callback ∧ props e = ∅ ∧
    exec_id e = "00000000-0000-4000-8000-000000000000" ∧
    cache e = ∅ ∧ stepTracker e = ∅ ∧ calls e = ∅ ∧ blockExecutors e = [].
Proof.
  apply (NewExecutorV1_accepts (CO := Demo.collab) Demo.fields ∅ caller_callback
           "00000000-0000-4000-8000-000000000000"
           (Demo.world Demo.add_executor) (Demo.world Demo.add_executor)).
  - reflexivity.
  - repeat constructor; simpl; (discriminate || lia).
  - discriminate.
Defined.

Lemma NewExecutorV1_rejects_witness :
  ∃ err,
    NewExecutorV1 (Some (Demo.program [Some (Demo.literal 5)] [0] {[ 0 := "chk0" ]}))
        the_runtime ∅ caller_callback (Demo.world Demo.add_executor) =
      Ok (None, Some err) (Demo.world Demo.add_executor).
Proof.
  refine (proj2 (proj2 (NewExecutorV1_rejects (CO := Demo.collab)
            (Some (Demo.program [Some (Demo.literal 5)] [0] {[ 0 := "chk0" ]}))
            the_runtime ∅ caller_callback (Demo.world Demo.add_executor)))
            _ "00000000-0000-4000-8000-000000000000" _ eq_refl eq_refl _ _);
    [reflexivity |].
  left. intros Hvalid. apply Forall_cons in Hvalid as [[_ Href] _]. lia.
Defined.

(** ** More on the chain walk *)

(** Steps through a computation that reads the executor at [c] again
    after having written to it. *)
Ltac exec_store H :=
  repeat first [progress exec_unfold | rewrite H | rewrite lookup_insert_eq
               | progress simpl].

Section chain_more.
Context `{CO : Collab}.

(** X7: a ref that the cache holds is not evaluated again.  One
    iteration of the chain walk on such a ref only marks it in the step
    tracker, hands the cached result to the callback if the ref is in the
    callback record, and moves on to the refs registered against it;
    the chunk at the ref is not looked at and the provider is not
    called.  When the cached result is nil, the walk ends there. *)
Theorem runChain_cached (n c : nat) (curRef : Z) (remaining : list Z)
    (e : LeiseExecutorV1) (cached : stepCache) (w : World) :
  executors w !! c = Some e →
  callback e = caller_callback →
  CacheV1.Load curRef (cache e) = (Some cached, true) →
  (∀ r, Result cached = Some r →
     runChain_body (invoke_callback n) c curRef remaining w =
       Ok (next_in_chain (CallsV1.Load curRef (calls e)).1 remaining)
          (match callbackPoints e !! curRef with
           | Some codeID =>
               set_delivered
                 (delivered w ++ [(c, {| Data := Some r; CodeID := codeID |})])
                 (entered c curRef e w)
           | None => entered c curRef e w
           end)) ∧
  (Result cached = None →
     runChain_body (invoke_callback n) c curRef remaining w =
       Ok loop_done (entered c curRef e w)).
Proof.
  intros He Hcb Hcache.
  assert (executors (entered c curRef e w) !! c =
          Some (set_stepTracker (CacheV1.Store curRef None (stepTracker e)) e)) as He1
    by apply lookup_insert_eq.
  split.
  - intros r Hr. unfold runChain_body, runChain_visit. exec_store He.
    rewrite Hcache. exec_store He. rewrite Hr.
    rewrite bool_decide_eq_false_2 by (intros ([=] & _)).
    exec_store He. fold (entered c curRef e w).
    destruct (callbackPoints e !! curRef) as [codeID|].
    + rewrite (invoke_caller_callback n c _ _ _ He1) by done.
      unfold advance. simpl. by exec_store He1.
    + unfold advance. simpl. by exec_store He1.
  - intros Hr. unfold runChain_body, runChain_visit. exec_store He.
    rewrite Hcache. exec_store He. rewrite Hr. by rewrite bool_decide_eq_true_2.
Qed.

Lemma runChain_body_no_result (invoke : nat → RawResult → M unit) (c : nat)
    (curRef nextRef : Z) (remaining : list Z) (e : LeiseExecutorV1) (w w' : World) :
  executors w !! c = Some e →
  (CacheV1.Load curRef (cache e)).2 = false →
  runRef c curRef (entered c curRef e w) = Ok (None, nextRef, None) w' →
  runChain_body invoke c curRef remaining w =
    Ok (if decide (nextRef = 0) then loop_done else loop_next nextRef remaining) w'.
Proof.
  intros He Hcache Hrun.
  unfold runChain_body, runChain_visit. exec_run He.
  rewrite lookup_insert_eq. simpl.
  destruct (CacheV1.Load curRef (cache e)) as [cached ok]. simpl in Hcache. subst ok.
  fold (entered c curRef e w). rewrite Hrun. simpl.
  destruct (decide (nextRef = 0)) as [->|Hnext].
  - by rewrite bool_decide_eq_true_2.
  - rewrite bool_decide_eq_false_2 by (intros (_ & ? & _); done).
    unfold advance. destruct (decide (nextRef = 0)); [done |]. reflexivity.
Qed.

(** X8: what the evaluation of a ref that is not cached returns decides
    where the walk goes.  When it returns nothing at all (no result, no
    next ref, no error) the walk ends at once and the refs still queued
    are not visited; when it returns only a next ref, nothing is
    delivered or cached and the walk goes on at that ref with the queue
    as it was.  This holds whatever callback the executor holds. *)
Theorem runChain_loop_without_result (n c : nat) (curRef nextRef : Z)
    (remaining : list Z) (e : LeiseExecutorV1) (w w' : World) :
  curRef ≠ 0 →
  executors w !! c = Some e →
  (CacheV1.Load curRef (cache e)).2 = false →
  runRef c curRef (entered c curRef e w) = Ok (None, nextRef, None) w' →
  runChain_loop (S n) c curRef remaining w =
    if decide (nextRef = 0) then Ok tt w'
    else runChain_loop n c nextRef remaining w'.
Proof.
  intros Hne He Hcache Hrun. cbn [runChain_loop].
  destruct (decide (curRef = 0)) as [|_]; [done |].
  unfold bind.
  rewrite (runChain_body_no_result _ c curRef nextRef remaining e w w') by done.
  by destruct (decide (nextRef = 0)).
Qed.

(** X9: a call bound to a receiver ref that has no cached value sends
    the walk to the receiver.  Started at such a ref, the walk marks
    it, stores the edge from the receiver and goes on at the receiver
    with the queue unchanged; nothing is delivered and nothing is
    cached.  When the edge is already there, the walk ends at the ref
    and the queue is dropped. *)
Theorem runChain_loop_forward_reference (n c : nat) (ref : Z) (remaining : list Z)
    (chunk : Chunk) (e : LeiseExecutorV1) (w : World) :
  let receiver := DeprecatedV5Binding (default emptyFunction (Chunk_Function chunk)) in
  ref ≠ 0 →
  executors w !! c = Some e →
  slice_index (Code (code e)) (int32 (ref - 1)) = Some (Some chunk) →
  Call chunk = Chunk_FUNCTION →
  receiver ≠ 0 →
  (CacheV1.Load ref (cache e)).2 = false →
  (CacheV1.Load receiver (cache e)).2 = false →
  ((∀ l, calls e !! receiver = Some l → ref ∉ l) →
   runChain_loop (S n) c ref remaining w =
     runChain_loop n c receiver remaining
       (set_executors
          (<[c := set_calls
                    (<[receiver := (CallsV1.Load receiver (calls e)).1 ++ [ref]]> (calls e))
                    (set_stepTracker (CacheV1.Store ref None (stepTracker e)) e)]>
             (executors w)) w)) ∧
  (∀ l, calls e !! receiver = Some l → ref ∈ l →
   runChain_loop (S n) c ref remaining w = Ok tt (entered c ref e w)).
Proof.
  intros receiver Href He Hchunk Hcall Hrecv Hcache Hcache'.
  set (e1 := set_stepTracker (CacheV1.Store ref None (stepTracker e)) e).
  assert (executors (entered c ref e w) !! c = Some e1) as He1 by apply lookup_insert_eq.
  assert (∀ r, CallsV1.Store receiver ref (calls e) = r →
    runRef c ref (entered c ref e w) =
      Ok (None, if r.1 then 0 else receiver, None)
         (set_executors (<[c := set_calls r.2 e1]> (executors (entered c ref e w)))
            (entered c ref e w))) as Hrun.
  { intros r Hr. unfold runRef. exec_run He1. rewrite Hchunk.
    unfold runChunk. rewrite Hcall. unfold runFunction. fold receiver.
    destruct (decide (receiver = 0)) as [|_]; [done |].
    exec_run He1.
    destruct (CacheV1.Load receiver (cache e)) as [res ok]. simpl in Hcache'.
    subst ok. simpl. unfold connectRef. exec_run He1. rewrite Hr.
    exec_run He1. by destruct (r.1). }
  assert (∀ nextRef w',
    runRef c ref (entered c ref e w) = Ok (None, nextRef, None) w' →
    runChain_loop (S n) c ref remaining w =
      if decide (nextRef = 0) then Ok tt w'
      else runChain_loop n c nextRef remaining w') as Hloop.
  { intros nextRef w' Hr. cbn [runChain_loop].
    destruct (decide (ref = 0)) as [|_]; [done |]. unfold bind.
    rewrite (runChain_body_no_result _ c ref nextRef remaining e w w') by done.
    by destruct (decide (nextRef = 0)). }
  split.
  - intros Hnew.
    rewrite (Hloop receiver _ (Hrun _ (Store_absent _ _ _ Hnew))).
    destruct (decide (receiver = 0)) as [|_]; [done |]. simpl.
    assert ((CallsV1.Load receiver (calls e)).1 = default [] (calls e !! receiver)) as ->
      by (unfold CallsV1.Load; by destruct (calls e !! receiver)).
    f_equal. unfold entered, set_executors. simpl. by rewrite insert_insert_eq.
  - intros l Hl Hin.
    rewrite (Hloop 0 _ (Hrun _ (Store_present _ _ _ _ Hl Hin))).
    simpl. f_equal. change (calls e) with (calls e1).
    rewrite set_calls_id. apply (update_exec_id c e1 (entered c ref e w) He1).
Qed.

End chain_more.

Lemma runChain_cached_witness :
  runChain_body (invoke_callback 0) 0 1 [] (Demo.world Demo.resolved_executor) =
    Ok loop_done
       (set_delivered [(0%nat, {| Data := Some (Demo.int_data 5); CodeID := "chk1" |})]
          (entered 0 1 Demo.resolved_executor (Demo.world Demo.resolved_executor))).
Proof.
  exact (proj1 (runChain_cached 0 0 1 [] Demo.resolved_executor
                  {| Result := Some (Demo.int_data 5); IsStatic := true |}
                  (Demo.world Demo.resolved_executor) eq_refl eq_refl eq_refl)
           (Demo.int_data 5) eq_refl).
Defined.

Lemma runChain_loop_without_result_witness :
  let e := set_calls {[ 1 := [2] ]} Demo.add_executor in
  runChain_loop 1 0 2 [7] (Demo.world e) = Ok tt (entered 0 2 e (Demo.world e)).
Proof.
  intros e.
  refine (runChain_loop_without_result 0 0 2 0 [7] e (Demo.world e)
            (entered 0 2 e (Demo.world e)) _ eq_refl eq_refl _).
  - lia.
  - vm_compute. reflexivity.
Defined.

Lemma runChain_loop_forward_reference_witness :
  runChain_loop 3 0 2 [] (Demo.world Demo.add_executor) =
    runChain_loop 2 0 1 []
      (set_executors
         {[ 0%nat := set_calls {[ 1 := [2] ]}
                       (set_stepTracker {[ 2 := None ]} Demo.add_executor) ]}
         (Demo.world Demo.add_executor)).
Proof.
  refine (proj1 (runChain_loop_forward_reference 2 0 2 [] (Demo.call "add" 1)
            Demo.add_executor (Demo.world Demo.add_executor)
            _ eq_refl eq_refl eq_refl _ eq_refl eq_refl) _).
  - lia.
  - simpl. lia.
  - intros l Hl. vm_compute in Hl. discriminate.
Defined.

Section evaluation.
Context `{CO : Collab}.

(** X10: resource creation calls the provider only once the arguments
    are resolved, and caches what it creates.  When the arguments come
    back with an error or with a ref to run first, that is returned and
    the provider is not called; when the provider creates the resource,
    the value is returned and cached at the ref as static, typed as the
    resource of that name. *)
Theorem createResource_creates (c : nat) (name : string) (f : Function) (ref rref : Z)
    (args : list (option payload)) (err : option error) (w wa : World) :
  args2resourceargsV1 c ref (Args f) w = Ok (args, rref, err) wa →
  (err ≠ None ∨ rref ≠ 0 →
   createResource c name f ref w = Ok (None, rref, err) wa) ∧
  (∀ ea resource p,
     err = None → rref = 0 →
     executors wa !! c = Some ea →
     runtime ea = the_runtime →
     runtime_CreateResource name args (provider wa) = ((resource, None), p) →
     let value := {| Typ := types_Resource name; Value := Resource_value <$> resource;
                     Error := None |} in
     createResource c name f ref w =
       Ok (Some value, 0, None)
          (set_executors
             (<[c := set_cache
                       (CacheV1.Store ref (Some {| Result := Some value; IsStatic := true |})
                          (cache ea)) ea]> (executors wa))
             (set_provider p wa))).
Proof.
  intros Hargs. split.
  - intros Hbad. unfold createResource. unfold bind at 1. rewrite Hargs.
    by rewrite bool_decide_eq_true_2.
  - intros ea resource p -> -> Hea Hrt Hcreate value.
    unfold createResource. unfold bind at 1. rewrite Hargs.
    rewrite bool_decide_eq_false_2 by (intros [?|?]; done).
    exec_run Hea. rewrite Hrt, Hcreate. by exec_run Hea.
Qed.

(** X11: the bounds of [runRef].  The chunk of ref [r] is the element
    [r - 1] of the program: a ref below 1 or beyond the length of the
    program panics with an index out of range, and a ref whose chunk is
    nil returns an error that names the ref and leaves the store as it
    is. *)
Theorem runRef_bounds (c : nat) (ref : Z) (e : LeiseExecutorV1) (w : World) :
  executors w !! c = Some e →
  - 2147483648 ≤ ref < 2147483648 →
  Z.of_nat (length (Code (code e))) < 2147483647 →
  (ref < 1 ∨ Z.of_nat (length (Code (code e))) < ref →
   runRef c ref w = Panic "index out of range") ∧
  (1 ≤ ref ≤ Z.of_nat (length (Code (code e))) →
   ∃ chunk,
     Code (code e) !! Z.to_nat (ref - 1) = Some chunk ∧
     runRef c ref w =
       match chunk with
       | Some chunk => runChunk c chunk ref w
       | None =>
           Ok (None, 0,
               Some (errors_New
                       ("Called a chunk that doesn't exist, ref = " +:+ FormatInt ref))) w
       end).
Proof.
  intros He Hrange Hlen.
  assert (∀ z, - 2147483648 ≤ z < 2147483648 → int32 z = z) as Hid.
  { intros z Hz. unfold int32. rewrite Z.mod_small; lia. }
  split.
  - intros Hout. unfold runRef. exec_run He. unfold slice_index.
    destruct (decide (ref = - 2147483648)) as [->|Hmin].
    + change (int32 (-2147483648 - 1)) with 2147483647.
      destruct (decide (2147483647 < 0)); [lia |].
      rewrite lookup_ge_None_2; [done | lia].
    + rewrite Hid by lia.
      destruct (decide (ref - 1 < 0)); [done |].
      rewrite lookup_ge_None_2; [done | lia].
  - intros Hin. rewrite <- (Hid (ref - 1)) by lia.
    destruct (lookup_lt_is_Some_2 (Code (code e)) (Z.to_nat (int32 (ref - 1))))
      as [chunk Hchunk]; [rewrite Hid; lia |].
    exists chunk. split; [done |].
    unfold runRef. exec_run He. unfold slice_index.
    destruct (decide (int32 (ref - 1) < 0)); [rewrite Hid in *; lia |].
    rewrite Hchunk. by destruct chunk.
Qed.

(** X12: a primitive chunk caches whatever its resolution yields.  A
    result is cached at the ref, not static; an error that comes without
    a result is cached as an error value of the zero type, not static,
    and this whatever the error is, a not-ready error included; the triple
    resolution returned is returned unchanged. *)
Theorem runChunk_primitive_cached (c : nat) (chunk : Chunk) (ref dref : Z)
    (res : option RawData) (err : option error) (e' : LeiseExecutorV1) (w w' : World) :
  Call chunk = Chunk_PRIMITIVE →
  resolveValue c (Chunk_Primitive chunk) ref w = Ok (res, dref, err) w' →
  executors w' !! c = Some e' →
  runChunk c chunk ref w =
    Ok (res, dref, err)
       (match res, err with
        | Some _, _ =>
            set_executors
              (<[c := set_cache
                        (CacheV1.Store ref (Some {| Result := res; IsStatic := false |})
                           (cache e')) e']> (executors w')) w'
        | None, Some er =>
            set_executors
              (<[c := set_cache
                        (CacheV1.Store ref
                           (Some {| Result := Some {| Typ := types_zero; Value := None;
                                                      Error := Some er |};
                                    IsStatic := false |})
                           (cache e')) e']> (executors w')) w'
        | None, None => w'
        end).
Proof.
  intros Hcall Hresolve He'. unfold runChunk. rewrite Hcall.
  unfold bind at 1. rewrite Hresolve.
  destruct res as [r|], err as [er|]; by exec_run He'.
Qed.

(** X13: a property chunk.  A name that is not bound returns an error
    that names the property, and leaves the store as it is.  A bound
    property is resolved; what it yields is cached at the ref, not
    static, only when it comes with no error and no ref to run first,
    and is returned as it is otherwise. *)
Theorem runChunk_property (c : nat) (chunk : Chunk) (ref : Z)
    (e : LeiseExecutorV1) (w : World) :
  Call chunk = Chunk_PROPERTY →
  executors w !! c = Some e →
  (props e !! Id chunk = None →
   runChunk c chunk ref w =
     Ok (None, 0, Some (errors_New ("cannot find property '" +:+ Id chunk +:+ "'"))) w) ∧
  (∀ property res dref err w' e',
     props e !! Id chunk = Some property →
     resolveValue c property ref w = Ok (res, dref, err) w' →
     executors w' !! c = Some e' →
     runChunk c chunk ref w =
       Ok (res, dref, err)
          (if bool_decide (dref ≠ 0 ∨ err ≠ None) then w'
           else set_executors
                  (<[c := set_cache
                            (CacheV1.Store ref (Some {| Result := res; IsStatic := false |})
                               (cache e')) e']> (executors w')) w')).
Proof.
  intros Hcall He. split.
  - intros Hprop. unfold runChunk. rewrite Hcall. exec_run He. by rewrite Hprop.
  - intros property res dref err w' e' Hprop Hresolve He'.
    unfold runChunk. rewrite Hcall. exec_run He. rewrite Hprop.
    rewrite Hresolve. simpl.
    destruct (bool_decide (dref ≠ 0 ∨ err ≠ None)); [done |]. by exec_run He'.
Qed.

(** X14: how a call without receiver is dispatched.  A name that is
    registered as a global function without a handler returns an error
    and leaves the store as it is.  With a handler, what the handler
    returns is returned, and its result, when there is one, is cached at
    the ref, not static, even when it comes with an error or a ref to
    run first.  A name that is not registered is a resource to create. *)
Theorem runGlobalFunction_dispatch (c : nat) (chunk : Chunk) (f : Function) (ref : Z)
    (w : World) :
  (handleGlobalV1 (Id chunk) = (None, true) →
   runGlobalFunction c chunk f ref w =
     Ok (None, 0,
         Some (errors_New ("found function " +:+ Id chunk +:+
           " but no handler. this should not happen and points to an implementation error")))
        w) ∧
  (∀ h res dref err w' e',
     handleGlobalV1 (Id chunk) = (Some h, true) →
     h c f ref w = Ok (res, dref, err) w' →
     executors w' !! c = Some e' →
     runGlobalFunction c chunk f ref w =
       Ok (res, dref, err)
          (match res with
           | Some _ =>
               set_executors
                 (<[c := set_cache
                           (CacheV1.Store ref (Some {| Result := res; IsStatic := false |})
                              (cache e')) e']> (executors w')) w'
           | None => w'
           end)) ∧
  (∀ h, handleGlobalV1 (Id chunk) = (h, false) →
     runGlobalFunction c chunk f ref w = createResource c (Id chunk) f ref w).
Proof.
  split_and!.
  - intros Hh. unfold runGlobalFunction. by rewrite Hh.
  - intros h res dref err w' e' Hh Hrun He'. unfold runGlobalFunction. rewrite Hh.
    unfold bind at 1. rewrite Hrun. destruct res; by exec_run He'.
  - intros h Hh. unfold runGlobalFunction. by rewrite Hh.
Qed.

End evaluation.

Lemma createResource_creates_witness :
  createResource 0 "mount" (Build_Function 0 []) 1 Demo.host_world =
    Ok (Some Demo.mount, 0, None)
       (set_executors
          {[ 0%nat := set_cache {[ 1 := Some {| Result := Some Demo.mount;
                                                IsStatic := true |} ]}
                        Demo.host_executor ]}
          (set_provider ["create mount"] Demo.host_world)).
Proof.
  refine (proj2 (createResource_creates (CO := Demo.collab) 0 "mount"
            (Build_Function 0 []) 1 0 [] None Demo.host_world Demo.host_world _)
            Demo.host_executor (Some "mount") ["create mount"] eq_refl eq_refl _ _ _);
    reflexivity.
Defined.

Lemma runRef_bounds_witness :
  runRef 0 3 (Demo.world Demo.add_executor) = Panic "index out of range" ∧
  runRef 0 0 (Demo.world Demo.add_executor) = Panic "index out of range".
Proof.
  split.
  - refine (proj1 (runRef_bounds (CO := Demo.collab) 0 3 Demo.add_executor
              (Demo.world Demo.add_executor) eq_refl _ _) _); simpl; lia.
  - refine (proj1 (runRef_bounds (CO := Demo.collab) 0 0 Demo.add_executor
              (Demo.world Demo.add_executor) eq_refl _ _) _); simpl; lia.
Defined.

Lemma runChunk_primitive_cached_witness :
  runChunk 0 (Demo.literal 5) 1 (Demo.world Demo.add_executor) =
    Ok (Some (Demo.int_data 5), 0, None)
       (set_executors
          {[ 0%nat := set_cache {[ 1 := Some {| Result := Some (Demo.int_data 5);
                                                IsStatic := false |} ]}
                        Demo.add_executor ]}
          (Demo.world Demo.add_executor)).
Proof.
  refine (runChunk_primitive_cached (CO := Demo.collab) 0 (Demo.literal 5) 1 0
            (Some (Demo.int_data 5)) None Demo.add_executor
            (Demo.world Demo.add_executor) (Demo.world Demo.add_executor) _ _ _);
    reflexivity.
Defined.

Lemma runChunk_property_witness :
  runChunk 0 (Demo.property "x") 1 Demo.property_world =
    Ok (None, 0, Some (errors_New "cannot find property 'x'")) Demo.property_world.
Proof.
  refine (proj1 (runChunk_property (CO := Demo.collab) 0 (Demo.property "x") 1
            Demo.property_executor Demo.property_world _ _) _); reflexivity.
Defined.

Lemma runGlobalFunction_dispatch_witness :
  runGlobalFunction (CO := Demo.globals) 0 (Demo.call "stub" 0) (Build_Function 0 []) 1
      Demo.host_world =
    Ok (None, 0,
        Some (errors_New "found function stub but no handler. this should not happen and points to an implementation error"))
       Demo.host_world ∧
  runGlobalFunction (CO := Demo.globals) 0 (Demo.call "now" 0) (Build_Function 0 []) 1
      Demo.host_world =
    Ok (Some (Demo.int_data 0), 0, None)
       (set_executors
          {[ 0%nat := set_cache {[ 1 := Some {| Result := Some (Demo.int_data 0);
                                                IsStatic := false |} ]}
                        Demo.host_executor ]}
          Demo.host_world) ∧
  runGlobalFunction (CO := Demo.globals) 0 (Demo.call "mount" 0) (Build_Function 0 []) 1
      Demo.host_world =
    createResource (CO := Demo.globals) 0 "mount" (Build_Function 0 []) 1 Demo.host_world.
Proof.
  split_and!.
  - exact (proj1 (runGlobalFunction_dispatch (CO := Demo.globals) 0 (Demo.call "stub" 0)
                    (Build_Function 0 []) 1 Demo.host_world) eq_refl).
  - exact (proj1 (proj2 (runGlobalFunction_dispatch (CO := Demo.globals) 0
                    (Demo.call "now" 0) (Build_Function 0 []) 1 Demo.host_world))
             _ _ _ _ _ Demo.host_executor eq_refl eq_refl eq_refl).
  - exact (proj2 (proj2 (runGlobalFunction_dispatch (CO := Demo.globals) 0
                    (Demo.call "mount" 0) (Build_Function 0 []) 1 Demo.host_world))
             None eq_refl).
Defined.

(** ** More on blocks *)

Section blocks_more.
Context `{CO : Collab}.

Lemma seed_args_spec (executor : nat) (args : list (option RawData)) :
  ∀ (i : nat) (e : LeiseExecutorV1) (w : World),
    executors w !! executor = Some e →
    Z.of_nat (i + length args) < 2147483648 →
    ∃ m,
      seed_args executor i args w =
        Ok tt (set_executors (<[executor := set_cache m e]> (executors w)) w) ∧
      (∀ j a, args !! j = Some a →
         m !! (Z.of_nat (i + j) + 1) = Some (Some {| Result := a; IsStatic := true |})) ∧
      (∀ k, k ≤ Z.of_nat i ∨ Z.of_nat (i + length args) < k → m !! k = cache e !! k).
Proof.
  induction args as [|a args IH]; intros i e w He Hlen; simpl.
  - exists (cache e). split_and!; [| done | done].
    unfold ret. f_equal. destruct e. simpl. by rewrite update_exec_id.
  - assert (int32 (Z.of_nat i + 1) = Z.of_nat i + 1) as Hkey.
    { unfold int32. rewrite Z.mod_small; simpl in Hlen; lia. }
    rewrite Hkey. exec_run He.
    set (e1 := set_cache (CacheV1.Store (Z.of_nat i + 1)
                            (Some {| Result := a; IsStatic := true |}) (cache e)) e).
    set (w1 := set_executors (<[executor := e1]> (executors w)) w).
    destruct (IH (S i) e1 w1) as (m & Hrun & Hin & Hout).
    { apply lookup_insert_eq. }
    { simpl in Hlen. lia. }
    exists m. split_and!.
    + rewrite Hrun. unfold w1. simpl. by rewrite insert_insert_eq.
    + intros [|j] x Hj; simpl in Hj.
      * injection Hj as <-. rewrite Hout by lia. simpl.
        unfold CacheV1.Store. rewrite Nat.add_0_r. apply lookup_insert_eq.
      * rewrite <- (Hin j x Hj). f_equal. lia.
    + intros k Hk. rewrite Hout by (simpl in Hk; lia). simpl.
      unfold CacheV1.Store. apply lookup_insert_ne. simpl in Hk. lia.
Qed.

(** X15: the arguments of a block are bound by position.  Seeding the
    cache of a block executor with [args] puts the argument with index
    [j] at ref [j + 1], as static, and touches no other ref and nothing
    else in the store. *)
Theorem seed_args_positional (executor : nat) (args : list (option RawData))
    (e : LeiseExecutorV1) (w : World) :
  executors w !! executor = Some e →
  Z.of_nat (length args) < 2147483648 →
  ∃ m,
    seed_args executor 0 args w =
      Ok tt (set_executors (<[executor := set_cache m e]> (executors w)) w) ∧
    (∀ j a, args !! j = Some a →
       m !! (Z.of_nat j + 1) = Some (Some {| Result := a; IsStatic := true |})) ∧
    (∀ k, k < 1 ∨ Z.of_nat (length args) < k → m !! k = cache e !! k).
Proof.
  intros He Hlen.
  destruct (seed_args_spec executor args 0 e w He) as (m & Hrun & Hin & Hout); [done |].
  exists m. split_and!; [done | done |].
  intros k Hk. apply Hout. simpl. lia.
Qed.

Lemma runBlock_calls (n c : nat) (receiver : option RawData)
    (functionRef : option Primitive) (args : list (option Primitive)) (ref : Z) (w : World) :
  calls_block receiver →
  runBlock n c receiver functionRef args ref w =
    (let* functionRef := deref functionRef in
     if negb (IsFunction (Primitive_Type functionRef)) then
       ret (None, 0, Some (errors_New "called block with wrong function type"))
     else
       let (fref, ok) := RefV1 functionRef in
       if negb ok then
         ret (None, 0, Some (errors_New "cannot retrieve function reference on block call"))
       else
         let* e := get_exec c in
         match slice_index (Functions (code e)) (int32 (fref - 1)) with
         | None => panic "index out of range"
         | Some None => ret (None, 0, Some (errors_New "block function is nil"))
         | Some (Some fun_) =>
             let fargs := match receiver with Some _ => [receiver] | None => [] end in
             let* r := resolve_args c ref args fargs in
             match r with
             | inr early => ret early
             | inl fargs =>
                 let* closure := alloc_closure {| blockResult := ∅; anyError := None |} in
                 let* err := runFunctionBlock n c fargs fun_
                               (block_callback c fun_ receiver ref closure) in
                 ret (None, 0, err)
             end
         end) w.
Proof.
  intros Hcalls. unfold runBlock. destruct receiver as [b|]; [|done].
  simpl in Hcalls. by rewrite bool_decide_eq_false_2.
Qed.

(** X16: a block call that cannot start creates nothing.  When the
    receiver does not end the call at once, [runBlock] returns an error
    and leaves the store as it is if the function reference is not of a
    function type, if it holds no ref, or if the function it names is
    nil; it panics if the function reference is nil or names a function
    outside the table. *)
Theorem runBlock_rejects (n c : nat) (receiver : option RawData)
    (functionRef : option Primitive) (args : list (option Primitive)) (ref : Z)
    (e : LeiseExecutorV1) (w : World) :
  calls_block receiver →
  executors w !! c = Some e →
  (functionRef = None →
   runBlock n c receiver functionRef args ref w =
     Panic "invalid memory address or nil pointer dereference") ∧
  (∀ fr, functionRef = Some fr → IsFunction (Primitive_Type fr) = false →
     runBlock n c receiver functionRef args ref w =
       Ok (None, 0, Some (errors_New "called block with wrong function type")) w) ∧
  (∀ fr fref, functionRef = Some fr → IsFunction (Primitive_Type fr) = true →
     RefV1 fr = (fref, false) →
     runBlock n c receiver functionRef args ref w =
       Ok (None, 0, Some (errors_New "cannot retrieve function reference on block call")) w) ∧
  (∀ fr fref, functionRef = Some fr → IsFunction (Primitive_Type fr) = true →
     RefV1 fr = (fref, true) →
     slice_index (Functions (code e)) (int32 (fref - 1)) = None →
     runBlock n c receiver functionRef args ref w = Panic "index out of range") ∧
  (∀ fr fref, functionRef = Some fr → IsFunction (Primitive_Type fr) = true →
     RefV1 fr = (fref, true) →
     slice_index (Functions (code e)) (int32 (fref - 1)) = Some None →
     runBlock n c receiver functionRef args ref w =
       Ok (None, 0, Some (errors_New "block function is nil")) w).
Proof.
  intros Hcalls He. split_and!.
  - intros ->. by rewrite runBlock_calls.
  - intros fr -> Hfun. rewrite runBlock_calls by done. simpl. unfold bind, ret.
    by rewrite Hfun.
  - intros fr fref -> Hfun Href. rewrite runBlock_calls by done. simpl. unfold bind, ret.
    by rewrite Hfun, Href.
  - intros fr fref -> Hfun Href Hidx.
    rewrite runBlock_calls by done. simpl. unfold bind at 1. unfold ret at 1.
    rewrite Hfun, Href. simpl. exec_run He. by rewrite Hidx.
  - intros fr fref -> Hfun Href Hidx.
    rewrite runBlock_calls by done. simpl. unfold bind at 1. unfold ret at 1.
    rewrite Hfun, Href. simpl. exec_run He. by rewrite Hidx.
Qed.



End blocks_more.

Lemma seed_args_positional_witness :
  ∃ m,
    seed_args 0 0 [Some Demo.mount; Some (Demo.int_data 5)] (Demo.world Demo.add_executor) =
      Ok tt (set_executors
               (<[0%nat := set_cache m Demo.add_executor]>
                  (executors (Demo.world Demo.add_executor)))
               (Demo.world Demo.add_executor)) ∧
    (∀ j a, [Some Demo.mount; Some (Demo.int_data 5)] !! j = Some a →
       m !! (Z.of_nat j + 1) = Some (Some {| Result := a; IsStatic := true |})) ∧
    (∀ k, k < 1 ∨ Z.of_nat 2 < k → m !! k = cache Demo.add_executor !! k).
Proof.
  apply (seed_args_positional 0 [Some Demo.mount; Some (Demo.int_data 5)]
           Demo.add_executor (Demo.world Demo.add_executor)).
  - reflexivity.
  - simpl. lia.
Defined.

Lemma runBlock_rejects_witness :
  runBlock 3 0 None (Some (Demo.P_int 5)) [] 2 (Demo.world Demo.block_executor) =
    Ok (None, 0, Some (errors_New "called block with wrong function type"))
       (Demo.world Demo.block_executor).
Proof.
  refine (proj1 (proj2 (runBlock_rejects (CO := Demo.collab) 3 0 None
            (Some (Demo.P_int 5)) [] 2 Demo.block_executor
            (Demo.world Demo.block_executor) I eq_refl))
            (Demo.P_int 5) eq_refl eq_refl).
Defined.


(** ** Delivering an error without running *)

Section error_delivery.
Context `{CO : Collab}.

Lemma error_results_keys (c : nat) (points : gmap Z string) (mk : string → RawResult)
    (l : list (Z * string)) :
  (∀ k v, (k, v) ∈ l → points !! k = Some v) →
  error_results c points mk l.*1 = (λ kv, (c, mk kv.2)) <$> l.
Proof.
  unfold error_results. induction l as [|[k v] l IH]; intros Hl; [done |].
  simpl. rewrite (Hl k v) by apply list_elem_of_here. simpl. f_equal.
  apply IH. intros k' v' Hin. apply Hl. by apply list_elem_of_further.
Qed.

Lemma error_results_app (c : nat) (points : gmap Z string) (mk : string → RawResult)
    (l k : list Z) :
  error_results c points mk (l ++ k) =
    error_results c points mk l ++ error_results c points mk k.
Proof. apply omap_app. Qed.

Lemma NoRun_delivers (n c : nat) (err : error) (e : LeiseExecutorV1) (order : list Z) :
  callback e = caller_callback →
  ∀ w, executors w !! c = Some e →
    NoRun n order c err w =
      Ok tt (set_delivered
               (delivered w ++ error_results c (callbackPoints e) (errorResult err) order) w).
Proof.
  intros Hcb. unfold NoRun, error_results.
  induction order as [|ref order IH]; intros w He; simpl.
  - unfold ret. rewrite app_nil_r. by destruct w.
  - exec_run He. destruct (callbackPoints e !! ref) as [codeID|]; simpl.
    + rewrite (invoke_caller_callback n c _ e w He Hcb). rewrite IH by done.
      simpl. by rewrite <- app_assoc.
    + by rewrite IH.
Qed.

(** X18: [NoRun] evaluates nothing and reports to every callback point
    once.  On an executor that holds its caller's callback, whatever the
    order in which the callback record is gone through, the store is
    left as it is except that one error result has been delivered for
    each entry of the callback record, under its code ID. *)
Theorem NoRun_each_point_once (n c : nat) (err : error) (e : LeiseExecutorV1)
    (order : list Z) (w : World) :
  executors w !! c = Some e →
  callback e = caller_callback →
  order ≡ₚ (map_to_list (callbackPoints e)).*1 →
  ∃ results,
    NoRun n order c err w = Ok tt (set_delivered (delivered w ++ results) w) ∧
    results ≡ₚ (λ kv, (c, errorResult err kv.2)) <$> map_to_list (callbackPoints e).
Proof.
  intros He Hcb Hperm.
  exists (error_results c (callbackPoints e) (errorResult err) order).
  split; [by apply NoRun_delivers |].
  rewrite <- (error_results_keys c (callbackPoints e) (errorResult err)).
  - unfold error_results. by rewrite Hperm.
  - intros k v Hin. by apply elem_of_map_to_list.
Qed.

Lemma triggerChainError_leaf (n c : nat) (cur : Z) (err : error)
    (e : LeiseExecutorV1) (w : World) :
  executors w !! c = Some e →
  callback e = caller_callback →
  calls e !! cur = None →
  triggerChainError_body (invoke_callback n) c cur [] err w =
    Ok loop_done
       (set_delivered
          (delivered w ++
           error_results c (callbackPoints e)
             (λ codeID, {| Data := Some {| Typ := types_zero; Value := None;
                                           Error := Some err |};
                           CodeID := codeID |}) [cur]) w).
Proof.
  intros He Hcb Hcalls. unfold triggerChainError_body, error_results. exec_run He.
  destruct (callbackPoints e !! cur) as [codeID|]; simpl.
  - rewrite (invoke_caller_callback n c _ e w He Hcb). exec_run He.
    unfold CallsV1.Load. by rewrite Hcalls.
  - exec_run He. unfold CallsV1.Load. rewrite Hcalls. simpl.
    rewrite app_nil_r. by destruct w.
Qed.

Lemma triggerChainError_step (n c : nat) (cur next : Z) (remaining : list Z) (err : error)
    (e : LeiseExecutorV1) (w : World) :
  executors w !! c = Some e →
  callback e = caller_callback →
  calls e !! cur = Some [next] →
  triggerChainError_body (invoke_callback n) c cur remaining err w =
    Ok (loop_next next (remaining ++ []))
       (set_delivered
          (delivered w ++
           error_results c (callbackPoints e)
             (λ codeID, {| Data := Some {| Typ := types_zero; Value := None;
                                           Error := Some err |};
                           CodeID := codeID |}) [cur]) w).
Proof.
  intros He Hcb Hcalls. unfold triggerChainError_body, error_results. exec_run He.
  destruct (callbackPoints e !! cur) as [codeID|]; simpl.
  - rewrite (invoke_caller_callback n c _ e w He Hcb). exec_run He.
    unfold CallsV1.Load. rewrite Hcalls. simpl. by destruct remaining.
  - exec_run He. unfold CallsV1.Load. rewrite Hcalls. simpl.
    rewrite (app_nil_r (delivered w)). destruct w. by destruct remaining.
Qed.

(** X19: along a chain of refs in which each has the next as its only
    dependent, [triggerChainError] delivers the error to every ref of
    the chain that is in the callback record, in the order of the chain,
    and returns; nothing is cached and no ref is marked.  A ref that is
    not positive stops it at once. *)
Theorem triggerChainError_linear (n c : nat) (ref : Z) (rest : list Z) (err : error)
    (e : LeiseExecutorV1) (w : World) :
  executors w !! c = Some e →
  callback e = caller_callback →
  (ref ≤ 0 → triggerChainError n c ref err w = Ok tt w) ∧
  (linear_chain (calls e) ref rest →
   triggerChainError (S (length rest) + n) c ref err w =
     Ok tt
        (set_delivered
           (delivered w ++
            error_results c (callbackPoints e)
              (λ codeID, {| Data := Some {| Typ := types_zero; Value := None;
                                            Error := Some err |};
                            CodeID := codeID |}) (ref :: rest)) w)).
Proof.
  intros He Hcb. split.
  - intros Hle. unfold triggerChainError. destruct n; simpl;
      by destruct (decide (0 < ref)); [lia |].
  - unfold triggerChainError. revert ref w He.
    induction rest as [|next rest IH]; intros ref w He [Hpos Hchain].
    + simpl. destruct (decide (0 < ref)); [|done].
      unfold bind. by rewrite (triggerChainError_leaf _ c ref err e w).
    + destruct Hchain as [Hcalls Hchain].
      change (S (length (next :: rest)) + n)%nat with (S (S (length rest) + n)).
      cbn [triggerChainError_loop]. destruct (decide (0 < ref)); [|done].
      unfold bind at 1.
      rewrite (triggerChainError_step _ c ref next [] err e w) by done.
      simpl app at 2. rewrite IH by done.
      change (ref :: next :: rest) with ([ref] ++ next :: rest).
      rewrite error_results_app, (assoc_L (++)). reflexivity.
Qed.

(** X20: [triggerChainError] does not survive a fan-out.  When a ref
    has two dependents or more and the first of them has none, the walk
    does not return: it ends in the panic of the internal state error,
    raised on the edge list it did not find for that first dependent
    while the second is still queued. *)
Theorem triggerChainError_fan_out (n c : nat) (ref first second : Z) (more : list Z)
    (err : error) (e : LeiseExecutorV1) (w : World) :
  executors w !! c = Some e →
  callback e = caller_callback →
  0 < ref → 0 < first →
  calls e !! ref = Some (first :: second :: more) →
  calls e !! first = None →
  triggerChainError (S (S n)) c ref err w =
    Panic "internal state error: cannot trigger next call on chain because it points to a zero ref".
Proof.
  intros He Hcb Href Hfirst Hcalls Hleaf. unfold triggerChainError.
  assert (∀ m v r, executors v = executors w →
            invoke_callback m c r v = Ok tt (set_delivered (delivered v ++ [(c, r)]) v))
    as Hinvoke.
  { intros m v r Hv. apply invoke_caller_callback with e; [by rewrite Hv | done]. }
  assert (∀ v, executors v = executors w →
            triggerChainError_loop (S n) c first (second :: more) err v =
            Panic "internal state error: cannot trigger next call on chain because it points to a zero ref")
    as Hnext.
  { intros v Hv. cbn [triggerChainError_loop]. destruct (decide (0 < first)); [|done].
    unfold bind at 1. unfold triggerChainError_body.
    unfold bind at 1. unfold get_exec at 1. rewrite Hv, He.
    unfold bind at 1.
    destruct (callbackPoints e !! first) as [codeID|].
    - rewrite Hinvoke by done. unfold bind, get_exec. simpl. rewrite Hv, He.
      unfold CallsV1.Load. by rewrite Hleaf.
    - unfold ret, bind, get_exec. rewrite Hv, He.
      unfold CallsV1.Load. by rewrite Hleaf. }
  cbn [triggerChainError_loop]. destruct (decide (0 < ref)); [|done].
  unfold bind at 1. unfold triggerChainError_body at 1.
  unfold bind at 1. unfold get_exec at 1. rewrite He.
  unfold bind at 1.
  destruct (callbackPoints e !! ref) as [codeID|].
  - rewrite Hinvoke by done. unfold bind, get_exec. simpl. rewrite He.
    unfold CallsV1.Load. rewrite Hcalls. simpl. by apply Hnext.
  - unfold ret, bind, get_exec. rewrite He.
    unfold CallsV1.Load. rewrite Hcalls. simpl. by apply Hnext.
Qed.

End error_delivery.

Lemma NoRun_each_point_once_witness :
  let e := Demo.executor Demo.fields {[ 2 := "a"; 3 := "b" ]} in
  ∃ results,
    NoRun 0 [3; 2] 0 (errors_New "stop") (Demo.world e) =
      Ok tt (set_delivered (delivered (Demo.world e) ++ results) (Demo.world e)) ∧
    results ≡ₚ
      (λ kv, (0%nat, errorResult (errors_New "stop") kv.2)) <$>
        map_to_list (callbackPoints e).
Proof.
  intros e.
  apply (NoRun_each_point_once (CO := Demo.collab) 0 0 (errors_New "stop") e [3; 2]
           (Demo.world e)).
  - reflexivity.
  - reflexivity.
  - vm_compute. apply (bool_decide_unpack _). vm_compute. exact I.
Defined.

Lemma triggerChainError_linear_witness :
  triggerChainError 2 0 1 (errors_New "stop") (Demo.world Demo.watched_executor) =
    Ok tt
       (set_delivered
          [(0%nat, {| Data := Some (Demo.error_data (errors_New "stop")); CodeID := "chk1" |})]
          (Demo.world Demo.watched_executor)).
Proof.
  refine (proj2 (triggerChainError_linear (CO := Demo.collab) 0 0 1 [2] (errors_New "stop")
                   Demo.watched_executor (Demo.world Demo.watched_executor)
                   eq_refl eq_refl) _).
  simpl. repeat split; (lia || reflexivity).
Defined.

Lemma triggerChainError_fan_out_witness :
  triggerChainError 2 0 1 (errors_New "stop") (Demo.world Demo.fanned_executor) =
    Panic "internal state error: cannot trigger next call on chain because it points to a zero ref".
Proof.
  refine (triggerChainError_fan_out (CO := Demo.collab) 0 0 1 2 3 [] (errors_New "stop")
            Demo.fanned_executor (Demo.world Demo.fanned_executor)
            eq_refl eq_refl _ _ eq_refl eq_refl); lia.
Defined.

(** ** A result that comes with an error *)

Section chain_results.
Context `{CO : Collab}.


End chain_results.


(** ** After the teardown *)

Section teardown_more.
Context `{CO : Collab}.


(** X23: once [Unregister] has returned, [NoRun] on the same executor
    reports to no one: whatever the error and the order, it returns and
    the store is left as it is. *)
Theorem NoRun_after_Unregister (n m c : nat) (order : list Z) (err : error)
    (w w' : World) (r : option error) :
  owns_tree w n c →
  Unregister n c w = Ok r w' →
  NoRun m order c err w' = Ok tt w'.
Proof.
  intros Hown Hrun.
  destruct (Unregister_spec n c w Hown)
    as (r0 & w0 & Hrun0 & (_ & _ & Hnodes) & _).
  rewrite Hrun in Hrun0. injection Hrun0 as <- <-.
  assert (decommissioned w' c) as (e' & He' & Hcb).
  { eapply Forall_forall; [exact Hnodes | by apply teardown_nodes_self]. }
  unfold NoRun. induction order as [|ref order IH]; [done |].
  simpl. exec_run He'. destruct (callbackPoints e' !! ref) as [codeID|]; simpl.
  - destruct m; simpl; exec_run He'; rewrite Hcb; simpl; exact IH.
  - exact IH.
Qed.

End teardown_more.


Lemma NoRun_after_Unregister_witness :
  NoRun 0 [2] 0 (errors_New "stop") Demo.family_torn = Ok tt Demo.family_torn.
Proof.
  apply (NoRun_after_Unregister 2 0 0 [2] (errors_New "stop") Demo.family Demo.family_torn
           (Some (errors_New "multiple errors unregistering")) family_owns_tree).
  vm_compute. reflexivity.
Defined.

(** ** Watch keys *)

Lemma append_nul_inj (s1 s2 t1 t2 : string) :
  Ascii.zero ∉ String.list_ascii_of_string s1 →
  Ascii.zero ∉ String.list_ascii_of_string s2 →
  s1 +:+ String Ascii.zero t1 = s2 +:+ String Ascii.zero t2 →
  s1 = s2 ∧ t1 = t2.
Proof.
  revert s2. induction s1 as [|a s1 IH]; intros [|b s2]; simpl; intros H1 H2 Heq.
  - by injection Heq as ->.
  - injection Heq as <- _. exfalso. apply H2, list_elem_of_here.
  - injection Heq as -> _. exfalso. apply H1, list_elem_of_here.
  - injection Heq as -> Heq.
    destruct (IH s2) as [-> ->]; [| |done..].
    + intros Hin. apply H1. by apply list_elem_of_further.
    + intros Hin. apply H2. by apply list_elem_of_further.
Qed.

(** X24: watch keys do not collide.  For executors whose ids hold no
    NUL character, as the UUIDs [NewExecutorV1] hands out, two watch
    keys are equal only for the same id and the same ref. *)
Theorem watcherUID_inj `{ET : ExternTypes} (e1 e2 : LeiseExecutorV1) (ref1 ref2 : Z) :
  Ascii.zero ∉ String.list_ascii_of_string (exec_id e1) →
  Ascii.zero ∉ String.list_ascii_of_string (exec_id e2) →
  watcherUID e1 ref1 = watcherUID e2 ref2 →
  exec_id e1 = exec_id e2 ∧ ref1 = ref2.
Proof.
  unfold watcherUID, FormatInt. intros H1 H2 Heq.
  destruct (append_nul_inj _ _ _ _ H1 H2 Heq) as [Hid Href].
  split; [done |]. by apply (inj pretty).
Qed.

Lemma watcherUID_inj_witness :
  exec_id Demo.add_executor = exec_id Demo.host_executor ∧ 7 = 7.
Proof.
  apply (watcherUID_inj (ET := Demo.types) Demo.add_executor Demo.host_executor 7 7).
  - apply (bool_decide_unpack _). vm_compute. exact I.
  - apply (bool_decide_unpack _). vm_compute. exact I.
  - reflexivity.
Defined.

(** ** What evaluation never removes *)

Section growth.
Context `{CO : Collab}.

Lemma exec_grows_refl e : exec_grows e e.
Proof. unfold exec_grows. split_and!; try done. intros k l Hl. eauto. Qed.

Lemma exec_grows_trans e1 e2 e3 : exec_grows e1 e2 → exec_grows e2 e3 → exec_grows e1 e3.
Proof.
  intros (? & ? & ? & ? & ? & ? & ? & ? & ? & ? & ? & ? & H12)
         (? & ? & ? & ? & ? & ? & ? & ? & ? & ? & ? & ? & H23).
  unfold exec_grows. split_and!; try congruence; try (by etrans).
  intros k l Hl. destruct (H12 k l Hl) as (l2 & Hl2 & Hp2).
  destruct (H23 k l2 Hl2) as (l3 & Hl3 & Hp3). exists l3. split; [done | by etrans].
Qed.

Lemma grows_refl w : grows w w.
Proof.
  split_and!; [|done..]. intros c e He. exists e. split; [done | apply exec_grows_refl].
Qed.

Lemma grows_trans w1 w2 w3 : grows w1 w2 → grows w2 w3 → grows w1 w3.
Proof.
  intros (He12 & Hc12 & Hd12) (He23 & Hc23 & Hd23). split_and!; [|by etrans..].
  intros c e1 He1. destruct (He12 c e1 He1) as (e2 & He2 & Hg2).
  destruct (He23 c e2 He2) as (e3 & He3 & Hg3).
  exists e3. split; [done | by eapply exec_grows_trans].
Qed.

Lemma grows_update w c e e' :
  executors w !! c = Some e → exec_grows e e' →
  grows w (set_executors (<[c := e']> (executors w)) w).
Proof.
  intros He Hg. split_and!; [|done..]. intros x ex Hx. simpl.
  destruct (decide (x = c)) as [->|Hne].
  - rewrite lookup_insert_eq. exists e'. split; [done | congruence].
  - rewrite lookup_insert_ne by done. exists ex. split; [done | apply exec_grows_refl].
Qed.

Lemma monotone_ret {A} (a : A) : monotone (ret a).
Proof. intros w a' w' [= _ <-]. apply grows_refl. Qed.

Lemma monotone_panic {A} msg : monotone (@panic _ A msg).
Proof. intros w a w' [=]. Qed.

Lemma monotone_out_of_fuel {A} : monotone (@out_of_fuel _ A).
Proof. intros w a w' [=]. Qed.

Lemma monotone_bind {A B} (m : M A) (k : A → M B) :
  monotone m → (∀ a, monotone (k a)) → monotone (bind m k).
Proof.
  intros Hm Hk w b w' Hrun. unfold bind in Hrun.
  destruct (m w) as [a w1| |] eqn:Hmw; [|done..].
  eapply grows_trans; [by eapply Hm | by eapply Hk].
Qed.

Lemma monotone_get_exec c : monotone (get_exec c).
Proof.
  intros w a w' Hrun. unfold get_exec in Hrun.
  destruct (executors w !! c); [|done]. injection Hrun as _ <-. apply grows_refl.
Qed.

Lemma monotone_get_closure l : monotone (get_closure l).
Proof.
  intros w a w' Hrun. unfold get_closure in Hrun.
  destruct (closures w !! l); [|done]. injection Hrun as _ <-. apply grows_refl.
Qed.

Lemma monotone_put_closure l b : monotone (put_closure l b).
Proof.
  intros w a w' [= _ <-]. split_and!; [|simpl|done].
  - intros c e He. exists e. split; [done | apply exec_grows_refl].
  - rewrite dom_insert_L. apply union_subseteq_r.
Qed.

Lemma monotone_alloc_closure b : monotone (alloc_closure b).
Proof.
  intros w a w' [= _ <-]. split_and!; [|simpl|done].
  - intros c e He. exists e. split; [done | apply exec_grows_refl].
  - rewrite dom_insert_L. apply union_subseteq_r.
Qed.

Lemma monotone_alloc_exec e : monotone (alloc_exec e).
Proof.
  intros w a w' [= _ <-]. split_and!; [|done..]. intros c ec Hc. simpl.
  rewrite lookup_insert_ne.
  - exists ec. split; [done | apply exec_grows_refl].
  - intros <-. apply (is_fresh (dom (executors w))). apply elem_of_dom. by eexists.
Qed.

Lemma monotone_deref {A} (p : option A) : monotone (deref p).
Proof. destruct p; [apply monotone_ret | apply monotone_panic]. Qed.

Lemma monotone_update_exec c (f : LeiseExecutorV1 → LeiseExecutorV1) :
  (∀ e, exec_grows e (f e)) → monotone (update_exec c f).
Proof.
  intros Hf w a w' Hrun. unfold update_exec in Hrun.
  destruct (executors w !! c) as [e|] eqn:He; [|done]. injection Hrun as _ <-.
  by apply grows_update with e.
Qed.

Lemma monotone_cache_Store c k v : monotone (cache_Store c k v).
Proof.
  apply monotone_update_exec. intros e. unfold exec_grows. simpl.
  split_and!; try done.
  - unfold CacheV1.Store. rewrite dom_insert_L. apply union_subseteq_r.
  - intros x l Hl. eauto.
Qed.

Lemma monotone_mark c curRef :
  monotone (update_exec c
              (λ e, set_stepTracker (CacheV1.Store curRef None (stepTracker e)) e)).
Proof.
  apply monotone_update_exec. intros e. unfold exec_grows. simpl.
  split_and!; try done.
  - unfold CacheV1.Store. rewrite dom_insert_L. apply union_subseteq_r.
  - intros x l Hl. eauto.
Qed.

Lemma monotone_add_block c executor :
  monotone (update_exec c (λ e, set_blockExecutors (blockExecutors e ++ [executor]) e)).
Proof.
  apply monotone_update_exec. intros e. unfold exec_grows. simpl.
  split_and!; try done.
  - by apply prefix_app_r.
  - intros x l Hl. eauto.
Qed.

Lemma Store_grows (k v : Z) (c : gmap Z (list Z)) (x : Z) (l : list Z) :
  c !! x = Some l →
  ∃ l', (CallsV1.Store k v c).2 !! x = Some l' ∧ l `prefix_of` l'.
Proof.
  intros Hl. unfold CallsV1.Store. destruct (c !! k) as [calls|] eqn:Hk.
  - destruct (CallsV1.contains calls v); simpl; [eauto |].
    destruct (decide (x = k)) as [->|Hne].
    + rewrite lookup_insert_eq. exists (calls ++ [v]). split; [done |].
      assert (l = calls) as -> by congruence. by apply prefix_app_r.
    + rewrite lookup_insert_ne by done. eauto.
  - simpl. rewrite lookup_insert_ne by congruence. eauto.
Qed.

Lemma monotone_calls_Store c k v : monotone (calls_Store c k v).
Proof.
  intros w a w' Hrun. unfold calls_Store, bind, get_exec, update_exec, ret in Hrun.
  destruct (executors w !! c) as [e|] eqn:He; [|done]. rewrite He in Hrun.
  injection Hrun as _ <-. apply grows_update with e; [done |].
  unfold exec_grows. simpl. split_and!; try done. apply Store_grows.
Qed.

Lemma monotone_on_runtime {A} c (f : lumi_Runtime → A * lumi_Runtime) :
  monotone (on_runtime c f).
Proof.
  unfold on_runtime. apply monotone_bind; [apply monotone_get_exec | intros e].
  destruct (runtime e); [apply monotone_panic |].
  intros w a w' [= _ <-]. split_and!; [|done..].
  intros x ex Hx. exists ex. split; [done | apply exec_grows_refl].
Qed.

Lemma monotone_deliver (c : nat) (r : RawResult) :
  monotone (λ w, Ok tt (set_delivered (delivered w ++ [(c, r)]) w)).
Proof.
  intros w a w' [= _ <-]. split_and!; [|done|].
  - intros x ex Hx. exists ex. split; [done | apply exec_grows_refl].
  - by apply prefix_app_r.
Qed.

Lemma monotone_for_each {A} (f : A → M unit) (l : list A) :
  (∀ x, monotone (f x)) → monotone (for_each f l).
Proof.
  intros Hf. induction l as [|x l IH]; simpl; [apply monotone_ret |].
  apply monotone_bind; [apply Hf | intros _; apply IH].
Qed.

End growth.

Ltac monotone_step :=
  match goal with
  | |- monotone (bind _ _) => apply monotone_bind; [|intros ?]
  | |- monotone (ret _) => apply monotone_ret
  | |- monotone (λ w, Ok _ w) => apply monotone_ret
  | |- monotone (panic _) => apply monotone_panic
  | |- monotone out_of_fuel => apply monotone_out_of_fuel
  | |- monotone (get_exec _) => apply monotone_get_exec
  | |- monotone (get_closure _) => apply monotone_get_closure
  | |- monotone (put_closure _ _) => apply monotone_put_closure
  | |- monotone (alloc_closure _) => apply monotone_alloc_closure
  | |- monotone (alloc_exec _) => apply monotone_alloc_exec
  | |- monotone (deref _) => apply monotone_deref
  | |- monotone (cache_Store _ _ _) => apply monotone_cache_Store
  | |- monotone (calls_Store _ _ _) => apply monotone_calls_Store
  | |- monotone (on_runtime _ _) => apply monotone_on_runtime
  | |- monotone (resolveValue _ _ _) => apply resolveValue_monotone
  | |- monotone (runBoundFunctionV1 _ _ _ _) => apply runBoundFunctionV1_monotone
  | |- monotone (args2resourceargsV1 _ _ _) => apply args2resourceargsV1_monotone
  | |- monotone uuid_NewV4 => apply uuid_NewV4_monotone
  | |- monotone (match ?x with _ => _ end) => destruct x eqn:?
  end.

Section growth_chain.
Context `{CM : Collab_monotone}.

Lemma monotone_createResource c name f ref : monotone (createResource c name f ref).
Proof. unfold createResource. repeat monotone_step. Qed.

Lemma monotone_runGlobalFunction c chunk f ref :
  monotone (runGlobalFunction c chunk f ref).
Proof.
  unfold runGlobalFunction. destruct (handleGlobalV1 (Id chunk)) as [h ok] eqn:Hh.
  destruct ok; [|apply monotone_createResource].
  destruct h as [h|]; [|apply monotone_ret].
  apply monotone_bind; [by eapply handleGlobalV1_monotone | intros ?].
  repeat monotone_step.
Qed.

Lemma monotone_runFunction c chunk ref : monotone (runFunction c chunk ref).
Proof.
  unfold runFunction, connectRef.
  destruct (decide _); [apply monotone_runGlobalFunction |].
  repeat monotone_step.
Qed.

Lemma monotone_runChunk c chunk ref : monotone (runChunk c chunk ref).
Proof.
  unfold runChunk. destruct (Call chunk); [| apply monotone_runFunction | |];
    repeat monotone_step.
Qed.

Lemma monotone_runRef c ref : monotone (runRef c ref).
Proof.
  unfold runRef. monotone_step; [monotone_step |].
  destruct (slice_index _ _) as [[chunk|]|];
    [apply monotone_runChunk | apply monotone_ret | apply monotone_panic].
Qed.

Lemma monotone_advance c curRef nextRef remaining :
  monotone (advance c curRef nextRef remaining).
Proof. unfold advance. repeat monotone_step. Qed.

Lemma monotone_runChain_visit invoke c curRef remaining :
  (∀ c r, monotone (invoke c r)) → monotone (runChain_visit invoke c curRef remaining).
Proof.
  intros Hinvoke. unfold runChain_visit.
  apply monotone_bind; [apply monotone_get_exec | intros e].
  destruct (CacheV1.Load curRef (cache e)) as [cached ok].
  apply monotone_bind.
  { destruct ok; [repeat monotone_step | apply monotone_runRef]. }
  intros [[res nextRef] err].
  destruct (bool_decide _); [apply monotone_ret |].
  apply monotone_bind; [|intros _; apply monotone_advance].
  unfold deliver_error, cache_error.
  destruct res as [r|], err as [er|];
    repeat first [apply Hinvoke | monotone_step].
Qed.

Lemma monotone_runChain_body invoke c curRef remaining :
  (∀ c r, monotone (invoke c r)) → monotone (runChain_body invoke c curRef remaining).
Proof.
  intros Hinvoke. unfold runChain_body.
  apply monotone_bind; [apply monotone_mark | intros _].
  by apply monotone_runChain_visit.
Qed.

Lemma monotone_triggerChain_body invoke chain c ref data :
  (∀ c r, monotone (invoke c r)) → (∀ c start, monotone (chain c start)) →
  monotone (triggerChain_body invoke chain c ref data).
Proof.
  intros Hinvoke Hchain. unfold triggerChain_body.
  apply monotone_bind; [apply monotone_get_exec | intros e].
  apply monotone_bind.
  { destruct (callbackPoints e !! ref); [apply Hinvoke | apply monotone_ret]. }
  intros _. apply monotone_bind; [apply monotone_get_exec | intros e'].
  destruct (CallsV1.Load ref (calls e')) as [nxt ok]. destruct ok.
  - destruct nxt; [apply monotone_panic | by apply monotone_for_each].
  - apply monotone_bind; [apply monotone_get_exec | intros e''].
    destruct (CacheV1.Load ref (cache e'')) as [res ok]. destruct ok; simpl.
    + apply monotone_bind; [apply monotone_deref | intros ?]. apply Hinvoke.
    + apply Hinvoke.
Qed.

Lemma monotone_block_callback_body trigger parent fun_ bind ref closure res :
  (∀ c ref data, monotone (trigger c ref data)) →
  monotone (block_callback_body trigger parent fun_ bind ref closure res).
Proof.
  intros Htrigger. unfold block_callback_body.
  destruct (SingleValue fun_).
  - apply monotone_bind; [apply monotone_cache_Store | intros _; apply Htrigger].
  - apply monotone_bind; [apply monotone_get_closure | intros b].
    apply monotone_bind; [apply monotone_deref | intros [b' resolved]].
    apply monotone_bind; [apply monotone_put_closure | intros _].
    destruct resolved; [|apply monotone_ret].
    apply monotone_bind; [apply monotone_cache_Store | intros _; apply Htrigger].
Qed.

(** The loop, the callback and the trigger, whatever the fuel. *)
Lemma monotone_chain (n : nat) :
  (∀ c nextRef remaining, monotone (runChain_loop n c nextRef remaining)) ∧
  (∀ c r, monotone (invoke_callback n c r)) ∧
  (∀ c ref data, monotone (triggerChain n c ref data)).
Proof.
  induction n as [|n (IHloop & IHinvoke & IHtrigger)].
  - split_and!.
    + intros c nextRef remaining. simpl.
      destruct (decide _); [apply monotone_ret | apply monotone_out_of_fuel].
    + intros c r. simpl. apply monotone_bind; [apply monotone_get_exec | intros e].
      destruct (callback e); [|apply monotone_ret | apply monotone_out_of_fuel].
      apply monotone_deliver.
    + intros c ref data. apply monotone_out_of_fuel.
  - assert (∀ c r, monotone (invoke_callback (S n) c r)) as Hinvoke.
    { intros c r. simpl. apply monotone_bind; [apply monotone_get_exec | intros e].
      destruct (callback e); [|apply monotone_ret |].
      - apply monotone_deliver.
      - by apply monotone_block_callback_body. }
    split_and!; [|exact Hinvoke|].
    + intros c nextRef remaining. simpl.
      destruct (decide _); [apply monotone_ret |].
      apply monotone_bind; [by apply monotone_runChain_body | intros ctl].
      destruct ctl; [apply monotone_ret | apply IHloop].
    + intros c ref data. simpl. apply monotone_triggerChain_body; [done |].
      intros c' start. apply IHloop.
Qed.

Lemma monotone_Run n c : monotone (Run n c).
Proof.
  unfold Run. apply monotone_bind; [apply monotone_get_exec | intros e].
  apply monotone_for_each. intros ref. unfold Run_ref.
  apply monotone_bind; [apply monotone_get_exec | intros e'].
  destruct ((CacheV1.Load ref (stepTracker e')).2); [apply monotone_ret |].
  apply monotone_chain.
Qed.

Lemma monotone_NewExecutorV1 code rt props cb : monotone (NewExecutorV1 code rt props cb).
Proof.
  unfold NewExecutorV1. destruct rt; [apply monotone_ret |].
  destruct code as [code|]; [|apply monotone_ret].
  repeat monotone_step.
Qed.

Lemma monotone_seed_args executor i args : monotone (seed_args executor i args).
Proof.
  revert i. induction args as [|a args IH]; intros i; simpl; [apply monotone_ret |].
  apply monotone_bind; [apply monotone_cache_Store | intros _; apply IH].
Qed.

Lemma monotone_runFunctionBlock n c args code cb :
  monotone (runFunctionBlock n c args code cb).
Proof.
  unfold runFunctionBlock.
  apply monotone_bind; [apply monotone_get_exec | intros e].
  apply monotone_bind; [apply monotone_NewExecutorV1 | intros [executor err]].
  destruct err; [apply monotone_ret |].
  apply monotone_bind; [apply monotone_deref | intros x].
  apply monotone_bind; [apply monotone_add_block | intros _].
  apply monotone_bind; [apply monotone_seed_args | intros _].
  apply monotone_bind; [apply monotone_Run | intros _; apply monotone_ret].
Qed.

Lemma monotone_resolve_args c ref args fargs : monotone (resolve_args c ref args fargs).
Proof.
  revert fargs. induction args as [|arg args IH]; intros fargs; simpl;
    [apply monotone_ret |].
  apply monotone_bind; [apply resolveValue_monotone | intros [[a b] err]].
  destruct (bool_decide _); [apply monotone_ret | apply IH].
Qed.

Lemma monotone_runBlock n c bind functionRef args ref :
  monotone (runBlock n c bind functionRef args ref).
Proof.
  assert (∀ fargs0 : list (option RawData),
    monotone
      (let* functionRef := deref functionRef in
       if negb (IsFunction (Primitive_Type functionRef)) then
         ret (None, 0, Some (errors_New "called block with wrong function type"))
       else
         let (fref, ok) := RefV1 functionRef in
         if negb ok then
           ret (None, 0,
                Some (errors_New "cannot retrieve function reference on block call"))
         else
           let* e := get_exec c in
           match slice_index (Functions (code e)) (int32 (fref - 1)) with
           | None => panic "index out of range"
           | Some None => ret (None, 0, Some (errors_New "block function is nil"))
           | Some (Some fun_) =>
               let* r := resolve_args c ref args fargs0 in
               match r with
               | inr early => ret early
               | inl fargs =>
                   let* closure := alloc_closure {| blockResult := ∅; anyError := None |} in
                   let* err := runFunctionBlock n c fargs fun_
                                 (block_callback c fun_ bind ref closure) in
                   ret (None, 0, err)
               end
           end)) as Hcall.
  { intros fargs0. apply monotone_bind; [apply monotone_deref | intros p].
    destruct (negb _); [apply monotone_ret |].
    destruct (RefV1 p) as [fref ok]. destruct (negb ok); [apply monotone_ret |].
    apply monotone_bind; [apply monotone_get_exec | intros e].
    destruct (slice_index _ _) as [[fun_|]|];
      [| apply monotone_ret | apply monotone_panic].
    apply monotone_bind; [apply monotone_resolve_args | intros [fargs|early]];
      [|apply monotone_ret].
    apply monotone_bind; [apply monotone_alloc_closure | intros closure].
    apply monotone_bind; [apply monotone_runFunctionBlock | intros err].
    apply monotone_ret. }
  unfold runBlock. destruct bind as [b|].
  - destruct (bool_decide _); [apply monotone_ret | apply Hcall].
  - apply Hcall.
Qed.

Lemma monotone_NoRun n order c err : monotone (NoRun n order c err).
Proof.
  unfold NoRun. apply monotone_for_each. intros ref.
  apply monotone_bind; [apply monotone_get_exec | intros e].
  destruct (callbackPoints e !! ref); [apply monotone_chain | apply monotone_ret].
Qed.

Lemma monotone_triggerChainError n c ref err : monotone (triggerChainError n c ref err).
Proof.
  unfold triggerChainError. generalize (@nil Z) as remaining. revert ref.
  induction n as [|n IH]; intros ref remaining; simpl.
  - destruct (decide _); [apply monotone_out_of_fuel | apply monotone_ret].
  - destruct (decide _); [|apply monotone_ret].
    apply monotone_bind; [|intros [|cur' remaining']; [apply monotone_ret | apply IH]].
    unfold triggerChainError_body.
    apply monotone_bind; [apply monotone_get_exec | intros e].
    apply monotone_bind.
    { destruct (callbackPoints e !! ref); [apply monotone_chain | apply monotone_ret]. }
    intros _. apply monotone_bind; [apply monotone_get_exec | intros e'].
    destruct (CallsV1.Load ref (calls e')) as [nxt ok].
    destruct ok, remaining, nxt; simpl;
      first [apply monotone_ret | apply monotone_panic].
Qed.

(** X25: evaluation only adds to the store.  As long as the functions
    of the other files only add to it, none of the ways into the
    executor removes anything: no executor and no closure disappears,
    no executor loses its code, its callback or its callback record, no
    cached ref, tracked ref, edge, watch or block executor is dropped,
    and the results delivered so far stay delivered, in order, with the
    new ones after them.  This holds for a chain walk, for a result
    that arrives at a callback, for [triggerChain], [Run], [runBlock],
    [NoRun] and [triggerChainError], whatever the fuel. *)
Theorem evaluation_only_adds (n : nat) :
  (∀ c start, monotone (runChain n c start)) ∧
  (∀ c r, monotone (invoke_callback n c r)) ∧
  (∀ c ref data, monotone (triggerChain n c ref data)) ∧
  (∀ c, monotone (Run n c)) ∧
  (∀ c bind functionRef args ref, monotone (runBlock n c bind functionRef args ref)) ∧
  (∀ order c err, monotone (NoRun n order c err)) ∧
  (∀ c ref err, monotone (triggerChainError n c ref err)).
Proof.
  split_and!.
  - intros c start. apply monotone_chain.
  - apply monotone_chain.
  - apply monotone_chain.
  - apply monotone_Run.
  - apply monotone_runBlock.
  - apply monotone_NoRun.
  - apply monotone_triggerChainError.
Qed.

End growth_chain.

Lemma Demo_monotone : Collab_monotone (CO := Demo.collab).
Proof.
  split.
  - intros c p ref. simpl. unfold Demo.resolve.
    destruct p as [[]|]; apply monotone_ret.
  - intros c bind chunk ref. apply monotone_ret.
  - intros id h ok c f ref [=].
  - intros c ref args. apply monotone_ret.
  - apply monotone_ret.
Qed.

Lemma evaluation_only_adds_witness :
  ∃ w',
    Run 3 0 (Demo.world Demo.add_executor) = Ok tt w' ∧
    delivered w' = [(0%nat, {| Data := Some (Demo.int_data 5); CodeID := "chk2" |})] ∧
    grows (Demo.world Demo.add_executor) w'.
Proof.
  eexists. split; [vm_compute; reflexivity |]. split; [reflexivity |].
  refine (proj1 (proj2 (proj2 (proj2 (evaluation_only_adds (CM := Demo_monotone) 3))))
            0%nat _ tt _ _).
  vm_compute. reflexivity.
Defined.

(** ** Starting a block *)

Section block_start.
Context `{CO : Collab}.

Lemma NewExecutorV1_valid (program : CodeV1) (properties : gmap string (option Primitive))
    (cb : ResultCallback) (id : string) (w w1 : World) :
  uuid_NewV4 w = Ok id w1 →
  Forall (valid_point (Checksums program)) (Entrypoints program ++ Datapoints program) →
  Entrypoints program ++ Datapoints program ≠ [] →
  NewExecutorV1 (Some program) the_runtime properties cb w =
    Ok (Some (fresh (dom (executors w1))), None)
       (set_executors
          (<[fresh (dom (executors w1)) :=
               {| exec_id := id; watcherIds := ∅; blockExecutors := [];
                  runtime := the_runtime; code := program;
                  entrypoints := list_to_set (Entrypoints program);
                  callbackPoints :=
                    record_of (Checksums program) (Entrypoints program ++ Datapoints program);
                  callback := cb; cache := ∅; stepTracker := ∅; calls := ∅; starts := [];
                  props := properties |}]> (executors w1)) w1).
Proof.
  intros Huuid Hvalid Hne.
  apply Forall_app in Hvalid as [Hentry Hdata].
  unfold NewExecutorV1. unfold bind at 1. rewrite Huuid.
  rewrite register_entrypoints_valid by done.
  rewrite register_datapoints_valid by done.
  fold (record_of (Checksums program) (Entrypoints program)).
  rewrite record_of_app.
  destruct (decide (size (record_of (Checksums program)
                            (Entrypoints program ++ Datapoints program)) = 0%nat))
    as [Hsize|_].
  { by apply record_of_empty in Hsize. }
  unfold bind, alloc_exec, ret. simpl. do 3 f_equal.
  by rewrite (right_id_L ∅ (∪)).
Qed.

(** X26: how a block executor starts.  For a valid block function,
    [runFunctionBlock] creates an executor at a free address with the
    runtime and the properties of the parent and the callback it was
    given, appends it to the block executors of the parent, puts the
    argument with index [j] in its cache at ref [j + 1] as static, and
    only then runs it; what it returns is nil, whatever the run
    delivers. *)
Theorem runFunctionBlock_runs (n c : nat) (args : list (option RawData)) (fun_ : CodeV1)
    (cb : ResultCallback) (id : string) (e e1 : LeiseExecutorV1) (w w1 : World) :
  let refs := Entrypoints fun_ ++ Datapoints fun_ in
  executors w !! c = Some e →
  runtime e = the_runtime →
  uuid_NewV4 w = Ok id w1 →
  executors w1 !! c = Some e1 →
  Forall (valid_point (Checksums fun_)) refs →
  refs ≠ [] →
  Z.of_nat (length args) < 2147483648 →
  ∃ a block,
    executors w1 !! a = None ∧
    exec_id block = id ∧ runtime block = the_runtime ∧ props block = props e ∧
    code block = fun_ ∧ callback block = cb ∧
    callbackPoints block = record_of (Checksums fun_) refs ∧
    stepTracker block = ∅ ∧ calls block = ∅ ∧ blockExecutors block = [] ∧
    (∀ j arg, args !! j = Some arg →
       cache block !! (Z.of_nat j + 1) = Some (Some {| Result := arg; IsStatic := true |})) ∧
    (∀ k, k < 1 ∨ Z.of_nat (length args) < k → cache block !! k = None) ∧
    runFunctionBlock n c args fun_ cb w =
      (let* _ := Run n a in ret None)
        (set_executors
           (<[a := block]>
              (<[c := set_blockExecutors (blockExecutors e1 ++ [a]) e1]> (executors w1)))
           w1).
Proof.
  intros refs He Hrt Huuid He1 Hvalid Hne Hlen.
  set (a := fresh (dom (executors w1))).
  set (e0 := {| exec_id := id; watcherIds := ∅; blockExecutors := [];
                runtime := the_runtime; code := fun_;
                entrypoints := list_to_set (Entrypoints fun_);
                callbackPoints := record_of (Checksums fun_) refs;
                callback := cb; cache := ∅; stepTracker := ∅; calls := ∅; starts := [];
                props := props e |}).
  assert (executors w1 !! a = None) as Hfresh by apply not_elem_of_dom, is_fresh.
  assert (a ≠ c) as Hac by (intros ->; congruence).
  set (parent := set_blockExecutors (blockExecutors e1 ++ [a]) e1).
  set (w3 := set_executors (<[c := parent]> (<[a := e0]> (executors w1))) w1).
  assert (executors w3 !! a = Some e0) as Ha3.
  { simpl. rewrite lookup_insert_ne by done. apply lookup_insert_eq. }
  destruct (seed_args_spec a args 0 e0 w3 Ha3) as (m & Hseed & Hin & Hout); [done |].
  exists a, (set_cache m e0).
  split_and!; [done.. | | |].
  - intros j arg Hj. simpl. by apply Hin.
  - intros k Hk. simpl. rewrite Hout by (simpl; lia). done.
  - unfold runFunctionBlock. unfold bind at 1. unfold get_exec at 1. rewrite He, Hrt.
    unfold bind at 1. rewrite (NewExecutorV1_valid fun_ (props e) cb id w w1) by done.
    fold refs a e0. simpl.
    unfold bind at 1. unfold update_exec at 1. simpl.
    unfold bind at 1. simpl.
    rewrite lookup_insert_ne by done. rewrite He1.
    fold parent.
    transitivity (bind (seed_args a 0 args)
                    (λ _, bind (Run n a) (λ _, ret (None : option error))) w3);
      [reflexivity |].
    unfold bind at 1. rewrite Hseed. unfold w3. simpl.
    rewrite insert_insert_ne by done. rewrite insert_insert_eq.
    by rewrite (insert_insert_ne _ a c).
Qed.

End block_start.

Lemma runFunctionBlock_runs_witness :
  ∃ a block,
    executors (Demo.world Demo.block_executor) !! a = None ∧
    exec_id block = "00000000-0000-4000-8000-000000000000" ∧
    runtime block = the_runtime ∧ props block = props Demo.block_executor ∧
    code block = Demo.fields ∧ callback block = caller_callback ∧
    callbackPoints block =
      record_of (Checksums Demo.fields) (Entrypoints Demo.fields ++ Datapoints Demo.fields) ∧
    stepTracker block = ∅ ∧ calls block = ∅ ∧ blockExecutors block = [] ∧
    (∀ j arg, [Some Demo.mount] !! j = Some arg →
       cache block !! (Z.of_nat j + 1) = Some (Some {| Result := arg; IsStatic := true |})) ∧
    (∀ k, k < 1 ∨ Z.of_nat (length [Some Demo.mount]) < k → cache block !! k = None) ∧
    runFunctionBlock 3 0 [Some Demo.mount] Demo.fields caller_callback
        (Demo.world Demo.block_executor) =
      (let* _ := Run 3 a in ret None)
        (set_executors
           (<[a := block]>
              (<[0%nat := set_blockExecutors (blockExecutors Demo.block_executor ++ [a])
                            Demo.block_executor]>
                 (executors (Demo.world Demo.block_executor))))
           (Demo.world Demo.block_executor)).
Proof.
  apply (runFunctionBlock_runs (CO := Demo.collab) 3 0 [Some Demo.mount] Demo.fields
           caller_callback "00000000-0000-4000-8000-000000000000"
           Demo.block_executor Demo.block_executor
           (Demo.world Demo.block_executor) (Demo.world Demo.block_executor)).
  - reflexivity.
  - reflexivity.
  - reflexivity.
  - reflexivity.
  - repeat constructor; simpl; (discriminate || lia).
  - discriminate.
  - simpl. lia.
Defined.
